(** * ign-gazebo: the altimeter system, the log playback system and the
      geometry component, embedded from

      - src/systems/altimeter/Altimeter.cc
      - src/systems/log/LogPlayback.cc
      - include/ignition/gazebo/components/Geometry.hh

    The entity-component manager is a finite map from entities to the
    components they carry.  A C++ [double] is an IEEE 754 binary64 value
    ([spec_float] with 53 bits of precision).  Whatever a system writes to
    the console or hands to the transport layer or the event manager is
    collected in a list of effects, in program order. *)

From Stdlib Require Import ZArith String List.
From Stdlib Require Import Floats.SpecFloat.
From stdpp Require Import gmap strings list fin_maps.

(** ** Numbers and the math library's value types *)

Definition double : Type := spec_float.

Definition prec : Z := 53.
Definition emax : Z := 1024.

(** [a - b] and [a + b] on doubles, rounding to nearest even. *)
Definition dsub (a b : double) : double := SFsub prec emax a b.
Definition dadd (a b : double) : double := SFadd prec emax a b.

(** [0.0], the default member initialiser of the sensor's readings. *)
Definition dzero : double := S754_zero false.

Module math.
Record Vector3d := { X : double; Y : double; Z : double }.
Record Quaterniond :=
  { QW : double; QX : double; QY : double; QZ : double }.
Record Pose3d := { Pos : Vector3d; Rot : Quaterniond }.
End math.

(** ** Entities and components *)

(** [using Entity = uint64_t]. *)
Definition Entity : Type := N.

Module sdf.
(** An element of the scene description: its tag and its attributes.
    (Children are only needed for the world element, see [World].) *)
Record Element := { GetName : string; attributes : list (string * string) }.

(** The element a [components::Altimeter] holds.  The system only asks it
    for its [<topic>] child. *)
Record AltimeterElement := { topicElement : option string }.
End sdf.

(** The components of one entity; [None] is the absent component, for which
    [EntityComponentManager::Component] returns [nullptr]. *)
Module components.
Record t := {
  Name : option string;
  ParentEntity : option Entity;
  World : option unit;
  Pose : option math.Pose3d;
  WorldPose : option math.Pose3d;
  WorldLinearVelocity : option math.Vector3d;
  Altimeter : option sdf.AltimeterElement
}.

Definition set_Pose (p : math.Pose3d) (c : t) : t :=
  {| Name := Name c; ParentEntity := ParentEntity c; World := World c;
     Pose := Some p; WorldPose := WorldPose c;
     WorldLinearVelocity := WorldLinearVelocity c;
     Altimeter := Altimeter c |}.
End components.

Abbreviation EntityComponentManager := (gmap Entity components.t).

(** [_ecm.Component<K>(_entity)]: the component of kind [K], or [None] when
    the entity does not exist or does not carry it. *)
Definition Component {A} (K : components.t → option A)
    (e : Entity) (ecm : EntityComponentManager) : option A :=
  ecm !! e ≫= K.

(** [_ecm.Each<K1, ..., Kn>(visitor)]: [kinds] picks the requested components
    of an entity, when it has them all; the visitor is called on every such
    entity, threads the captured state [S] and returns the continue flag. *)
Fixpoint each_loop {T S} (kinds : components.t → option T)
    (visitor : Entity → T → S → S * bool)
    (l : list (Entity * components.t)) (s : S) : S :=
  match l with
  | [] => s
  | (e, c) :: l' =>
      match kinds c with
      | None => each_loop kinds visitor l' s
      | Some k =>
          let '(s', continue) := visitor e k s in
          if continue then each_loop kinds visitor l' s' else s'
      end
  end.

Definition Each {T S} (ecm : EntityComponentManager)
    (kinds : components.t → option T)
    (visitor : Entity → T → S → S * bool) (s : S) : S :=
  each_loop kinds visitor (map_to_list ecm) s.

(** ** Outcomes and effects *)

(** A call returns, or dereferences a null component pointer, or (in the
    model only) uses up the fuel given to a loop. *)
Inductive outcome (A : Type) :=
| Returns (a : A)
| NullDereference
| OutOfFuel.
Arguments Returns {A} a.
Arguments NullDereference {A}.
Arguments OutOfFuel {A}.

(** The texts the two systems write to the console. *)
Inductive LogText :=
| AltimeterPublishingOn (topic : string)
| FailedToUpdateAltimeter (e : Entity)
| UnspecifiedLogPath
| MustBeADirectory (logPath : string)
| LogPathInvalid (dbPath sdfPath : string)
| LoadingLogFiles (dbPath sdfPath : string)
| ErrorLoadingSdf (sdfPath : string)
| RemovedPlugin (name : string)
| FailedToOpenLog (dbPath : string)
| NoMessagesFound (dbPath : string)
| FinishedPlaying
| UnsupportedMessageType (msgType : string).

Module msgs.
Record Altimeter := {
  vertical_position : double;
  vertical_velocity : double;
  vertical_reference : double
}.
End msgs.

Inductive Effect :=
| ignerr (t : LogText)
| ignwarn (t : LogText)
| ignmsg (t : LogText)
| igndbg (t : LogText)
| Advertise (topic : string)
| Publish (topic : string) (msg : msgs.Altimeter)
| LoadPlugins (worldEntity : Entity) (worldElement : list sdf.Element).

Definition is_ignerr (x : Effect) : bool :=
  match x with ignerr _ => true | _ => false end.

(** ** The altimeter system (Altimeter.cc) *)

Record AltimeterSensor := {
  topic : string;
  verticalPosition : double;
  verticalVelocity : double;
  verticalReference : double;
  pub : bool (* is the publisher valid, [operator bool] *)
}.

(** [AltimeterSensor::AltimeterSensor() = default]. *)
Definition AltimeterSensor_new : AltimeterSensor :=
  {| topic := ""; verticalPosition := dzero; verticalVelocity := dzero;
     verticalReference := dzero; pub := false |}.

Definition set_topic (t : string) (s : AltimeterSensor) :=
  {| topic := t; verticalPosition := verticalPosition s;
     verticalVelocity := verticalVelocity s;
     verticalReference := verticalReference s; pub := pub s |}.

Definition set_verticalReference (r : double) (s : AltimeterSensor) :=
  {| topic := topic s; verticalPosition := verticalPosition s;
     verticalVelocity := verticalVelocity s;
     verticalReference := r; pub := pub s |}.

Definition set_reading (pos vel : double) (s : AltimeterSensor) :=
  {| topic := topic s; verticalPosition := pos; verticalVelocity := vel;
     verticalReference := verticalReference s; pub := pub s |}.

Definition set_pub (b : bool) (s : AltimeterSensor) :=
  {| topic := topic s; verticalPosition := verticalPosition s;
     verticalVelocity := verticalVelocity s;
     verticalReference := verticalReference s; pub := b |}.

(** [std::string::empty]. *)
Definition str_empty (s : string) : bool := String.eqb s "".

(** [AltimeterSensor::Load]. *)
Definition AltimeterSensor_Load (_sdf : sdf.AltimeterElement) (this : AltimeterSensor)
    : AltimeterSensor :=
  match sdf.topicElement _sdf with
  | Some t => set_topic t this
  | None => this
  end.

Definition reading (this : AltimeterSensor) : msgs.Altimeter :=
  {| msgs.vertical_position := verticalPosition this;
     msgs.vertical_velocity := verticalVelocity this;
     msgs.vertical_reference := verticalReference this |}.

(** The transport library, taken as given.  [Node_Advertise t] tells whether
    the publisher that [transport::Node::Advertise] returns for the topic
    [t] is valid; a topic the library rejects gives a publisher that is
    not. *)
Class Transport := { Node_Advertise : string → bool }.

(** [AltimeterSensor::Publish].  [pub] is assigned what [Advertise] returns
    and tested again on the next call; [Publish] is the call of
    [pub.Publish], which is made whether or not the publisher is valid. *)
Definition AltimeterSensor_Publish `{Transport} (this : AltimeterSensor)
    : AltimeterSensor * list Effect :=
  if str_empty (topic this) then (this, [])
  else
    let '(this', adv) :=
      if negb (pub this)
      then (set_pub (Node_Advertise (topic this)) this,
            [Advertise (topic this);
             ignmsg (AltimeterPublishingOn (topic this))])
      else (this, []) in
    (this', adv ++ [Publish (topic this') (reading this')]).

Record AltimeterPrivate := {
  initialized : bool;
  entitySensorMap : gmap Entity AltimeterSensor
}.

(** [AltimeterPrivate::DefaultTopic].  [p] is the pointer to the current
    [ParentEntity] component ([None] is [nullptr]); every [->] on a null
    pointer is a [NullDereference].  The walk up the tree is given fuel. *)
Fixpoint DefaultTopic_loop (fuel : nat) (_ecm : EntityComponentManager)
    (p : option Entity) (topic : string) : outcome string :=
  match p with
  | None => Returns topic
  | Some parent =>
      match fuel with
      | O => OutOfFuel
      | S fuel' =>
          match Component components.World parent _ecm with
          | Some _ => Returns topic
          | None =>
              match Component components.Name parent _ecm with
              | None => NullDereference
              | Some modelName =>
                  DefaultTopic_loop fuel' _ecm
                    (Component components.ParentEntity parent _ecm)
                    (("/model/" +:+ modelName) +:+ topic)
              end
          end
      end
  end.

Definition DefaultTopic (fuel : nat) (_entity : Entity)
    (_ecm : EntityComponentManager) : outcome string :=
  match Component components.Name _entity _ecm with
  | None => NullDereference
  | Some sensorName =>
      match Component components.ParentEntity _entity _ecm with
      | None => NullDereference
      | Some link =>
          match Component components.Name link _ecm with
          | None => NullDereference
          | Some linkName =>
              DefaultTopic_loop fuel _ecm
                (Component components.ParentEntity link _ecm)
                ("/link/" +:+ linkName +:+ "/sensor/" +:+ sensorName
                   +:+ "/altimeter")
          end
      end
  end.

Definition altimeter_kinds (c : components.t)
    : option (sdf.AltimeterElement * math.Pose3d * math.Vector3d) :=
  a ← components.Altimeter c;
  wp ← components.WorldPose c;
  v ← components.WorldLinearVelocity c;
  Some (a, wp, v).

(** The visitor of [AltimeterPrivate::UpdateAltimeters]. *)
Definition UpdateAltimeters_visitor (_entity : Entity)
    (k : sdf.AltimeterElement * math.Pose3d * math.Vector3d)
    (s : gmap Entity AltimeterSensor * list Effect)
    : (gmap Entity AltimeterSensor * list Effect) * bool :=
  let '(_, _worldPose, _worldLinearVel) := k in
  let '(entitySensorMap, out) := s in
  match entitySensorMap !! _entity with
  | Some it =>
      let pos := dsub (math.Z (math.Pos _worldPose)) (verticalReference it) in
      let vel := math.Z _worldLinearVel in
      ((<[_entity := set_reading pos vel it]> entitySensorMap, out), true)
  | None =>
      ((entitySensorMap, out ++ [ignerr (FailedToUpdateAltimeter _entity)]),
       true)
  end.

Definition UpdateAltimeters (_ecm : EntityComponentManager)
    (entitySensorMap : gmap Entity AltimeterSensor)
    : gmap Entity AltimeterSensor * list Effect :=
  Each _ecm altimeter_kinds UpdateAltimeters_visitor (entitySensorMap, []).

(** [UpdateInfo]; times are counted in nanoseconds. *)
Record UpdateInfo := { simTime : Z; paused : bool }.

(** [Altimeter::PostUpdate]: the sensors are updated, then each sensor of the
    map publishes. *)
Definition Altimeter_PostUpdate `{Transport} (_info : UpdateInfo)
    (_ecm : EntityComponentManager) (this : AltimeterPrivate)
    : AltimeterPrivate * list Effect :=
  if paused _info then (this, [])
  else
    let '(m, out) := UpdateAltimeters _ecm (entitySensorMap this) in
    ({| initialized := initialized this;
        entitySensorMap := fst ∘ AltimeterSensor_Publish <$> m |},
     out ++ concat ((snd ∘ AltimeterSensor_Publish ∘ snd) <$> map_to_list m)).

Section AltimeterCreate.
(** [Util::WorldPose], the helper that composes the local poses up to the
    world; it is declared in Util.hh and taken as given. *)
Variable WorldPose : Entity → EntityComponentManager → math.Pose3d.
(** Fuel for the walk of [DefaultTopic]. *)
Variable fuel : nat.

(** The visitor of [AltimeterPrivate::CreateAltimeterEntities];
    [unordered_map::insert] keeps an entry that is already there. *)
Definition CreateAltimeterEntities_visitor (_ecm : EntityComponentManager)
    (_entity : Entity) (_altimeter : sdf.AltimeterElement)
    (s : outcome (gmap Entity AltimeterSensor))
    : outcome (gmap Entity AltimeterSensor) * bool :=
  match s with
  | Returns entitySensorMap =>
      let verticalReference := math.Z (math.Pos (WorldPose _entity _ecm)) in
      let sensor := AltimeterSensor_Load _altimeter AltimeterSensor_new in
      let sensor := set_verticalReference verticalReference sensor in
      let sensor' :=
        if str_empty (topic sensor)
        then match DefaultTopic fuel _entity _ecm with
             | Returns t => Returns (set_topic t sensor)
             | NullDereference => NullDereference
             | OutOfFuel => OutOfFuel
             end
        else Returns sensor in
      match sensor' with
      | Returns sensor =>
          (Returns match entitySensorMap !! _entity with
                   | Some _ => entitySensorMap
                   | None => <[_entity := sensor]> entitySensorMap
                   end, true)
      | NullDereference => (NullDereference, false)
      | OutOfFuel => (OutOfFuel, false)
      end
  | _ => (s, false)
  end.

Definition CreateAltimeterEntities (_ecm : EntityComponentManager)
    (entitySensorMap : gmap Entity AltimeterSensor)
    : outcome (gmap Entity AltimeterSensor) :=
  Each _ecm components.Altimeter (CreateAltimeterEntities_visitor _ecm)
    (Returns entitySensorMap).

(** [Altimeter::PreUpdate]. *)
Definition Altimeter_PreUpdate (_ecm : EntityComponentManager)
    (this : AltimeterPrivate) : outcome AltimeterPrivate :=
  if negb (initialized this) then
    match CreateAltimeterEntities _ecm (entitySensorMap this) with
    | Returns m => Returns {| initialized := true; entitySensorMap := m |}
    | NullDereference => NullDereference
    | OutOfFuel => OutOfFuel
    end
  else Returns this.
End AltimeterCreate.

(** ** The log playback system (LogPlayback.cc) *)

Module msgs_pose.
(** [ignition::msgs::Pose], an entry of a [Pose_V]. *)
Record Pose := {
  id : Entity;
  position : math.Vector3d;
  orientation : math.Quaterniond
}.
End msgs_pose.

Module transport_log.
(** A recorded message: when it was received (nanoseconds of simulated
    time), the name of its type and its serialised payload. *)
Record Message := { TimeReceived : Z; MsgType : string; Data : string }.
End transport_log.

(** [batch] holds the messages of the log in recorded order and [iter] is the
    position of the forward iterator in it; [iter == batch.end()] when there
    is no message at that position. *)
Record LogPlaybackPrivate := {
  batch : list transport_log.Message;
  iter : nat;
  printedEnd : bool
}.

(** The state of a freshly constructed system: an empty batch, an iterator
    that compares equal to its end, and [printedEnd{false}]. *)
Definition LogPlaybackPrivate_new : LogPlaybackPrivate :=
  {| batch := []; iter := 0; printedEnd := false |}.

Definition at_end (this : LogPlaybackPrivate) : bool :=
  match batch this !! iter this with Some _ => false | None => true end.

(** *** Strings and scene elements *)

(** [std::string::find]: the first position at which [pat] occurs in [s];
    [None] is [npos]. *)
Fixpoint find (s pat : string) : option nat :=
  if String.prefix pat s then Some 0
  else match s with
       | EmptyString => None
       | String _ s' => S <$> find s' pat
       end.

Definition npos : option nat := None.

Definition GetAttribute (key : string) (e : sdf.Element) : option string :=
  snd <$> List.find (λ kv, String.eqb (fst kv) key) (sdf.attributes e).

(** The children of an element are addressed by their position in the list
    the parent was loaded with, which plays the role of the [ElementPtr].
    [findElement name l i] is the position of the first element called
    [name] in [l], whose head stands at position [i]. *)
Fixpoint findElement (name : string) (l : list sdf.Element) (i : nat)
    : option nat :=
  match l with
  | [] => None
  | x :: l' =>
      if String.eqb (sdf.GetName x) name then Some i
      else findElement name l' (S i)
  end.

Definition GetElement (name : string) (els : list sdf.Element) : option nat :=
  findElement name els 0.

Definition HasElement (name : string) (els : list sdf.Element) : bool :=
  match GetElement name els with Some _ => true | None => false end.

(** [pluginElt->GetNextElement(name)]: the next sibling called [name]. *)
Definition GetNextElement (name : string) (els : list sdf.Element) (i : nat)
    : option nat :=
  findElement name (drop (S i) els) (S i).

(** The test that flags a plugin for removal: [HasAttribute("name")], and
    one of the two [find]s on the attribute's string is not [npos]. *)
Definition flagged (pluginElt : sdf.Element) : bool :=
  match GetAttribute "name" pluginElt with
  | Some name =>
      negb (bool_decide (find name "LogRecord" = npos))
      || negb (bool_decide (find name "Physics" = npos))
  | None => false
  end.

(** The [while (pluginElt != nullptr)] loop of [Configure].  Each turn moves
    to a later sibling, so the number of children is fuel enough (see
    [plugins_loop_marks]). *)
Fixpoint plugins_loop (fuel : nat) (els : list sdf.Element)
    (pluginElt : option nat) (pluginsRm : list nat) : list nat :=
  match pluginElt, fuel with
  | None, _ => pluginsRm
  | Some _, O => pluginsRm
  | Some i, S fuel' =>
      let pluginsRm' :=
        match els !! i with
        | Some e => if flagged e then pluginsRm ++ [i] else pluginsRm
        | None => pluginsRm
        end in
      plugins_loop fuel' els (GetNextElement "plugin" els i) pluginsRm'
  end.

Definition plugins_to_remove (els : list sdf.Element) : list nat :=
  if HasElement "plugin" els
  then plugins_loop (length els) els (GetElement "plugin" els) []
  else [].

(** [it->RemoveFromParent()]: the first occurrence of the pointer is erased
    from the parent's children. *)
Fixpoint RemoveFromParent (it : nat) (children : list nat) : list nat :=
  match children with
  | [] => []
  | j :: children' =>
      if Nat.eqb it j then children' else j :: RemoveFromParent it children'
  end.

(** The children of the world element once the marked plugins are removed. *)
Definition remove_plugins (els : list sdf.Element) (pluginsRm : list nat)
    : list sdf.Element :=
  omap (λ i, els !! i)
       (foldl (λ children it, RemoveFromParent it children)
              (seq 0 (length els)) pluginsRm).

Definition removed_names (els : list sdf.Element) (pluginsRm : list nat)
    : list Effect :=
  omap (λ it, (igndbg ∘ RemovedPlugin) <$> (els !! it ≫= GetAttribute "name"))
       pluginsRm.

Module sdf_dom.
(** [sdf::World]: the children of its element, in document order, and the
    models and lights the loader found.  [Model] and [Light] are the
    loader's objects. *)
Record World {Model Light : Type} := {
  Element : list sdf.Element;
  Models : list Model;
  Lights : list Light
}.
Arguments World : clear implicits.

(** [sdf::Root] after [Load]: the number of errors [Load] returned and the
    worlds. *)
Record Root {Model Light : Type} := {
  LoadErrors : nat;
  Worlds : list (World Model Light)
}.
Arguments Root : clear implicits.
End sdf_dom.

(** The collaborators of LogPlayback.cc that live outside it, taken as
    given. *)
Class Collaborators := {
  (** ign-msgs: the decoders of the two payloads and [msgs::Convert]. *)
  SerializedState : Type;
  Pose_V_ParseFromString : string → list msgs_pose.Pose;
  Convert : msgs_pose.Pose → math.Pose3d;
  SerializedState_ParseFromString : string → SerializedState;
  (** [EntityComponentManager::SetState]. *)
  SetState :
    SerializedState → EntityComponentManager → EntityComponentManager;
  (** ign-common: the file system. *)
  isDirectory : string → bool;
  exists_ : string → bool;
  joinPaths : string → string → string;
  (** sdformat's loader and [SdfEntityCreator]. *)
  Model : Type;
  Light : Type;
  Root_Load : string → sdf_dom.Root Model Light;
  CreateEntities_model :
    Model → EntityComponentManager → Entity * EntityComponentManager;
  CreateEntities_light :
    Light → EntityComponentManager → Entity * EntityComponentManager;
  SetParent :
    Entity → Entity → EntityComponentManager → EntityComponentManager;
  (** ign-transport: the messages of the log file at a path, [None] when
      [Log::Open] fails.  [QueryMessages] on a log that is not open gives an
      empty batch. *)
  Log_Open : string → option (list transport_log.Message)
}.

Section LogPlayback.
Context `{Collaborators}.

(** [idToPose.insert_or_assign(pose.id(), pose)] over the poses of the
    message, in order. *)
Definition idToPose_of (posevMsg : list msgs_pose.Pose)
    : gmap Entity msgs_pose.Pose :=
  foldl (λ idToPose pose, <[msgs_pose.id pose := pose]> idToPose)
        ∅ posevMsg.

(** The visitor of [LogPlaybackPrivate::ParsePoseV]; the assignment through
    [_poseComp] overwrites the [Pose] component of [_entity]. *)
Definition ParsePoseV_visitor (idToPose : gmap Entity msgs_pose.Pose)
    (_entity : Entity) (_poseComp : math.Pose3d)
    (_ecm : EntityComponentManager) : EntityComponentManager * bool :=
  match idToPose !! _entity with
  | None => (_ecm, true)
  | Some pose =>
      (alter (components.set_Pose (Convert pose)) _entity _ecm, true)
  end.

(** [LogPlaybackPrivate::ParsePoseV], on the message under the iterator. *)
Definition ParsePoseV (msg : transport_log.Message)
    (_ecm : EntityComponentManager) : EntityComponentManager :=
  let posevMsg := Pose_V_ParseFromString (transport_log.Data msg) in
  let idToPose := idToPose_of posevMsg in
  Each _ecm components.Pose (ParsePoseV_visitor idToPose) _ecm.

(** [LogPlaybackPrivate::ParseSerializedState]. *)
Definition ParseSerializedState (msg : transport_log.Message)
    (_ecm : EntityComponentManager) : EntityComponentManager :=
  SetState (SerializedState_ParseFromString (transport_log.Data msg)) _ecm.

Definition set_iter (i : nat) (this : LogPlaybackPrivate) :=
  {| batch := batch this; iter := i; printedEnd := printedEnd this |}.

Definition set_printedEnd (b : bool) (this : LogPlaybackPrivate) :=
  {| batch := batch this; iter := iter this; printedEnd := b |}.

(** [LogPlayback::Update]. *)
Definition Update (_info : UpdateInfo) (_ecm : EntityComponentManager)
    (this : LogPlaybackPrivate)
    : EntityComponentManager * LogPlaybackPrivate * list Effect :=
  if paused _info then (_ecm, this, [])
  else
    match batch this !! iter this with
    | None =>
        if negb (printedEnd this)
        then (_ecm, set_printedEnd true this, [ignmsg FinishedPlaying])
        else (_ecm, this, [])
    | Some msg =>
        let msgStamp := transport_log.TimeReceived msg in
        if (simTime _info <? msgStamp)%Z then (_ecm, this, [])
        else
          let msgType := transport_log.MsgType msg in
          let '(_ecm', out) :=
            if String.eqb msgType "ignition.msgs.Pose_V"
            then (ParsePoseV msg _ecm, [])
            else if String.eqb msgType "ignition.msgs.SerializedState"
            then (ParseSerializedState msg _ecm, [])
            else (_ecm, [ignwarn (UnsupportedMessageType msgType)]) in
          (_ecm', set_iter (S (iter this)) this, out)
    end.

(** A run of [Update] calls, one per tick. *)
Fixpoint Updates (infos : list UpdateInfo) (_ecm : EntityComponentManager)
    (this : LogPlaybackPrivate)
    : EntityComponentManager * LogPlaybackPrivate * list Effect :=
  match infos with
  | [] => (_ecm, this, [])
  | _info :: infos' =>
      let '(_ecm1, this1, out1) := Update _info _ecm this in
      let '(_ecm2, this2, out2) := Updates infos' _ecm1 this1 in
      (_ecm2, this2, out1 ++ out2)
  end.

(** The two loops of [Configure] that create the models and the lights and
    parent each to the world. *)
Definition create_models (_worldEntity : Entity) (models : list Model)
    (_ecm : EntityComponentManager) : EntityComponentManager :=
  foldl (λ ecm model,
           let '(modelEntity, ecm') := CreateEntities_model model ecm in
           SetParent modelEntity _worldEntity ecm')
        _ecm models.

Definition create_lights (_worldEntity : Entity) (lights : list Light)
    (_ecm : EntityComponentManager) : EntityComponentManager :=
  foldl (λ ecm light,
           let '(lightEntity, ecm') := CreateEntities_light light ecm in
           SetParent lightEntity _worldEntity ecm')
        _ecm lights.

(** [LogPlayback::Configure]; [logPath] is [_sdf->Get<std::string>("path")],
    empty when the element has no path. *)
Definition Configure (_worldEntity : Entity) (logPath : string)
    (_ecm : EntityComponentManager) (this : LogPlaybackPrivate)
    : EntityComponentManager * LogPlaybackPrivate * list Effect :=
  if str_empty logPath then (_ecm, this, [ignerr UnspecifiedLogPath])
  else if negb (isDirectory logPath)
  then (_ecm, this, [ignerr (MustBeADirectory logPath)])
  else
    let dbPath := joinPaths logPath "state.tlog" in
    let sdfPath := joinPaths logPath "state.sdf" in
    if negb (exists_ dbPath) || negb (exists_ sdfPath)
    then (_ecm, this, [ignerr (LogPathInvalid dbPath sdfPath)])
    else
      let out := [ignmsg (LoadingLogFiles dbPath sdfPath)] in
      let root := Root_Load sdfPath in
      match sdf_dom.LoadErrors root, sdf_dom.Worlds root with
      | O, sdfWorld :: _ =>
          let els := sdf_dom.Element sdfWorld in
          let pluginsRm := plugins_to_remove els in
          let els' := remove_plugins els pluginsRm in
          let out := out ++ removed_names els pluginsRm in
          let _ecm := create_models _worldEntity (sdf_dom.Models sdfWorld)
                        _ecm in
          let _ecm := create_lights _worldEntity (sdf_dom.Lights sdfWorld)
                        _ecm in
          let out := out ++ [LoadPlugins _worldEntity els'] in
          let '(messages, out) :=
            match Log_Open dbPath with
            | Some messages => (messages, out)
            | None => ([], out ++ [ignerr (FailedToOpenLog dbPath)])
            end in
          let this := {| batch := messages; iter := 0;
                         printedEnd := printedEnd this |} in
          let out :=
            if at_end this
            then out ++ [ignerr (NoMessagesFound dbPath)]
            else out in
          (_ecm, this, out)
      | _, _ => (_ecm, this, out ++ [ignerr (ErrorLoadingSdf sdfPath)])
      end.
End LogPlayback.

(** ** The geometry component (Geometry.hh) *)

(** What the two stream operators call: the conversions between
    [sdf::Geometry] and [msgs::Geometry] (Conversions.hh) and the protobuf
    codec.  A stream is the string of its bytes; [ParseFromIstream] reads the
    stream to its end. *)
Class GeometryCollaborators := {
  sdf_Geometry : Type;
  msgs_Geometry : Type;
  convert_to_msgs : sdf_Geometry → msgs_Geometry;
  convert_to_sdf : msgs_Geometry → sdf_Geometry;
  SerializeToOstream : msgs_Geometry → string;
  ParseFromIstream : string → msgs_Geometry
}.

Section Geometry.
Context `{GeometryCollaborators}.

(** [operator<<(std::ostream &_out, const Geometry &_geom)]. *)
Definition Geometry_write (_out : string) (_geom : sdf_Geometry) : string :=
  let msg := convert_to_msgs _geom in
  _out +:+ SerializeToOstream msg.

(** [operator>>(std::istream &_in, Geometry &_geom)]: the new [_geom]. *)
Definition Geometry_read (_in : string) : sdf_Geometry :=
  let msg := ParseFromIstream _in in
  convert_to_sdf msg.
End Geometry.

(** * Vocabulary of the statements and the scenarios they are tried on *)

(** What the visitor of [UpdateAltimeters] leaves in the sensor record of an
    entity it visits. *)
Definition updated (wp : math.Pose3d) (v : math.Vector3d)
    (it : AltimeterSensor) : AltimeterSensor :=
  set_reading (dsub (math.Z (math.Pos wp)) (verticalReference it))
              (math.Z v) it.

(** The doubles 0.1, 1.0 and 5.0. *)
Definition d_0_1 : double := S754_finite false 7205759403792794 (-56).
Definition d_1 : double := S754_finite false 4503599627370496 (-52).
Definition d_5 : double := S754_finite false 5629499534213120 (-50).

Definition still : math.Vector3d :=
  {| math.X := dzero; math.Y := dzero; math.Z := dzero |}.
Definition upright : math.Quaterniond :=
  {| math.QW := d_1; math.QX := dzero; math.QY := dzero; math.QZ := dzero |}.
Definition at_height (z : double) : math.Pose3d :=
  {| math.Pos := {| math.X := dzero; math.Y := dzero; math.Z := z |};
     math.Rot := upright |}.

Definition tick (t : Z) : UpdateInfo := {| simTime := t; paused := false |}.
Definition paused_tick (t : Z) : UpdateInfo :=
  {| simTime := t; paused := true |}.

(** An entity that only has a name and a parent. *)
Definition named (name : string) (parent : Entity) : components.t :=
  {| components.Name := Some name; components.ParentEntity := Some parent;
     components.World := None; components.Pose := None;
     components.WorldPose := None; components.WorldLinearVelocity := None;
     components.Altimeter := None |}.

(** The world root. *)
Definition world_root : components.t :=
  {| components.Name := Some "default"; components.ParentEntity := None;
     components.World := Some tt; components.Pose := None;
     components.WorldPose := None; components.WorldLinearVelocity := None;
     components.Altimeter := None |}.

(** An altimeter sensor without a topic of its own, at rest at height [z]. *)
Definition altimeter_at (name : string) (parent : Entity) (z : double)
    : components.t :=
  {| components.Name := Some name; components.ParentEntity := Some parent;
     components.World := None; components.Pose := None;
     components.WorldPose := Some (at_height z);
     components.WorldLinearVelocity := Some still;
     components.Altimeter := Some {| sdf.topicElement := None |} |}.

(** Altimeter [alt0] (entity 4) on link [base] of model [rover], at height
    [z]. *)
Definition rover_world (z : double) : EntityComponentManager :=
  {[ 1%N := world_root; 2%N := named "rover" 1%N; 3%N := named "base" 2%N;
     4%N := altimeter_at "alt0" 3%N z ]}.

Definition rover_topic : string :=
  "/model/rover/link/base/sensor/alt0/altimeter".

(** The altimeter system once [alt0] was created at height [ref]. *)
Definition rover_sensors (ref : double) : AltimeterPrivate :=
  {| initialized := true;
     entitySensorMap :=
       {[ 4%N := set_topic rover_topic
                   (set_verticalReference ref AltimeterSensor_new) ]} |}.

(** -0.9, the double [0.1 - 1.0], and 0.09999999999999998, the double
    [-0.9 + 1.0]. *)
Definition d_m0_9 : double := S754_finite true 8106479329266893 (-53).
Definition d_0_09999999999999998 : double :=
  S754_finite false 7205759403792792 (-56).

(** [a == b] on doubles. *)
Definition deq (a b : double) : bool := SFeqb a b.

(** 1000.0; -999.9, the double [0.1 - 1000.0]; and 0.10000000000002274, the
    double [-999.9 + 1000.0]. *)
Definition d_1000 : double := S754_finite false 8796093022208000 (-43).
Definition d_m999_9 : double := S754_finite true 8795213412905779 (-43).
Definition d_0_10000000000002274 : double :=
  S754_finite false 7205759403794432 (-56).

(** The published vertical position plus the published reference, as a
    receiver computes it in doubles. *)
Definition published_sum (msg : msgs.Altimeter) : double :=
  dadd (msgs.vertical_position msg) (msgs.vertical_reference msg).

(** *** Doubles as numbers *)

(** The least exponent of a double, -1074. *)
Definition dmin : Z := emin prec emax.

(** The number a finite double stands for, counted in units of 2^-1074 (so
    it is an integer); 1.0 is [2 ^ 1074] units and 2^-52, the machine
    epsilon, is [2 ^ 1022] units. *)
Definition units (x : double) : Z :=
  match x with
  | S754_finite s m e => cond_Zopp s (Zpos m * 2 ^ (e - dmin))%Z
  | _ => 0%Z
  end.

(** A zero, or a number with an exponent a double can have. *)
Definition finite (x : double) : Prop :=
  match x with
  | S754_zero _ => True
  | S754_finite _ _ e => (dmin ≤ e)%Z
  | _ => False
  end.

Definition overflows (x : double) : Prop :=
  match x with S754_infinity _ => True | _ => False end.

(** [mrs] is what [k] shifts to the right leave of the mantissa [m0]: the
    quotient, the bit shifted out last, and whether a bit below it was
    set. *)
Definition shifted (m0 k : Z) (mrs : shr_record) : Prop :=
  ∃ rem L : Z,
    (0 ≤ shr_m mrs)%Z
    ∧ (m0 = shr_m mrs * 2 ^ k + rem)%Z
    ∧ (2 * rem = (if shr_r mrs then 2 ^ k else 0) + L)%Z
    ∧ (0 ≤ L < 2 ^ k)%Z
    ∧ (shr_s mrs = true ↔ L ≠ 0%Z).

(** [r] is the number of [V] units rounded to a double: an infinity, or a
    finite double that is off by at most [|V| / 2^53]. *)
Definition rounds (V : Z) (r : double) : Prop :=
  match r with
  | S754_infinity _ => True
  | S754_nan => False
  | _ => finite r ∧ (2 ^ 53 * Z.abs (units r - V) ≤ Z.abs V)%Z
  end.

(** *** Transports *)

(** A transport that accepts every topic, and one that rejects the topics
    with a space in them. *)
Definition accepting : Transport := {| Node_Advertise := λ _, true |}.
Definition no_spaces : Transport :=
  {| Node_Advertise := λ t, bool_decide (find t " " = npos) |}.

(** The altimeter system with the one sensor of entity 4, configured with
    the topic [t] and created at height [ref]. *)
Definition sensor_on (t : string) (ref : double) : AltimeterPrivate :=
  {| initialized := true;
     entitySensorMap :=
       {[ 4%N := set_topic t
                   (set_verticalReference ref AltimeterSensor_new) ]} |}.

(** *** The parent chain above a link *)

(** How the walk of [DefaultTopic] ends: at an entity that carries the
    [World] marker, or at an entity that has no [ParentEntity]. *)
Inductive chain_end := AtWorld (w : Entity) | NoParent.

(** [ModelChain ecm p names top]: starting from the [ParentEntity] pointer
    [p], the ancestors that are not the world are named [names], innermost
    first, and the chain ends as [top] says. *)
Inductive ModelChain (ecm : EntityComponentManager)
    : option Entity → list string → chain_end → Prop :=
| chain_no_parent : ModelChain ecm None [] NoParent
| chain_world w :
    is_Some (Component components.World w ecm) →
    ModelChain ecm (Some w) [] (AtWorld w)
| chain_model e name names top :
    Component components.World e ecm = None →
    Component components.Name e ecm = Some name →
    ModelChain ecm (Component components.ParentEntity e ecm) names top →
    ModelChain ecm (Some e) (name :: names) top.

(** [BrokenChain ecm p n]: the walk from the [ParentEntity] pointer [p]
    passes [n] named models and then stands on an entity that is not the
    world and has no [Name]. *)
Inductive BrokenChain (ecm : EntityComponentManager)
    : option Entity → nat → Prop :=
| broken_here e :
    Component components.World e ecm = None →
    Component components.Name e ecm = None →
    BrokenChain ecm (Some e) 0
| broken_above e name n :
    Component components.World e ecm = None →
    Component components.Name e ecm = Some name →
    BrokenChain ecm (Component components.ParentEntity e ecm) n →
    BrokenChain ecm (Some e) (S n).

(** ["/model/" + name] for each of the ancestors, outermost first. *)
Fixpoint models_prefix (names : list string) : string :=
  match names with
  | [] => ""
  | name :: names' => models_prefix names' +:+ "/model/" +:+ name
  end.

Definition default_topic (names : list string) (linkName sensorName : string)
    : string :=
  models_prefix names +:+ "/link/" +:+ linkName +:+ "/sensor/" +:+ sensorName
    +:+ "/altimeter".

(** Scenario S2: altimeter [alt0] (entity 5) under link [arm] under model
    [tool] under model [robot] under the world. *)
Definition robot_world : EntityComponentManager :=
  {[ 1%N := world_root; 2%N := named "robot" 1%N; 3%N := named "tool" 2%N;
     4%N := named "arm" 3%N; 5%N := altimeter_at "alt0" 4%N d_5 ]}.

(** A model that was never parented to a world: [rover] (entity 2) has a name
    and no [ParentEntity]. *)
Definition orphan_model : components.t :=
  {| components.Name := Some "rover"; components.ParentEntity := None;
     components.World := None; components.Pose := None;
     components.WorldPose := None; components.WorldLinearVelocity := None;
     components.Altimeter := None |}.

Definition orphan_world : EntityComponentManager :=
  {[ 2%N := orphan_model; 3%N := named "base" 2%N;
     4%N := altimeter_at "alt0" 3%N d_5 ]}.

(** The rover's link without its [Name]. *)
Definition unnamed_link (parent : Entity) : components.t :=
  {| components.Name := None; components.ParentEntity := Some parent;
     components.World := None; components.Pose := None;
     components.WorldPose := None; components.WorldLinearVelocity := None;
     components.Altimeter := None |}.

Definition unnamed_link_world : EntityComponentManager :=
  <[3%N := unnamed_link 2%N]> (rover_world d_5).

(** The fresh altimeter system. *)
Definition AltimeterPrivate_new : AltimeterPrivate :=
  {| initialized := false; entitySensorMap := ∅ |}.

(** The sensor record [CreateAltimeterEntities] builds for an altimeter that
    gets the topic [t]. *)
Definition created_sensor (t : string) (ref : double) : AltimeterSensor :=
  {| topic := t; verticalPosition := dzero; verticalVelocity := dzero;
     verticalReference := ref; pub := false |}.

(** *** Plugin declarations *)

(** [s] contains the substring [pat]. *)
Definition contains (s pat : string) : Prop :=
  ∃ pre post, s = pre +:+ pat +:+ post.

(** A plugin declaration that playback does not want: a [<plugin>] whose
    [name] attribute contains [LogRecord] or [Physics]. *)
Definition disallowed (x : sdf.Element) : Prop :=
  sdf.GetName x = "plugin"
  ∧ ∃ name, GetAttribute "name" x = Some name
            ∧ (contains name "LogRecord" ∨ contains name "Physics").

Definition is_plugin (x : sdf.Element) : bool :=
  String.eqb (sdf.GetName x) "plugin".

(** The same as a test. *)
Definition removed (x : sdf.Element) : bool := is_plugin x && flagged x.

(** The positions of the unwanted plugins in [l], whose head stands at
    position [i]. *)
Fixpoint marks_from (l : list sdf.Element) (i : nat) : list nat :=
  match l with
  | [] => []
  | x :: l' =>
      if removed x then i :: marks_from l' (S i) else marks_from l' (S i)
  end.

Definition plugin (name : string) : sdf.Element :=
  {| sdf.GetName := "plugin";
     sdf.attributes := [("name", name); ("filename", "libplugin.so")] |}.

(** Scenario S4: the children of the recorded world. *)
Definition recorded_world_elements : list sdf.Element :=
  [ {| sdf.GetName := "gravity"; sdf.attributes := [] |};
    plugin "MyLogRecord";
    {| sdf.GetName := "model"; sdf.attributes := [("name", "rover")] |};
    plugin "BulletPhysics";
    plugin "KeyboardInput" ].

(** *** Configurations of the playback system *)

Definition is_LoadPlugins (x : Effect) : bool :=
  match x with LoadPlugins _ _ => true | _ => false end.

(** The number of errors among the effects. *)
Definition errors (out : list Effect) : nat :=
  length (List.filter is_ignerr out).

(** What can be wrong with a playback configuration. *)
Inductive ConfigurationError :=
| MissingPath
| PathNotADirectory
| MissingFiles
| SceneLoadFailure
| LogOpenFailure
| EmptyLog.

Section Configurations.
Context `{Collaborators}.

(** The log directory is in order up to the scene description, whose first
    world is [sdfWorld]. *)
Definition scene_loads (logPath : string)
    (sdfWorld : sdf_dom.World Model Light) : Prop :=
  logPath ≠ ""
  ∧ isDirectory logPath = true
  ∧ exists_ (joinPaths logPath "state.tlog") = true
  ∧ exists_ (joinPaths logPath "state.sdf") = true
  ∧ sdf_dom.LoadErrors (Root_Load (joinPaths logPath "state.sdf")) = 0
  ∧ head (sdf_dom.Worlds (Root_Load (joinPaths logPath "state.sdf")))
    = Some sdfWorld.

(** [wrong logPath k]: the configuration with path [logPath] has the error
    [k]. *)
Inductive wrong (logPath : string) : ConfigurationError → Prop :=
| wrong_path : logPath = "" → wrong logPath MissingPath
| wrong_directory :
    logPath ≠ "" → isDirectory logPath = false →
    wrong logPath PathNotADirectory
| wrong_files :
    logPath ≠ "" → isDirectory logPath = true →
    exists_ (joinPaths logPath "state.tlog") = false
    ∨ exists_ (joinPaths logPath "state.sdf") = false →
    wrong logPath MissingFiles
| wrong_scene :
    logPath ≠ "" → isDirectory logPath = true →
    exists_ (joinPaths logPath "state.tlog") = true →
    exists_ (joinPaths logPath "state.sdf") = true →
    sdf_dom.LoadErrors (Root_Load (joinPaths logPath "state.sdf")) ≠ 0
    ∨ sdf_dom.Worlds (Root_Load (joinPaths logPath "state.sdf")) = [] →
    wrong logPath SceneLoadFailure
| wrong_open sdfWorld :
    scene_loads logPath sdfWorld →
    Log_Open (joinPaths logPath "state.tlog") = None →
    wrong logPath LogOpenFailure
| wrong_empty sdfWorld :
    scene_loads logPath sdfWorld →
    Log_Open (joinPaths logPath "state.tlog") = Some [] →
    wrong logPath EmptyLog.
End Configurations.

(** *** A recorded run *)

Definition pose_of (e : Entity) (z : double) : msgs_pose.Pose :=
  {| msgs_pose.id := e;
     msgs_pose.position :=
       {| math.X := dzero; math.Y := dzero; math.Z := z |};
     msgs_pose.orientation := upright |}.

(** An entity with a local pose. *)
Definition posed (name : string) (parent : Entity) (z : double)
    : components.t :=
  {| components.Name := Some name; components.ParentEntity := Some parent;
     components.World := None; components.Pose := Some (at_height z);
     components.WorldPose := None; components.WorldLinearVelocity := None;
     components.Altimeter := None |}.

(** A log directory [/log] whose scene is the recorded world of scenario S4
    and whose message log is [log] ([None]: it cannot be opened).  The
    payload ["rover up"] stands for a [Pose_V] with four poses: entity 2 at
    height 1, entity 7 (which does not exist) and entity 3 (which has no
    pose) at height 1, and entity 2 again, at height 5.  The payload of a
    [SerializedState] stands for a snapshot with the one entity [probe]. *)
Definition recorded (log : option (list transport_log.Message))
    : Collaborators :=
  {| SerializedState := EntityComponentManager;
     Pose_V_ParseFromString := λ data,
       if String.eqb data "rover up"
       then [pose_of 2%N d_1; pose_of 7%N d_1; pose_of 3%N d_1;
             pose_of 2%N d_5]
       else [];
     Convert := λ pose,
       {| math.Pos := msgs_pose.position pose;
          math.Rot := msgs_pose.orientation pose |};
     SerializedState_ParseFromString := λ _, {[ 9%N := posed "probe" 1%N d_1 ]};
     SetState := λ state ecm, state ∪ ecm;
     isDirectory := λ path, String.eqb path "/log";
     exists_ := λ path,
       String.eqb path "/log/state.tlog" || String.eqb path "/log/state.sdf";
     joinPaths := λ a b, a +:+ "/" +:+ b;
     Model := unit;
     Light := unit;
     Root_Load := λ _,
       {| sdf_dom.LoadErrors := 0;
          sdf_dom.Worlds :=
            [ {| sdf_dom.Element := recorded_world_elements;
                 sdf_dom.Models := []; sdf_dom.Lights := [] |} ] |};
     CreateEntities_model := λ _ ecm, (0%N, ecm);
     CreateEntities_light := λ _ ecm, (0%N, ecm);
     SetParent := λ _ _ ecm, ecm;
     Log_Open := λ _, log |}.

Definition recorded_scene : sdf_dom.World unit unit :=
  {| sdf_dom.Element := recorded_world_elements;
     sdf_dom.Models := []; sdf_dom.Lights := [] |}.

Definition second : Z := 1000000000.

(** Scenario S3: one [Pose_V] received at 1.000 s. *)
Definition one_pose_log : list transport_log.Message :=
  [ {| transport_log.TimeReceived := second;
       transport_log.MsgType := "ignition.msgs.Pose_V";
       transport_log.Data := "rover up" |} ].

(** A log with a message of a kind playback does not know, then a
    snapshot. *)
Definition mixed_log : list transport_log.Message :=
  [ {| transport_log.TimeReceived := second;
       transport_log.MsgType := "ignition.msgs.Clock";
       transport_log.Data := "" |};
    {| transport_log.TimeReceived := 2 * second;
       transport_log.MsgType := "ignition.msgs.SerializedState";
       transport_log.Data := "probe" |} ].

(** The world being played back: the rover (entity 2) with a pose, and its
    link (entity 3) without one. *)
Definition playback_world : EntityComponentManager :=
  {[ 1%N := world_root; 2%N := posed "rover" 1%N d_1;
     3%N := named "base" 2%N ]}.

Definition playing (log : list transport_log.Message) (i : nat)
    : LogPlaybackPrivate :=
  {| batch := log; iter := i; printedEnd := false |}.

(** *** Replaying poses *)

(** The pose a [Pose_V] records for an entity: the last one with its id. *)
Definition recorded_pose (poses : list msgs_pose.Pose) (e : Entity)
    : option msgs_pose.Pose :=
  last (filter (λ pose, msgs_pose.id pose = e) poses).

(** An entity after a [Pose_V] was applied: the [Pose] component, if it is
    there and the message has a pose for the entity, is the recorded one. *)
Definition replayed `{Collaborators} (poses : list msgs_pose.Pose)
    (e : Entity) (c : components.t) : components.t :=
  match components.Pose c, recorded_pose poses e with
  | Some _, Some pose => components.set_Pose (Convert pose) c
  | _, _ => c
  end.

Definition is_completion (x : Effect) : bool :=
  match x with ignmsg FinishedPlaying => true | _ => false end.

(** How often the completion message was written. *)
Definition completions (out : list Effect) : nat :=
  length (List.filter is_completion out).

Definition latch (this : LogPlaybackPrivate) : nat :=
  if printedEnd this then 1 else 0.

(** *** More vocabulary: the altimeter system over several ticks *)

Definition is_Publish (x : Effect) : bool :=
  match x with Publish _ _ => true | _ => false end.

(** What [UpdateAltimeters] does to the sensor of entity [e], given the
    components of [e]. *)
Definition sensor_update (_ecm : EntityComponentManager) (e : Entity)
    (s : AltimeterSensor) : AltimeterSensor :=
  match _ecm !! e ≫= altimeter_kinds with
  | Some (_, wp, v) => updated wp v s
  | None => s
  end.

(** Every sensor that has a topic has a valid publisher, unless the
    transport rejects the topic. *)
Definition advertised `{Transport} (m : gmap Entity AltimeterSensor) : Prop :=
  ∀ e s, m !! e = Some s → topic s ≠ "" →
         pub s = true ∨ Node_Advertise (topic s) = false.

(** A run of [PostUpdate] calls, each with the world as it is at its tick. *)
Fixpoint Altimeter_PostUpdates `{Transport}
    (ticks : list (UpdateInfo * EntityComponentManager))
    (this : AltimeterPrivate) : AltimeterPrivate * list Effect :=
  match ticks with
  | [] => (this, [])
  | (_info, _ecm) :: ticks' =>
      let '(this1, out1) := Altimeter_PostUpdate _info _ecm this in
      let '(this2, out2) := Altimeter_PostUpdates ticks' this1 in
      (this2, out1 ++ out2)
  end.

(** The calls the simulation runner makes on the altimeter system. *)
Inductive SystemCall :=
| PreUpdateCall (_ecm : EntityComponentManager)
| PostUpdateCall (_info : UpdateInfo) (_ecm : EntityComponentManager).

(** A run of such calls in any order, each with the world as it is then. *)
Fixpoint Altimeter_calls `{Transport}
    (WorldPose : Entity → EntityComponentManager → math.Pose3d)
    (fuel : nat) (calls : list SystemCall) (this : AltimeterPrivate)
    : outcome (AltimeterPrivate * list Effect) :=
  match calls with
  | [] => Returns (this, [])
  | PreUpdateCall _ecm :: calls' =>
      match Altimeter_PreUpdate WorldPose fuel _ecm this with
      | Returns this1 => Altimeter_calls WorldPose fuel calls' this1
      | NullDereference => NullDereference
      | OutOfFuel => OutOfFuel
      end
  | PostUpdateCall _info _ecm :: calls' =>
      let '(this1, out1) := Altimeter_PostUpdate _info _ecm this in
      match Altimeter_calls WorldPose fuel calls' this1 with
      | Returns (this2, out2) => Returns (this2, out1 ++ out2)
      | NullDereference => NullDereference
      | OutOfFuel => OutOfFuel
      end
  end.

(** The [PostUpdate] calls of a run. *)
Definition post_ticks (calls : list SystemCall)
    : list (UpdateInfo * EntityComponentManager) :=
  omap (λ call, match call with
                | PostUpdateCall _info _ecm => Some (_info, _ecm)
                | PreUpdateCall _ => None
                end) calls.

(** *** More vocabulary: creating the sensors *)

(** The topic [CreateAltimeterEntities] gives the sensor of an altimeter: the
    one of its configuration if there is one and it is not empty, the
    resolver's otherwise. *)
Definition topic_for (fuel : nat) (_ecm : EntityComponentManager)
    (e : Entity) (alt : sdf.AltimeterElement) : outcome string :=
  match sdf.topicElement alt with
  | Some t => if str_empty t then DefaultTopic fuel e _ecm else Returns t
  | None => DefaultTopic fuel e _ecm
  end.

(** The sensor of entity [e], if [e] is an altimeter whose topic is found. *)
Definition sensor_for
    (WorldPose : Entity → EntityComponentManager → math.Pose3d)
    (fuel : nat) (_ecm : EntityComponentManager) (e : Entity)
    : option AltimeterSensor :=
  alt ← Component components.Altimeter e _ecm;
  match topic_for fuel _ecm e alt with
  | Returns t =>
      Some (created_sensor t (math.Z (math.Pos (WorldPose e _ecm))))
  | _ => None
  end.

(** Every altimeter of the world gets a topic. *)
Definition topics_found (fuel : nat) (_ecm : EntityComponentManager) : Prop :=
  ∀ e alt, Component components.Altimeter e _ecm = Some alt →
           ∃ t, topic_for fuel _ecm e alt = Returns t.

(** *** More vocabulary: parent chains that do not end *)

(** [Unending ecm P]: from every entity in [P] the walk of [DefaultTopic]
    goes on to an entity in [P]: it is not the world, it has a name and its
    parent is in [P] again. *)
Definition Unending (_ecm : EntityComponentManager) (P : Entity → Prop)
    : Prop :=
  ∀ e, P e →
    Component components.World e _ecm = None
    ∧ is_Some (Component components.Name e _ecm)
    ∧ ∃ e', Component components.ParentEntity e _ecm = Some e' ∧ P e'.

(** Two models that are each the other's parent, with the rover's link and
    altimeter under the first. *)
Definition looping_world : EntityComponentManager :=
  {[ 2%N := named "rover" 6%N; 6%N := named "trailer" 2%N;
     3%N := named "base" 2%N; 4%N := altimeter_at "alt0" 3%N d_5 ]}.

(** The robot's world after a second altimeter (entity 9) was added to the
    arm. *)
Definition robot_world_later : EntityComponentManager :=
  <[9%N := altimeter_at "alt1" 4%N d_1]> robot_world.

(** *** More vocabulary: playing messages *)

Section Playing.
Context `{Collaborators}.

(** What [Update] does with a message whose time has come. *)
Definition played (msg : transport_log.Message)
    (_ecm : EntityComponentManager) : EntityComponentManager * list Effect :=
  if String.eqb (transport_log.MsgType msg) "ignition.msgs.Pose_V"
  then (ParsePoseV msg _ecm, [])
  else if String.eqb (transport_log.MsgType msg)
            "ignition.msgs.SerializedState"
  then (ParseSerializedState msg _ecm, [])
  else (_ecm, [ignwarn (UnsupportedMessageType (transport_log.MsgType msg))]).

(** The same for a sequence of messages, in order. *)
Fixpoint play_all (msgs : list transport_log.Message)
    (_ecm : EntityComponentManager) : EntityComponentManager * list Effect :=
  match msgs with
  | [] => (_ecm, [])
  | msg :: msgs' =>
      let '(_ecm1, out1) := played msg _ecm in
      let '(_ecm2, out2) := play_all msgs' _ecm1 in
      (_ecm2, out1 ++ out2)
  end.
End Playing.

(** Three messages in recorded order: a pose, an unknown message, a
    snapshot. *)
Definition long_log : list transport_log.Message :=
  [ {| transport_log.TimeReceived := second;
       transport_log.MsgType := "ignition.msgs.Pose_V";
       transport_log.Data := "rover up" |};
    {| transport_log.TimeReceived := 2 * second;
       transport_log.MsgType := "ignition.msgs.Clock";
       transport_log.Data := "" |};
    {| transport_log.TimeReceived := 3 * second;
       transport_log.MsgType := "ignition.msgs.SerializedState";
       transport_log.Data := "probe" |} ].

(** *** More vocabulary: good configurations *)

(** The playback configuration with path [logPath] is in order: the scene
    loads and the log opens and has a first message. *)
Definition playable `{Collaborators} (logPath : string) : Prop :=
  ∃ sdfWorld msg msgs,
    scene_loads logPath sdfWorld
    ∧ Log_Open (joinPaths logPath "state.tlog") = Some (msg :: msgs).

(** *** More vocabulary: building the recorded world *)

Section Building.
Context `{Collaborators}.

(** [built w things ecm ecm']: [ecm'] is what becomes of [ecm] when the
    entity creator creates each of the [things], in order, and each is made
    a child of [w] right after it was created. *)
Inductive built (w : Entity) :
    list (Model + Light) → EntityComponentManager → EntityComponentManager
    → Prop :=
| built_nil ecm : built w [] ecm ecm
| built_model model things ecm modelEntity ecm1 ecm2 :
    CreateEntities_model model ecm = (modelEntity, ecm1) →
    built w things (SetParent modelEntity w ecm1) ecm2 →
    built w (inl model :: things) ecm ecm2
| built_light light things ecm lightEntity ecm1 ecm2 :
    CreateEntities_light light ecm = (lightEntity, ecm1) →
    built w things (SetParent lightEntity w ecm1) ecm2 →
    built w (inr light :: things) ecm ecm2.
End Building.

Definition set_ParentEntity (p : Entity) (c : components.t) : components.t :=
  {| components.Name := components.Name c;
     components.ParentEntity := Some p;
     components.World := components.World c;
     components.Pose := components.Pose c;
     components.WorldPose := components.WorldPose c;
     components.WorldLinearVelocity := components.WorldLinearVelocity c;
     components.Altimeter := components.Altimeter c |}.

(** An entity that has a name only. *)
Definition loose (name : string) : components.t :=
  {| components.Name := Some name; components.ParentEntity := None;
     components.World := None; components.Pose := None;
     components.WorldPose := None; components.WorldLinearVelocity := None;
     components.Altimeter := None |}.

(** The recorded scene with the model [rover] and the light [sun] in it. *)
Definition staged_scene : sdf_dom.World string string :=
  {| sdf_dom.Element := recorded_world_elements;
     sdf_dom.Models := ["rover"]; sdf_dom.Lights := ["sun"] |}.

(** The log directory [/log] with that scene and a log that cannot be
    opened.  Models and lights are known by their names; the entity creator
    gives a new thing the number after the number of entities there are and
    its name, and [SetParent] sets its parent. *)
Definition staged : Collaborators :=
  {| SerializedState := EntityComponentManager;
     Pose_V_ParseFromString := λ _, [];
     Convert := λ pose,
       {| math.Pos := msgs_pose.position pose;
          math.Rot := msgs_pose.orientation pose |};
     SerializedState_ParseFromString := λ _, ∅;
     SetState := λ state ecm, state ∪ ecm;
     isDirectory := λ path, String.eqb path "/log";
     exists_ := λ path,
       String.eqb path "/log/state.tlog" || String.eqb path "/log/state.sdf";
     joinPaths := λ a b, a +:+ "/" +:+ b;
     Model := string;
     Light := string;
     Root_Load := λ _,
       {| sdf_dom.LoadErrors := 0; sdf_dom.Worlds := [staged_scene] |};
     CreateEntities_model := λ name ecm,
       (N.succ (N.of_nat (size ecm)),
        <[N.succ (N.of_nat (size ecm)) := loose name]> ecm);
     CreateEntities_light := λ name ecm,
       (N.succ (N.of_nat (size ecm)),
        <[N.succ (N.of_nat (size ecm)) := loose name]> ecm);
     SetParent := λ child parent ecm, alter (set_ParentEntity parent) child ecm;
     Log_Open := λ _, None |}.

(** The name a plugin is reported with when it is removed. *)
Definition removal_report (x : sdf.Element) : option Effect :=
  (igndbg ∘ RemovedPlugin) <$> GetAttribute "name" x.

(** * Properties *)

(** ** Rounding in double additions and subtractions *)

Section Double_rounding.
Local Open Scope Z_scope.

(** A mantissa of [d] bits lies between [2^(d-1)] and [2^d]. *)
Lemma digits2_pos_bounds (m : positive) :
  2 ^ (Zpos (digits2_pos m) - 1) ≤ Zpos m < 2 ^ Zpos (digits2_pos m).
Proof.
  induction m as [m IH|m IH|]; cbn [digits2_pos]; [| |cbn; lia].
  - rewrite Pos2Z.inj_succ.
    replace (Z.succ (Zpos (digits2_pos m)) - 1) with
      (Z.succ (Zpos (digits2_pos m) - 1)) by lia.
    rewrite !Z.pow_succ_r by lia. lia.
  - rewrite Pos2Z.inj_succ.
    replace (Z.succ (Zpos (digits2_pos m)) - 1) with
      (Z.succ (Zpos (digits2_pos m) - 1)) by lia.
    rewrite !Z.pow_succ_r by lia. lia.
Qed.

Lemma digits_unique (a b m : Z) :
  0 < a → 0 < b →
  2 ^ (a - 1) ≤ m < 2 ^ a → 2 ^ (b - 1) ≤ m < 2 ^ b → a = b.
Proof.
  intros Ha0 Hb0 Ha Hb.
  destruct (Z.lt_trichotomy a b) as [Hlt|[->|Hlt]]; [|done|].
  - assert (2 ^ a ≤ 2 ^ (b - 1)) by (apply Z.pow_le_mono_r; lia). lia.
  - assert (2 ^ b ≤ 2 ^ (a - 1)) by (apply Z.pow_le_mono_r; lia). lia.
Qed.

Lemma iter_pos_nat {A} (f : A → A) (p : positive) (x : A) :
  SpecFloat.iter_pos f p x = Nat.iter (Pos.to_nat p) f x.
Proof.
  revert x. induction p as [p IH|p IH|]; intros x; cbn [SpecFloat.iter_pos].
  - rewrite !IH, Pos2Nat.inj_xI.
    replace (S (2 * Pos.to_nat p)) with (S (Pos.to_nat p + Pos.to_nat p))
      by lia.
    by rewrite Nat.iter_succ_r, Nat.iter_add.
  - rewrite !IH, Pos2Nat.inj_xO.
    replace (2 * Pos.to_nat p)%nat with (Pos.to_nat p + Pos.to_nat p)%nat
      by lia.
    by rewrite Nat.iter_add.
  - done.
Qed.

(** [shr_1] halves the mantissa, keeps the bit that falls out as the new
    round bit and remembers the old round bit in the sticky bit. *)
Lemma shr_1_spec (m : Z) (r s : bool) :
  0 ≤ m →
  ∃ (m' : Z) (b : bool),
    m = 2 * m' + (if b then 1 else 0) ∧ 0 ≤ m'
    ∧ shr_1 {| shr_m := m; shr_r := r; shr_s := s |}
      = {| shr_m := m'; shr_r := b; shr_s := r || s |}.
Proof.
  intros Hm. destruct m as [|[p|p|]|p]; [| | | |lia].
  - by exists 0, false.
  - exists (Zpos p), true. split; [lia|]. split; [lia|done].
  - exists (Zpos p), false. split; [lia|]. split; [lia|done].
  - by exists 0, true.
Qed.

Lemma shifted_start (m0 : Z) :
  0 ≤ m0 →
  shifted m0 0 {| shr_m := m0; shr_r := false; shr_s := false |}.
Proof.
  intros Hm. exists 0, 0. cbn. repeat split; try lia; try done.
Qed.

Lemma shifted_step (m0 k : Z) (mrs : shr_record) :
  0 ≤ k → shifted m0 k mrs → shifted m0 (k + 1) (shr_1 mrs).
Proof.
  intros Hk (rem & L & Hm & Hm0 & Hrem & HL & Hs).
  destruct mrs as [m r s]. cbn in Hm, Hm0, Hrem, Hs.
  destruct (shr_1_spec m r s Hm) as (m' & b & Hmb & Hm' & ->).
  assert (2 ^ (k + 1) = 2 * 2 ^ k) as Hpow
    by (rewrite Z.pow_add_r by lia; lia).
  assert (0 < 2 ^ k) as Hpos by (apply Z.pow_pos_nonneg; lia).
  exists ((if b then 2 ^ k else 0) + rem), (2 * rem).
  cbn. rewrite Hpow. split; [done|]. split; [destruct b; nia|].
  split; [destruct b; lia|]. split; [destruct r; lia|].
  destruct r, s; cbn; split; intros H; try done; lia.
Qed.

(** [n] calls of [shr_1] are [n] shifts. *)
Lemma shifted_iter (m0 : Z) (n : nat) :
  0 ≤ m0 →
  shifted m0 (Z.of_nat n)
    (Nat.iter n shr_1 {| shr_m := m0; shr_r := false; shr_s := false |}).
Proof.
  intros Hm. induction n as [|n IH]; [by apply shifted_start|].
  rewrite Nat2Z.inj_succ, <- Z.add_1_r. cbn [Nat.iter].
  apply shifted_step; [lia|done].
Qed.

(** Rounding to nearest even what the shifts have left misses the mantissa
    by at most half a unit of the last place that is kept. *)
Lemma shifted_round (m0 k : Z) (mrs : shr_record) :
  0 ≤ k → shifted m0 k mrs →
  let m2 := round_nearest_even (shr_m mrs) (loc_of_shr_record mrs) in
  shr_m mrs ≤ m2 ≤ shr_m mrs + 1
  ∧ 2 * Z.abs (m2 * 2 ^ k - m0) ≤ 2 ^ k
  ∧ shr_m mrs * 2 ^ k ≤ m0 < (shr_m mrs + 1) * 2 ^ k.
Proof.
  intros Hk (rem & L & Hm & Hm0 & Hrem & HL & Hs).
  destruct mrs as [m r s]. cbn in Hm, Hm0, Hrem, Hs.
  assert (0 < 2 ^ k) as Hpos by (apply Z.pow_pos_nonneg; lia).
  assert (s = false → L = 0) as Hs0.
  { intros ->. destruct (decide (L = 0)) as [|HL0]; [done|].
    destruct Hs as [_ Hs]. by specialize (Hs HL0). }
  destruct r, s; cbn; try destruct (Z.even m); nia.
Qed.

Lemma fexp_double (e : Z) : fexp prec emax e = Z.max (e - 53) dmin.
Proof. done. Qed.

(** [shr_fexp] on a mantissa of at most 53 bits does nothing; on a longer
    one it shifts the extra bits out. *)
Lemma shr_fexp_spec (m : positive) (e : Z) :
  dmin ≤ e →
  let d := Zpos (digits2_pos m) in
  (d ≤ 53
   ∧ shr_fexp prec emax (Zpos m) e loc_Exact
     = ({| shr_m := Zpos m; shr_r := false; shr_s := false |}, e))
  ∨ (53 < d
     ∧ ∃ mrs, shr_fexp prec emax (Zpos m) e loc_Exact = (mrs, e + (d - 53))
              ∧ shifted (Zpos m) (d - 53) mrs).
Proof.
  intros He d. unfold shr_fexp, shr. rewrite fexp_double.
  cbn [Zdigits2 shr_record_of_loc]. fold d.
  destruct (Z.max (d + e - 53) dmin - e) as [|p|p] eqn:Hn.
  - left. split; [lia|done].
  - right. assert (Zpos p = d - 53) as Hp by lia. split; [lia|].
    eexists. split; [by rewrite Hp|].
    rewrite iter_pos_nat, <- Hp, <- (positive_nat_Z p).
    apply shifted_iter. lia.
  - left. split; [lia|done].
Qed.

(** A mantissa at an exponent a double can have is rounded to an infinity
    of the same sign, or to a double that misses it by at most its
    [2^53]th part. *)
Lemma binary_round_aux_error (sx : bool) (mz : positive) (ez : Z) :
  dmin ≤ ez →
  match binary_round_aux prec emax sx (Zpos mz) ez loc_Exact with
  | S754_infinity s => s = sx
  | S754_finite s m e =>
      s = sx ∧ dmin ≤ e
      ∧ 2 ^ 53 * Z.abs (Zpos m * 2 ^ (e - dmin) - Zpos mz * 2 ^ (ez - dmin))
        ≤ Zpos mz * 2 ^ (ez - dmin)
  | _ => False
  end.
Proof.
  intros He. unfold binary_round_aux.
  pose proof (digits2_pos_bounds mz) as Hd.
  assert (0 < 2 ^ (ez - dmin)) as Hpos by (apply Z.pow_pos_nonneg; lia).
  destruct (shr_fexp_spec mz ez He) as [[Hle ->]|(Hlt & mrs & -> & Hsh)].
  - cbn [round_nearest_even loc_of_shr_record shr_m shr_r shr_s].
    destruct (shr_fexp_spec mz ez He) as [[_ ->]|(Hlt & _)]; [|lia].
    cbn [shr_m]. destruct (ez <=? emax - prec); [|done].
    split; [done|]. split; [done|].
    rewrite Z.sub_diag. cbn [Z.abs]. lia.
  - set (n := Zpos (digits2_pos mz) - 53) in *.
    assert (0 < n) as Hn by (unfold n; lia).
    destruct (shifted_round _ _ _ (Z.lt_le_incl _ _ Hn) Hsh)
      as (Hm2 & Herr & Hfloor).
    set (m1 := shr_m mrs) in *.
    set (m2 := round_nearest_even m1 (loc_of_shr_record mrs)) in *.
    assert (0 < 2 ^ n) as Hpn by (apply Z.pow_pos_nonneg; lia).
    assert (2 ^ (Zpos (digits2_pos mz) - 1) = 2 ^ 52 * 2 ^ n) as Hlo.
    { rewrite <- Z.pow_add_r by lia. f_equal. unfold n. lia. }
    assert (2 ^ Zpos (digits2_pos mz) = 2 ^ 53 * 2 ^ n) as Hhi.
    { rewrite <- Z.pow_add_r by lia. f_equal. unfold n. lia. }
    rewrite Hlo, Hhi in Hd.
    assert (2 ^ 52 ≤ m1 < 2 ^ 53) as Hm1 by nia.
    assert (2 ^ (ez + n - dmin) = 2 ^ n * 2 ^ (ez - dmin)) as Hsplit.
    { rewrite <- Z.pow_add_r by lia. f_equal. lia. }
    assert (2 ^ 53 * Z.abs (m2 * 2 ^ (ez + n - dmin)
                            - Zpos mz * 2 ^ (ez - dmin))
            ≤ Zpos mz * 2 ^ (ez - dmin)) as Hbound.
    { rewrite Hsplit.
      replace (m2 * (2 ^ n * 2 ^ (ez - dmin)) - Zpos mz * 2 ^ (ez - dmin))
        with ((m2 * 2 ^ n - Zpos mz) * 2 ^ (ez - dmin)) by ring.
      rewrite Z.abs_mul, (Z.abs_eq (2 ^ (ez - dmin))) by lia.
      rewrite Z.mul_assoc. apply Z.mul_le_mono_nonneg_r; [lia|]. lia. }
    destruct m2 as [|q|q] eqn:Hq; [lia| |lia].
    destruct (decide (Zpos q < 2 ^ 53)) as [Hsmall|Hbig].
    + assert (Zpos (digits2_pos q) = 53) as Hdq.
      { apply (digits_unique _ _ (Zpos q)); [lia|lia| |].
        - apply digits2_pos_bounds.
        - change (53 - 1) with 52. lia. }
      destruct (shr_fexp_spec q (ez + n)) as [[_ ->]|(Hlt' & _)];
        [lia| |lia].
      cbn [shr_m]. destruct (ez + n <=? emax - prec); [|done].
      split; [done|]. split; [lia|done].
    + assert (q = 9007199254740992%positive) as -> by lia.
      assert (shr_fexp prec emax 9007199254740992 (ez + n) loc_Exact
              = ({| shr_m := 4503599627370496; shr_r := false;
                    shr_s := false |}, ez + n + 1)) as ->.
      { unfold shr_fexp, shr. rewrite fexp_double.
        change (Zdigits2 9007199254740992) with 54.
        replace (Z.max (54 + (ez + n) - 53) dmin - (ez + n)) with 1 by lia.
        done. }
      cbn [shr_m]. destruct (ez + n + 1 <=? emax - prec); [|done].
      split; [done|]. split; [lia|].
      replace (ez + n + 1 - dmin) with (1 + (ez + n - dmin)) by lia.
      rewrite Z.pow_add_r by lia.
      replace (4503599627370496 * (2 ^ 1 * 2 ^ (ez + n - dmin)))
        with (9007199254740992 * 2 ^ (ez + n - dmin)) by lia.
      done.
Qed.

Lemma Pos_iter_xO (m p : positive) :
  Zpos (Pos.iter xO m p) = Zpos m * 2 ^ Zpos p.
Proof.
  induction p as [|p IH] using Pos.peano_ind; [cbn; lia|].
  rewrite Pos.iter_succ, Pos2Z.inj_succ, Z.pow_succ_r by lia.
  rewrite Pos2Z.inj_xO, IH. lia.
Qed.

Lemma shl_align_fst (m : positive) (e e' : Z) :
  e' ≤ e →
  Zpos (fst (shl_align m e e')) = Zpos m * 2 ^ (e - e')
  ∧ snd (shl_align m e e') = e'.
Proof.
  intros Hle. unfold shl_align.
  destruct (e' - e) as [|p|p] eqn:Hd; cbn [fst snd].
  - replace (e - e') with 0 by lia. cbn. lia.
  - lia.
  - rewrite Pos_iter_xO. split; [|done]. do 2 f_equal. lia.
Qed.

(** The same for [binary_round], which first aligns the mantissa. *)
Lemma binary_round_error (sx : bool) (mx : positive) (ex : Z) :
  dmin ≤ ex →
  match binary_round prec emax sx mx ex with
  | S754_infinity s => s = sx
  | S754_finite s m e =>
      s = sx ∧ dmin ≤ e
      ∧ 2 ^ 53 * Z.abs (Zpos m * 2 ^ (e - dmin) - Zpos mx * 2 ^ (ex - dmin))
        ≤ Zpos mx * 2 ^ (ex - dmin)
  | _ => False
  end.
Proof.
  intros He. unfold binary_round. rewrite fexp_double.
  set (f := Z.max (Zpos (digits2_pos mx) + ex - 53) dmin).
  destruct (decide (f ≤ ex)) as [Hle|Hgt].
  - destruct (shl_align_fst mx ex f Hle) as [Hm Hf].
    destruct (shl_align mx ex f) as [mz ez]. cbn [fst snd] in Hm, Hf.
    subst ez.
    assert (Zpos mx * 2 ^ (ex - dmin) = Zpos mz * 2 ^ (f - dmin)) as ->.
    { rewrite Hm, <- Z.mul_assoc, <- Z.pow_add_r by lia.
      do 2 f_equal. lia. }
    apply binary_round_aux_error. lia.
  - unfold shl_align. destruct (f - ex) as [|p|p] eqn:Hd; [lia| |lia].
    by apply binary_round_aux_error.
Qed.

(** The same for a signed mantissa. *)
Lemma binary_normalize_rounds (M e : Z) :
  dmin ≤ e →
  rounds (M * 2 ^ (e - dmin)) (binary_normalize prec emax M e false).
Proof.
  intros He. assert (0 < 2 ^ (e - dmin)) as Hpos
    by (apply Z.pow_pos_nonneg; lia).
  destruct M as [|m|m]; cbn [binary_normalize].
  - cbn. lia.
  - pose proof (binary_round_error false m e He) as Hr.
    destruct (binary_round prec emax false m e) as [| | |s m' e'];
      [done|done|done|].
    destruct Hr as (-> & He' & Hr). cbn [rounds finite units cond_Zopp].
    split; [done|]. rewrite (Z.abs_eq (Zpos m * _)) by lia. done.
  - pose proof (binary_round_error true m e He) as Hr.
    destruct (binary_round prec emax true m e) as [| | |s m' e'];
      [done|done|done|].
    destruct Hr as (-> & He' & Hr). cbn [rounds finite units cond_Zopp].
    split; [done|].
    replace (Z.neg m * 2 ^ (e - dmin)) with (- (Zpos m * 2 ^ (e - dmin)))
      by lia.
    rewrite Z.abs_opp, (Z.abs_eq (Zpos m * _)) by lia.
    replace (- (Zpos m' * 2 ^ (e' - dmin)) - - (Zpos m * 2 ^ (e - dmin)))
      with (- (Zpos m' * 2 ^ (e' - dmin) - Zpos m * 2 ^ (e - dmin)))
      by lia.
    by rewrite Z.abs_opp.
Qed.

Lemma rounds_exact (x : double) : finite x → rounds (units x) x.
Proof.
  destruct x as [s| | |s m e]; try done; intros H;
    cbn [rounds]; (split; [done|]); rewrite Z.sub_diag; lia.
Qed.

Lemma aligned_units (s : bool) (m : positive) (e ez : Z) :
  dmin ≤ ez → ez ≤ e →
  cond_Zopp s (Zpos (fst (shl_align m e ez))) * 2 ^ (ez - dmin)
  = units (S754_finite s m e).
Proof.
  intros Hz He. destruct (shl_align_fst m e ez He) as [-> _].
  cbn [units].
  assert (2 ^ (e - dmin) = 2 ^ (e - ez) * 2 ^ (ez - dmin)) as ->.
  { rewrite <- Z.pow_add_r by lia. f_equal. lia. }
  destruct s; cbn [cond_Zopp]; ring.
Qed.

(** A double addition of finite doubles is the exact sum, rounded. *)
Lemma dadd_rounds (x y : double) :
  finite x → finite y → rounds (units x + units y) (dadd x y).
Proof.
  destruct x as [sx| | |sx mx ex], y as [sy| | |sy my ey]; try done;
    intros Hx Hy; unfold dadd; cbn [SFadd].
  - destruct sx, sy; cbn; lia.
  - rewrite Z.add_0_l. by apply rounds_exact.
  - rewrite Z.add_0_r. by apply rounds_exact.
  - cbn [finite] in Hx, Hy.
    rewrite <- (aligned_units sx mx ex (Z.min ex ey)) by lia.
    rewrite <- (aligned_units sy my ey (Z.min ex ey)) by lia.
    rewrite <- Z.mul_add_distr_r.
    apply binary_normalize_rounds. lia.
Qed.

(** A double subtraction of finite doubles is the exact difference,
    rounded. *)
Lemma dsub_rounds (x y : double) :
  finite x → finite y → rounds (units x - units y) (dsub x y).
Proof.
  destruct x as [sx| | |sx mx ex], y as [sy| | |sy my ey]; try done;
    intros Hx Hy; unfold dsub; cbn [SFsub].
  - destruct sx, sy; cbn; lia.
  - cbn [finite] in Hy. cbn [rounds finite units]. split; [done|].
    destruct sy; cbn [negb cond_Zopp]; rewrite Z.abs_eq; lia.
  - rewrite Z.sub_0_r. by apply rounds_exact.
  - cbn [finite] in Hx, Hy.
    rewrite <- (aligned_units sx mx ex (Z.min ex ey)) by lia.
    rewrite <- (aligned_units sy my ey (Z.min ex ey)) by lia.
    rewrite <- Z.mul_sub_distr_r.
    apply binary_normalize_rounds. lia.
Qed.

Lemma rounds_finite (V : Z) (r : double) :
  rounds V r → ¬ overflows r →
  finite r ∧ 2 ^ 53 * Z.abs (units r - V) ≤ Z.abs V.
Proof.
  destruct r as [s|s| |s m e]; cbn [rounds overflows]; intros Hr Ho;
    done.
Qed.

(** The sum law of the altimeter: subtracting the reference and adding it
    back gives the height again up to the rounding of the two
    operations. *)
Lemma sub_add_error (z ref : double) :
  finite z → finite ref →
  ¬ overflows (dsub z ref) → ¬ overflows (dadd (dsub z ref) ref) →
  finite (dadd (dsub z ref) ref)
  ∧ 2 ^ 53 * Z.abs (units (dadd (dsub z ref) ref) - units z)
    ≤ Z.abs (units z) + 2 * Z.abs (units z - units ref).
Proof.
  intros Hz Href Hd Hs.
  destruct (rounds_finite _ _ (dsub_rounds z ref Hz Href) Hd) as [Hfd Hed].
  destruct (rounds_finite _ _ (dadd_rounds (dsub z ref) ref Hfd Href) Hs)
    as [Hfs Hes].
  split; [done|]. lia.
Qed.
End Double_rounding.

(** ** The altimeter readings *)

Section UpdateAltimeters_facts.
Context `{Transport}.
Implicit Types (m : gmap Entity AltimeterSensor) (out : list Effect).
Implicit Types (l : list (Entity * components.t)).

Lemma UpdateAltimeters_visitor_continues e k s :
  snd (UpdateAltimeters_visitor e k s) = true.
Proof.
  destruct k as [[a wp] v], s as [m out]. simpl.
  by destruct (m !! e).
Qed.

Lemma UpdateAltimeters_visitor_other e e' k m out :
  e ≠ e' →
  fst (fst (UpdateAltimeters_visitor e' k (m, out))) !! e = m !! e.
Proof.
  intros Hne. destruct k as [[a wp] v]. simpl.
  destruct (m !! e') eqn:He'; simpl; [|done].
  by rewrite lookup_insert_ne.
Qed.

Lemma UpdateAltimeters_visitor_self e a wp v m out :
  fst (fst (UpdateAltimeters_visitor e (a, wp, v) (m, out))) !! e
  = updated wp v <$> m !! e.
Proof.
  simpl. destruct (m !! e) eqn:He; simpl.
  - by rewrite lookup_insert_eq.
  - by rewrite He.
Qed.

(** Entities the query does not reach keep their record. *)
Lemma each_loop_update_other l m out e :
  e ∉ l.*1 →
  fst (each_loop altimeter_kinds UpdateAltimeters_visitor l (m, out)) !! e
  = m !! e.
Proof.
  revert m out. induction l as [|[e' c'] l IH]; intros m out Hnin; [done|].
  rewrite fmap_cons in Hnin. apply not_elem_of_cons in Hnin as [Hne Hnin].
  simpl. destruct (altimeter_kinds c') as [k|]; [|by apply IH].
  pose proof (UpdateAltimeters_visitor_continues e' k (m, out)) as Hc.
  pose proof (UpdateAltimeters_visitor_other e e' k m out Hne) as Ho.
  destruct (UpdateAltimeters_visitor e' k (m, out)) as [[m' out'] b].
  simpl in *. subst b. by rewrite IH.
Qed.

(** An entity the query reaches gets the new reading, once. *)
Lemma each_loop_update_self l m out e c a wp v :
  NoDup l.*1 → (e, c) ∈ l → altimeter_kinds c = Some (a, wp, v) →
  fst (each_loop altimeter_kinds UpdateAltimeters_visitor l (m, out)) !! e
  = updated wp v <$> m !! e.
Proof.
  revert m out. induction l as [|[e' c'] l IH]; intros m out Hnd Hin Hk.
  { by apply elem_of_nil in Hin. }
  rewrite fmap_cons in Hnd. apply NoDup_cons in Hnd as [Hhd Hnd].
  apply elem_of_cons in Hin as [Heq|Hin].
  - inversion Heq; subst e' c'. simpl. rewrite Hk.
    pose proof (UpdateAltimeters_visitor_continues e (a, wp, v) (m, out))
      as Hc.
    pose proof (UpdateAltimeters_visitor_self e a wp v m out) as Hs.
    destruct (UpdateAltimeters_visitor e (a, wp, v) (m, out))
      as [[m' out'] b].
    simpl in Hc, Hs. subst b. by rewrite each_loop_update_other.
  - assert (e ≠ e') as Hne.
    { intros ->. apply Hhd. apply list_elem_of_fmap. by exists (e', c). }
    simpl. destruct (altimeter_kinds c') as [k|]; [|by apply IH].
    pose proof (UpdateAltimeters_visitor_continues e' k (m, out)) as Hc.
    pose proof (UpdateAltimeters_visitor_other e e' k m out Hne) as Ho.
    destruct (UpdateAltimeters_visitor e' k (m, out)) as [[m' out'] b].
    simpl in *. subst b. by rewrite (IH _ _ Hnd Hin Hk), Ho.
Qed.

Lemma UpdateAltimeters_lookup _ecm m e c a wp v :
  _ecm !! e = Some c → altimeter_kinds c = Some (a, wp, v) →
  fst (UpdateAltimeters _ecm m) !! e = updated wp v <$> m !! e.
Proof.
  intros He Hk. unfold UpdateAltimeters, Each.
  eapply each_loop_update_self; [|by apply elem_of_map_to_list|done].
  apply NoDup_fst_map_to_list.
Qed.

Lemma Publish_fields (s : AltimeterSensor) :
  let s' := fst (AltimeterSensor_Publish s) in
  topic s' = topic s ∧ verticalPosition s' = verticalPosition s
  ∧ verticalVelocity s' = verticalVelocity s
  ∧ verticalReference s' = verticalReference s.
Proof.
  unfold AltimeterSensor_Publish.
  destruct (str_empty (topic s)); [done|]. by destruct (pub s).
Qed.

Lemma Publish_publishes (s : AltimeterSensor) :
  topic s ≠ "" →
  Publish (topic s) (reading s) ∈ snd (AltimeterSensor_Publish s).
Proof.
  intros Hne. unfold AltimeterSensor_Publish, str_empty.
  destruct (String.eqb_spec (topic s) ""); [done|].
  destruct (pub s); simpl; set_solver.
Qed.

(** C1, as the code has it.  An entity carries [Altimeter], [WorldPose] and
    [WorldLinearVelocity] and has a sensor in the map.  A [PostUpdate] that
    is not paused sets the sensor's vertical position to the double
    [worldPose.Z - verticalReference] and its vertical velocity to
    [worldLinearVelocity.Z], keeps its reference and its topic, and, the
    topic not being empty, publishes these three numbers on it.  The
    published position plus the published reference, added in doubles, is
    the height again up to the rounding of the subtraction and of the
    addition: when the height and the reference are finite and neither
    operation overflows, the sum is off by at most
    [(|z| + 2 |z - ref|) / 2^53], where [z] is [worldPose.Z] and [ref] the
    reference. *)
Theorem Altimeter_PostUpdate_reading
    (_info : UpdateInfo) (_ecm : EntityComponentManager)
    (this : AltimeterPrivate) (e : Entity) (c : components.t)
    (a : sdf.AltimeterElement) (wp : math.Pose3d) (v : math.Vector3d)
    (s : AltimeterSensor) :
  paused _info = false →
  _ecm !! e = Some c →
  components.Altimeter c = Some a →
  components.WorldPose c = Some wp →
  components.WorldLinearVelocity c = Some v →
  entitySensorMap this !! e = Some s →
  ∃ s',
    entitySensorMap (fst (Altimeter_PostUpdate _info _ecm this)) !! e
      = Some s'
    ∧ verticalPosition s' = dsub (math.Z (math.Pos wp)) (verticalReference s)
    ∧ verticalVelocity s' = math.Z v
    ∧ verticalReference s' = verticalReference s
    ∧ topic s' = topic s
    ∧ (topic s ≠ "" →
       Publish (topic s)
         {| msgs.vertical_position :=
              dsub (math.Z (math.Pos wp)) (verticalReference s);
            msgs.vertical_velocity := math.Z v;
            msgs.vertical_reference := verticalReference s |}
       ∈ snd (Altimeter_PostUpdate _info _ecm this))
    ∧ (finite (math.Z (math.Pos wp)) → finite (verticalReference s) →
       ¬ overflows (verticalPosition s') →
       ¬ overflows (published_sum (reading s')) →
       finite (published_sum (reading s'))
       ∧ (2 ^ 53 * Z.abs (units (published_sum (reading s'))
                          - units (math.Z (math.Pos wp)))
          ≤ Z.abs (units (math.Z (math.Pos wp)))
            + 2 * Z.abs (units (math.Z (math.Pos wp))
                         - units (verticalReference s)))%Z).
Proof.
  intros Hp He Ha Hwp Hv Hs.
  assert (altimeter_kinds c = Some (a, wp, v)) as Hk.
  { unfold altimeter_kinds. by rewrite Ha, Hwp, Hv. }
  pose proof (UpdateAltimeters_lookup _ecm (entitySensorMap this) e c a wp v
                He Hk) as Hl.
  rewrite Hs in Hl. simpl in Hl.
  unfold Altimeter_PostUpdate. rewrite Hp.
  destruct (UpdateAltimeters _ecm (entitySensorMap this)) as [m out].
  simpl in Hl. simpl.
  exists (fst (AltimeterSensor_Publish (updated wp v s))).
  destruct (Publish_fields (updated wp v s)) as (Ht & Hpos & Hvel & Href).
  split; [by rewrite lookup_fmap, Hl|].
  split; [done|]. split; [done|]. split; [done|]. split; [done|]. split.
  - intros Hne. apply elem_of_app. right.
    apply list_elem_of_In, in_concat.
    exists (snd (AltimeterSensor_Publish (updated wp v s))). split.
    + apply list_elem_of_In, list_elem_of_fmap.
      exists (e, updated wp v s). split; [done|].
      by apply elem_of_map_to_list.
    + by apply list_elem_of_In, (Publish_publishes (updated wp v s)).
  - unfold published_sum, reading. cbn [msgs.vertical_position
      msgs.vertical_reference]. rewrite Hpos, Href.
    cbn [updated set_reading verticalPosition verticalReference].
    apply sub_add_error.
Qed.
End UpdateAltimeters_facts.

Lemma Altimeter_PostUpdate_reading_witness :
  ∃ s',
    entitySensorMap
      (fst (@Altimeter_PostUpdate accepting (tick 0) (rover_world d_0_1)
              (rover_sensors d_1000))) !! 4%N = Some s'
    ∧ verticalPosition s' = d_m999_9
    ∧ verticalVelocity s' = dzero
    ∧ verticalReference s' = d_1000
    ∧ topic s' = rover_topic
    ∧ Publish rover_topic
        {| msgs.vertical_position := d_m999_9;
           msgs.vertical_velocity := dzero;
           msgs.vertical_reference := d_1000 |}
      ∈ snd (@Altimeter_PostUpdate accepting (tick 0) (rover_world d_0_1)
               (rover_sensors d_1000))
    ∧ finite (published_sum (reading s'))
    ∧ (2 ^ 53 * Z.abs (units (published_sum (reading s')) - units d_0_1)
       ≤ Z.abs (units d_0_1) + 2 * Z.abs (units d_0_1 - units d_1000))%Z.
Proof.
  destruct (@Altimeter_PostUpdate_reading accepting (tick 0)
              (rover_world d_0_1) (rover_sensors d_1000) 4%N
              (altimeter_at "alt0" 3%N d_0_1)
              {| sdf.topicElement := None |} (at_height d_0_1) still
              (set_topic rover_topic
                 (set_verticalReference d_1000 AltimeterSensor_new))
              eq_refl eq_refl eq_refl eq_refl eq_refl eq_refl)
    as (s' & Hs' & Hpos & Hvel & Href & Htopic & Hpub & Hsum).
  exists s'. split; [exact Hs'|]. split; [exact Hpos|].
  split; [exact Hvel|]. split; [exact Href|]. split; [exact Htopic|].
  split; [apply Hpub; discriminate|].
  apply Hsum.
  - vm_compute. discriminate.
  - vm_compute. discriminate.
  - rewrite Hpos. vm_compute. exact (λ x, x).
  - unfold published_sum, reading.
    cbn [msgs.vertical_position msgs.vertical_reference].
    rewrite Hpos, Href. vm_compute. exact (λ x, x).
Defined.

(** Scenario S1: the rover's altimeter stays at height 5, where it was
    created; a tick publishes position 0, velocity 0 and reference 5, and
    advertises the topic the first time only. *)
Example still_world_publishes :
  let '(this1, out1) :=
    @Altimeter_PostUpdate accepting (tick 0) (rover_world d_5)
      (rover_sensors d_5) in
  let '(this2, out2) :=
    @Altimeter_PostUpdate accepting (tick 1) (rover_world d_5) this1 in
  let reading :=
    {| msgs.vertical_position := dzero; msgs.vertical_velocity := dzero;
       msgs.vertical_reference := d_5 |} in
  out1 = [Advertise rover_topic; ignmsg (AltimeterPublishingOn rover_topic);
          Publish rover_topic reading]
  ∧ out2 = [Publish rover_topic reading].
Proof. vm_compute. done. Qed.

(** The sum of the published position and reference misses the world
    height by more than a rounding of the height.  The altimeter was
    created at height 1000.0 and is now at 0.1; it publishes
    [0.1 - 1000.0], which is the double -999.9, and [-999.9 + 1000.0] is
    0.10000000000002274.  That is 1638 units in the last place of 0.1 away
    from 0.1: the gap is more than the machine epsilon 2^-52, and more than
    2^-52 times the height. *)
Lemma published_sum_misses_worldPose_Z :
  let msg :=
    {| msgs.vertical_position := d_m999_9; msgs.vertical_velocity := dzero;
       msgs.vertical_reference := d_1000 |} in
  snd (@Altimeter_PostUpdate accepting (tick 0) (rover_world d_0_1)
         (rover_sensors d_1000))
  = [Advertise rover_topic; ignmsg (AltimeterPublishingOn rover_topic);
     Publish rover_topic msg]
  ∧ published_sum msg = d_0_10000000000002274
  ∧ deq (published_sum msg) d_0_1 = false
  ∧ (units (published_sum msg) - units d_0_1 = 1638 * 2 ^ 1018)%Z
  ∧ (2 ^ 1022 < Z.abs (units (published_sum msg) - units d_0_1))%Z
  ∧ (Z.abs (units d_0_1)
     < 2 ^ 52 * Z.abs (units (published_sum msg) - units d_0_1))%Z.
Proof. vm_compute. repeat split; discriminate. Qed.

(** The same one metre from the reference: the sum is the neighbour of 0.1
    among the doubles. *)
Example published_sum_next_to_worldPose_Z :
  snd (@Altimeter_PostUpdate accepting (tick 0) (rover_world d_0_1)
         (rover_sensors d_1))
  = [Advertise rover_topic; ignmsg (AltimeterPublishingOn rover_topic);
     Publish rover_topic
       {| msgs.vertical_position := d_m0_9; msgs.vertical_velocity := dzero;
          msgs.vertical_reference := d_1 |}]
  ∧ dadd d_m0_9 d_1 = d_0_09999999999999998
  ∧ deq (dadd d_m0_9 d_1) d_0_1 = false.
Proof. vm_compute. repeat split; discriminate. Qed.

(** ** The default topic *)

Lemma append_assoc (a b c : string) : (a +:+ b) +:+ c = a +:+ (b +:+ c).
Proof.
  induction a as [|x a IH]; [reflexivity|].
  change (String x ((a +:+ b) +:+ c) = String x (a +:+ b +:+ c)). by f_equal.
Qed.

(** The walk up a chain of models returns, given fuel for every ancestor it
    looks at, and prepends the model names. *)
Lemma DefaultTopic_loop_chain ecm p names top :
  ModelChain ecm p names top →
  ∀ fuel t, length names < fuel →
    DefaultTopic_loop fuel ecm p t = Returns (models_prefix names +:+ t).
Proof.
  induction 1 as [|w [u Hw]|e name names top Hw Hn Hch IH]; intros fuel t Hf.
  - by destruct fuel.
  - destruct fuel as [|fuel]; [simpl in Hf; lia|]. simpl. by rewrite Hw.
  - destruct fuel as [|fuel]; [simpl in Hf; lia|].
    cbn [DefaultTopic_loop models_prefix length] in *.
    rewrite Hw, Hn, IH by lia.
    by rewrite (append_assoc (models_prefix names)).
Qed.

Lemma DefaultTopic_chain ecm e sensorName link linkName names top fuel :
  Component components.Name e ecm = Some sensorName →
  Component components.ParentEntity e ecm = Some link →
  Component components.Name link ecm = Some linkName →
  ModelChain ecm (Component components.ParentEntity link ecm) names top →
  length names < fuel →
  DefaultTopic fuel e ecm = Returns (default_topic names linkName sensorName).
Proof.
  intros Hn Hp Hl Hch Hf. unfold DefaultTopic. rewrite Hn, Hp, Hl.
  by rewrite (DefaultTopic_loop_chain _ _ _ _ Hch).
Qed.

Section CreateAltimeterEntities_facts.
Variable WorldPose : Entity → EntityComponentManager → math.Pose3d.
Variable fuel : nat.
Implicit Types (m : gmap Entity AltimeterSensor).
Implicit Types (l : list (Entity * components.t)).

Let visitor := CreateAltimeterEntities_visitor WorldPose fuel.

(** Once a sensor is in the map it stays as it is. *)
Lemma visitor_keeps ecm e' alt' m m' b e s :
  visitor ecm e' alt' (Returns m) = (Returns m', b) →
  m !! e = Some s → m' !! e = Some s.
Proof.
  unfold visitor, CreateAltimeterEntities_visitor. intros Hv Hs.
  destruct (str_empty _); [destruct (DefaultTopic _ _ _)|];
    simplify_eq; try done.
  all: destruct (m !! e') eqn:He'; [done|];
    rewrite lookup_insert_ne; [done|congruence].
Qed.

Lemma each_loop_create_fails ecm l (s : outcome (gmap Entity AltimeterSensor)) m' :
  (∀ m, s ≠ Returns m) →
  each_loop components.Altimeter (visitor ecm) l s ≠ Returns m'.
Proof.
  intros Hs. induction l as [|[e c] l IH]; simpl; [done|].
  destruct (components.Altimeter c); [|done].
  unfold visitor, CreateAltimeterEntities_visitor.
  destruct s; [by destruct (Hs a0)|done..].
Qed.

Lemma each_loop_create_keeps ecm l m m' e s :
  each_loop components.Altimeter (visitor ecm) l (Returns m) = Returns m' →
  m !! e = Some s → m' !! e = Some s.
Proof.
  revert m. induction l as [|[e' c'] l IH]; intros m Hl Hs;
    cbn [each_loop] in Hl.
  { by simplify_eq. }
  destruct (components.Altimeter c') as [alt'|]; [|by eapply IH].
  destruct (visitor ecm e' alt' (Returns m)) as [s1 b] eqn:Hv.
  destruct s1 as [m1| |].
  - pose proof (visitor_keeps _ _ _ _ _ _ _ _ Hv Hs) as Hs1.
    destruct b; [by eapply IH|]. by simplify_eq.
  - destruct b; [|done]. by apply each_loop_create_fails in Hl.
  - destruct b; [|done]. by apply each_loop_create_fails in Hl.
Qed.

Lemma visitor_other ecm e' alt' m m' b e :
  visitor ecm e' alt' (Returns m) = (Returns m', b) →
  e ≠ e' → m' !! e = m !! e.
Proof.
  unfold visitor, CreateAltimeterEntities_visitor. intros Hv Hne.
  destruct (str_empty _); [destruct (DefaultTopic _ _ _)|];
    simplify_eq; try done.
  all: destruct (m !! e') eqn:He'; [done|]; by rewrite lookup_insert_ne.
Qed.

Lemma visitor_continues ecm e' alt' m m' b :
  visitor ecm e' alt' (Returns m) = (Returns m', b) → b = true.
Proof.
  unfold visitor, CreateAltimeterEntities_visitor. intros Hv.
  destruct (str_empty _); [destruct (DefaultTopic _ _ _)|];
    by simplify_eq.
Qed.

(** An altimeter without a topic of its own gets the default topic. *)
Lemma visitor_creates ecm e alt t m :
  sdf.topicElement alt = None ∨ sdf.topicElement alt = Some "" →
  DefaultTopic fuel e ecm = Returns t →
  m !! e = None →
  visitor ecm e alt (Returns m)
  = (Returns (<[e := created_sensor t (math.Z (math.Pos (WorldPose e ecm)))]>
                m), true).
Proof.
  intros Halt Ht Hm. unfold visitor, CreateAltimeterEntities_visitor.
  assert (topic (AltimeterSensor_Load alt AltimeterSensor_new) = "") as Hl.
  { unfold AltimeterSensor_Load. by destruct Halt as [-> | ->]. }
  assert (AltimeterSensor_Load alt AltimeterSensor_new
          = AltimeterSensor_new) as ->.
  { unfold AltimeterSensor_Load. by destruct Halt as [-> | ->]. }
  cbn [set_verticalReference topic AltimeterSensor_new str_empty].
  by rewrite Ht, Hm.
Qed.

Lemma each_loop_create_inserts ecm l m m' e c alt t :
  NoDup l.*1 → (e, c) ∈ l → components.Altimeter c = Some alt →
  sdf.topicElement alt = None ∨ sdf.topicElement alt = Some "" →
  DefaultTopic fuel e ecm = Returns t →
  m !! e = None →
  each_loop components.Altimeter (visitor ecm) l (Returns m) = Returns m' →
  m' !! e = Some (created_sensor t (math.Z (math.Pos (WorldPose e ecm)))).
Proof.
  intros Hnd Hin Hc Halt Ht. revert m.
  induction l as [|[e' c'] l IH]; intros m Hm Hl; cbn [each_loop] in Hl.
  { by apply elem_of_nil in Hin. }
  rewrite fmap_cons in Hnd. apply NoDup_cons in Hnd as [Hhd Hnd].
  apply elem_of_cons in Hin as [Heq|Hin].
  - inversion Heq; subst e' c'. rewrite Hc in Hl.
    rewrite (visitor_creates _ _ _ _ _ Halt Ht Hm) in Hl.
    eapply each_loop_create_keeps; [done|]. by rewrite lookup_insert_eq.
  - assert (e ≠ e') as Hne.
    { intros ->. apply Hhd. apply list_elem_of_fmap. by exists (e', c). }
    destruct (components.Altimeter c') as [alt'|]; [|by eapply IH].
    destruct (visitor ecm e' alt' (Returns m)) as [s1 b] eqn:Hv.
    destruct s1 as [m1| |].
    + pose proof (visitor_other _ _ _ _ _ _ _ Hv Hne) as Ho.
      rewrite (visitor_continues _ _ _ _ _ _ Hv) in Hl.
      eapply (IH Hnd Hin m1); [by rewrite Ho|done].
    + destruct b; [|done]. by apply each_loop_create_fails in Hl.
    + destruct b; [|done]. by apply each_loop_create_fails in Hl.
Qed.
End CreateAltimeterEntities_facts.

(** C3. An altimeter entity whose configuration has no topic, or an empty
    one, sits under a named link; above the link there are the models
    [names], innermost first, up to the world (or up to an entity without a
    parent).  Given fuel for the walk, the resolver returns
    "/link/" + linkName + "/sensor/" + sensorName + "/altimeter" with
    "/model/" + name in front of it for every model, outermost first, and
    this is the topic of the sensor the first [PreUpdate] creates. *)
Theorem DefaultTopic_resolves
    (WorldPose : Entity → EntityComponentManager → math.Pose3d)
    (fuel : nat) (ecm : EntityComponentManager) (e : Entity)
    (c : components.t) (alt : sdf.AltimeterElement)
    (sensorName : string) (link : Entity) (linkName : string)
    (names : list string) (top : chain_end) :
  ecm !! e = Some c →
  components.Altimeter c = Some alt →
  sdf.topicElement alt = None ∨ sdf.topicElement alt = Some "" →
  components.Name c = Some sensorName →
  components.ParentEntity c = Some link →
  Component components.Name link ecm = Some linkName →
  ModelChain ecm (Component components.ParentEntity link ecm) names top →
  length names < fuel →
  DefaultTopic fuel e ecm = Returns (default_topic names linkName sensorName)
  ∧ ∀ this',
      Altimeter_PreUpdate WorldPose fuel ecm AltimeterPrivate_new
        = Returns this' →
      entitySensorMap this' !! e
      = Some (created_sensor (default_topic names linkName sensorName)
                (math.Z (math.Pos (WorldPose e ecm)))).
Proof.
  intros He Hc Halt Hn Hp Hl Hch Hf.
  assert (DefaultTopic fuel e ecm
          = Returns (default_topic names linkName sensorName)) as Ht.
  { eapply DefaultTopic_chain; try done; unfold Component; by rewrite He. }
  split; [done|]. intros this'.
  unfold Altimeter_PreUpdate, AltimeterPrivate_new.
  cbn [initialized entitySensorMap negb].
  destruct (CreateAltimeterEntities _ _ _ _) as [m| |] eqn:Hcr; [|done..].
  intros [= <-]. cbn [entitySensorMap].
  unfold CreateAltimeterEntities, Each in Hcr.
  eapply (each_loop_create_inserts WorldPose fuel ecm (map_to_list ecm) ∅ m
            e c alt); try done.
  - apply NoDup_fst_map_to_list.
  - by apply elem_of_map_to_list.
Qed.

Lemma DefaultTopic_resolves_witness :
  DefaultTopic 8 5%N robot_world
  = Returns "/model/robot/model/tool/link/arm/sensor/alt0/altimeter"
  ∧ ∀ this',
      Altimeter_PreUpdate (λ _ _, at_height d_5) 8 robot_world
        AltimeterPrivate_new = Returns this' →
      entitySensorMap this' !! 5%N
      = Some (created_sensor
                "/model/robot/model/tool/link/arm/sensor/alt0/altimeter" d_5).
Proof.
  apply (DefaultTopic_resolves (λ _ _, at_height d_5) 8 robot_world 5%N
           (altimeter_at "alt0" 4%N d_5) {| sdf.topicElement := None |}
           "alt0" 4%N "arm" ["tool"; "robot"] (AtWorld 1%N)).
  - reflexivity.
  - reflexivity.
  - left. reflexivity.
  - reflexivity.
  - reflexivity.
  - reflexivity.
  - apply (chain_model robot_world 3%N "tool" ["robot"] (AtWorld 1%N));
      [reflexivity | reflexivity |].
    apply (chain_model robot_world 2%N "robot" [] (AtWorld 1%N));
      [reflexivity | reflexivity |].
    apply (chain_world robot_world 1%N). exists tt. reflexivity.
  - simpl. lia.
Defined.

(** Scenario S2, run: the first [PreUpdate] on the robot's world returns and
    the sensor it creates has the nested topic. *)
Example nested_model_topic :
  Altimeter_PreUpdate (λ _ _, at_height d_5) 8 robot_world
    AltimeterPrivate_new
  = Returns
      {| initialized := true;
         entitySensorMap :=
           {[ 5%N := created_sensor
                "/model/robot/model/tool/link/arm/sensor/alt0/altimeter"
                d_5 ]} |}.
Proof. vm_compute. reflexivity. Qed.

(** ** Absent components on the way up *)

(** C7, as the code has it.  The resolver has no failure of its own: when
    the walk comes to an ancestor without a [ParentEntity] component (the
    link, or a model above it), it ends there and the resolver returns the
    topic it has built from the names up to that ancestor. *)
Theorem DefaultTopic_stops_without_parent
    (fuel : nat) (ecm : EntityComponentManager) (e : Entity)
    (sensorName : string) (link : Entity) (linkName : string)
    (names : list string) :
  Component components.Name e ecm = Some sensorName →
  Component components.ParentEntity e ecm = Some link →
  Component components.Name link ecm = Some linkName →
  ModelChain ecm (Component components.ParentEntity link ecm) names NoParent →
  length names < fuel →
  DefaultTopic fuel e ecm = Returns (default_topic names linkName sensorName).
Proof. apply DefaultTopic_chain. Qed.

Lemma DefaultTopic_stops_without_parent_witness :
  DefaultTopic 8 4%N orphan_world
  = Returns "/model/rover/link/base/sensor/alt0/altimeter".
Proof.
  apply (DefaultTopic_stops_without_parent 8 orphan_world 4%N "alt0" 3%N
           "base" ["rover"]).
  - reflexivity.
  - reflexivity.
  - reflexivity.
  - apply (chain_model orphan_world 2%N "rover" [] NoParent);
      [reflexivity | reflexivity |].
    apply chain_no_parent.
  - simpl. lia.
Defined.

(** The model [rover] has no [ParentEntity] component, and the resolver
    returns a topic for the altimeter on its link all the same. *)
Lemma missing_parent_is_no_error :
  Component components.ParentEntity 2%N orphan_world = None
  ∧ Component components.World 2%N orphan_world = None
  ∧ DefaultTopic 8 4%N orphan_world
    = Returns "/model/rover/link/base/sensor/alt0/altimeter".
Proof. by vm_compute. Qed.

(** Where a [Name] is missing the resolver dereferences the null pointer. *)
Lemma DefaultTopic_loop_broken ecm p n :
  BrokenChain ecm p n →
  ∀ fuel t, n < fuel → DefaultTopic_loop fuel ecm p t = NullDereference.
Proof.
  induction 1 as [e Hw Hn|e name n Hw Hn Hch IH]; intros fuel t Hf;
    (destruct fuel as [|fuel]; [lia|]); cbn [DefaultTopic_loop];
    rewrite Hw, Hn; [done|].
  apply IH. lia.
Qed.

Lemma DefaultTopic_null_dereference fuel ecm e :
  Component components.Name e ecm = None
  ∨ Component components.ParentEntity e ecm = None
  ∨ (∃ link, Component components.ParentEntity e ecm = Some link
       ∧ (Component components.Name link ecm = None
          ∨ ∃ n, n < fuel
              ∧ BrokenChain ecm (Component components.ParentEntity link ecm)
                  n)) →
  DefaultTopic fuel e ecm = NullDereference.
Proof.
  unfold DefaultTopic.
  intros [->|[Hp|(link & Hp & [Hl|(n & Hf & Hch)])]]; [done|..].
  - rewrite Hp. by destruct (Component components.Name e ecm).
  - rewrite Hp, Hl. by destruct (Component components.Name e ecm).
  - rewrite Hp. destruct (Component components.Name e ecm); [|done].
    destruct (Component components.Name link ecm); [|done].
    by apply (DefaultTopic_loop_broken _ _ _ Hch).
Qed.

Example unnamed_link_dereferenced :
  DefaultTopic 8 4%N unnamed_link_world = NullDereference.
Proof. by vm_compute. Qed.

(** ** Plugin filtering in [Configure] *)

Lemma prefix_app (pat s : string) :
  String.prefix pat s = true ↔ ∃ post, s = pat +:+ post.
Proof.
  revert s. induction pat as [|a pat IH]; intros s.
  - split; [by exists s|]. by destruct s.
  - destruct s as [|b s]; cbn [String.prefix].
    + split; [done|]. by intros [post ?].
    + destruct (Ascii.ascii_dec a b) as [->|Hne].
      * rewrite IH. split; intros [post Hs]; exists post.
        -- by rewrite Hs.
        -- by injection Hs.
      * split; [done|]. intros [post Hs]. by injection Hs.
Qed.

(** [find] does not give [npos] exactly when the pattern occurs. *)
Lemma find_contains (s pat : string) : find s pat ≠ npos ↔ contains s pat.
Proof.
  unfold npos, contains. induction s as [|a s IH]; cbn [find].
  - destruct (String.prefix pat "") eqn:Hp.
    + split; [|done]. intros _. apply prefix_app in Hp as [post Hs].
      by exists "", post.
    + split; [done|]. intros (pre & post & Hs).
      destruct pre; [|done].
      assert (String.prefix pat "" = true) as Hp'
        by (apply prefix_app; by exists post).
      congruence.
  - destruct (String.prefix pat (String a s)) eqn:Hp.
    + split; [|done]. intros _. apply prefix_app in Hp as [post Hs].
      by exists "", post.
    + destruct (find s pat) as [n|] eqn:Hf; cbn.
      * split; [|done]. intros _.
        destruct IH as [IH _]. destruct IH as (pre & post & Hs); [done|].
        exists (String a pre), post. by rewrite Hs.
      * split; [done|]. intros (pre & post & Hs).
        destruct pre as [|b pre].
        -- assert (String.prefix pat (String a s) = true) as Hp'
             by (apply prefix_app; by exists post).
           congruence.
        -- injection Hs as -> Hs. destruct IH as [_ IH].
           destruct IH; [by exists pre, post|done].
Qed.

Lemma flagged_spec (x : sdf.Element) :
  flagged x = true ↔
  ∃ name, GetAttribute "name" x = Some name
          ∧ (contains name "LogRecord" ∨ contains name "Physics").
Proof.
  unfold flagged. destruct (GetAttribute "name" x) as [name|].
  - rewrite orb_true_iff, !negb_true_iff, !bool_decide_eq_false,
      !find_contains.
    split; [by exists name|]. by intros (? & [= <-] & ?).
  - split; [done|]. by intros (? & ? & ?).
Qed.

Lemma removed_spec (x : sdf.Element) : removed x = true ↔ disallowed x.
Proof.
  unfold removed, disallowed, is_plugin.
  by rewrite andb_true_iff, String.eqb_eq, flagged_spec.
Qed.

Lemma findElement_cons name x l i :
  findElement name (x :: l) i
  = if String.eqb (sdf.GetName x) name then Some i
    else findElement name l (S i).
Proof. done. Qed.

(** The marking loop, started at the first plugin at or after the position
    [length pre], marks the unwanted plugins of the remaining children. *)
Lemma plugins_loop_marks (pre suf : list sdf.Element) :
  ∀ fuel pluginsRm, (length suf ≤ fuel) →
    plugins_loop fuel (pre ++ suf)
      (findElement "plugin" suf (length pre)) pluginsRm
    = (pluginsRm ++ marks_from suf (length pre)).
Proof.
  revert pre. induction suf as [|x suf IH]; intros pre fuel pluginsRm Hf.
  { destruct fuel; cbn; by rewrite app_nil_r. }
  assert ((pre ++ x :: suf) = (pre ++ [x]) ++ suf) as Hsplit
    by by rewrite <- app_assoc.
  assert (S (length pre) = length (pre ++ [x])) as Hlen
    by (rewrite length_app; simpl; lia).
  rewrite findElement_cons. cbn [marks_from]. unfold removed, is_plugin.
  destruct (String.eqb (sdf.GetName x) "plugin") eqn:Hx.
  - destruct fuel as [|fuel]; [simpl in Hf; lia|].
    cbn [plugins_loop andb].
    assert ((pre ++ x :: suf) !! length pre = Some x) as ->.
    { by rewrite list_lookup_middle. }
    assert (GetNextElement "plugin" (pre ++ x :: suf) (length pre)
            = findElement "plugin" suf (length (pre ++ [x]))) as ->.
    { unfold GetNextElement. rewrite Hsplit, Hlen.
      by rewrite drop_app_length. }
    rewrite Hsplit, IH by (simpl in Hf; lia). rewrite <- Hlen.
    destruct (flagged x); [|done]. by rewrite <- app_assoc.
  - cbn [andb]. rewrite Hsplit, Hlen. apply IH. simpl in Hf. lia.
Qed.

Lemma plugins_to_remove_marks (els : list sdf.Element) :
  plugins_to_remove els = marks_from els 0.
Proof.
  unfold plugins_to_remove, HasElement, GetElement.
  pose proof (plugins_loop_marks [] els (length els) [] (le_n _)) as Hl.
  simpl in Hl. destruct (findElement "plugin" els 0) eqn:Hf; [done|].
  destruct (length els); by simpl in Hl.
Qed.

Lemma elem_of_marks_from (l : list sdf.Element) (i j : nat) :
  j ∈ marks_from l i ↔
  (i ≤ j) ∧ ∃ x, l !! (j - i) = Some x ∧ removed x = true.
Proof.
  revert i. induction l as [|x l IH]; intros i; cbn [marks_from].
  { rewrite elem_of_nil. split; [done|]. by intros (_ & ? & ? & _). }
  assert (j ∈ marks_from l (S i) ↔
          (i < j)
          ∧ ∃ y, (x :: l) !! (j - i) = Some y ∧ removed y = true)
    as Htail.
  { rewrite IH. split; intros (Hle & y & Hy & Hr); (split; [lia|]);
      exists y; (split; [|done]).
    - by replace (j - i) with (S (j - S i)) by lia.
    - by replace (j - i) with (S (j - S i)) in Hy by lia. }
  destruct (removed x) eqn:Hx.
  - rewrite elem_of_cons, Htail. split.
    + intros [->|(Hlt & y & Hy & Hr)].
      * split; [done|]. exists x. by rewrite Nat.sub_diag.
      * split; [lia|]. by exists y.
    + intros (Hle & y & Hy & Hr).
      destruct (decide (j = i)) as [->|Hne]; [by left|right].
      split; [lia|]. by exists y.
  - rewrite Htail. split.
    + intros (Hlt & y & Hy & Hr). split; [lia|]. by exists y.
    + intros (Hle & y & Hy & Hr).
      destruct (decide (j = i)) as [->|Hne].
      * rewrite Nat.sub_diag in Hy. simpl in Hy. congruence.
      * split; [lia|]. by exists y.
Qed.

Lemma filter_all {A} (P : A → Prop) `{∀ x, Decision (P x)} (l : list A) :
  (∀ x, x ∈ l → P x) → filter P l = l.
Proof.
  induction l as [|x l IH]; intros Hall; [done|].
  rewrite filter_cons_True by (apply Hall; left).
  f_equal. apply IH. intros y Hy. apply Hall. by right.
Qed.

(** With no pointer listed twice, [RemoveFromParent] drops the pointer. *)
Lemma RemoveFromParent_filter (it : nat) (children : list nat) :
  NoDup children →
  RemoveFromParent it children = filter (λ j, j ≠ it) children.
Proof.
  induction 1 as [|j children Hj Hnd IH]; [done|]. cbn [RemoveFromParent].
  destruct (Nat.eqb_spec it j) as [->|Hne].
  - rewrite filter_cons_False by (intros ?; done).
    symmetry. apply filter_all. by intros x Hx ->.
  - rewrite filter_cons_True by done. by rewrite IH.
Qed.

Lemma remove_all_filter (pluginsRm children : list nat) :
  NoDup children →
  foldl (λ children it, RemoveFromParent it children) children pluginsRm
  = filter (λ j, j ∉ pluginsRm) children.
Proof.
  revert children. induction pluginsRm as [|it pluginsRm IH];
    intros children Hnd; cbn [foldl].
  - symmetry. apply filter_all. intros x _. apply not_elem_of_nil.
  - rewrite RemoveFromParent_filter by done.
    rewrite IH by by apply NoDup_filter.
    rewrite list_filter_filter. apply list_filter_iff. intros j.
    rewrite not_elem_of_cons. tauto.
Qed.

(** Reading the children at the positions that pass a test is filtering the
    children, when the test on a position agrees with a test on the child
    there. *)
Lemma omap_lookup_filter_seq (P : nat → Prop) `{∀ j, Decision (P j)}
    (keep : sdf.Element → bool) (pre suf : list sdf.Element) :
  (∀ j x, (pre ++ suf) !! j = Some x → (length pre ≤ j) →
          (P j ↔ keep x = true)) →
  omap (λ i, (pre ++ suf) !! i) (filter P (seq (length pre) (length suf)))
  = List.filter keep suf.
Proof.
  revert pre. induction suf as [|x suf IH]; intros pre Hagree; [done|].
  assert ((pre ++ x :: suf) = (pre ++ [x]) ++ suf) as Hsplit
    by by rewrite <- app_assoc.
  assert (S (length pre) = length (pre ++ [x])) as Hlen
    by (rewrite length_app; simpl; lia).
  assert ((pre ++ x :: suf) !! length pre = Some x) as Hx
    by by rewrite list_lookup_middle.
  cbn [length seq List.filter].
  specialize (IH (pre ++ [x])). rewrite <- Hsplit, <- Hlen in IH.
  destruct (keep x) eqn:Hk.
  - rewrite filter_cons_True by by eapply Hagree.
    cbn [omap list_omap]. rewrite Hx. f_equal. apply IH.
    intros j y Hy Hj. apply Hagree; [done|lia].
  - rewrite filter_cons_False.
    + apply IH. intros j y Hy Hj. apply Hagree; [done|lia].
    + intros HP. eapply Hagree in HP; [|done..]. congruence.
Qed.

(** The children that are left are the children that are not unwanted
    plugins, in their order. *)
Lemma remove_plugins_filter (els : list sdf.Element) :
  remove_plugins els (plugins_to_remove els)
  = List.filter (λ x, negb (removed x)) els.
Proof.
  unfold remove_plugins. rewrite plugins_to_remove_marks.
  rewrite remove_all_filter by apply NoDup_seq.
  apply (omap_lookup_filter_seq _ _ [] els).
  intros j x Hx _. rewrite elem_of_marks_from, Nat.sub_0_r.
  simpl in Hx. rewrite negb_true_iff. split.
  - intros Hn. destruct (removed x) eqn:Hr; [|done].
    destruct Hn. split; [lia|]. by exists x.
  - intros Hr (_ & y & Hy & Hry). congruence.
Qed.

Example recorded_world_filtered :
  plugins_to_remove recorded_world_elements = [1; 3]
  ∧ remove_plugins recorded_world_elements [1; 3]
    = [ {| sdf.GetName := "gravity"; sdf.attributes := [] |};
        {| sdf.GetName := "model"; sdf.attributes := [("name", "rover")] |};
        plugin "KeyboardInput" ].
Proof. by vm_compute. Qed.

(** ** [Update] *)

Section Update_facts.
Context `{Collaborators}.
Implicit Types (ecm : EntityComponentManager) (this : LogPlaybackPrivate).
Implicit Types (info : UpdateInfo) (infos : list UpdateInfo).

Lemma set_printedEnd_id this :
  printedEnd this = true → set_printedEnd true this = this.
Proof. destruct this as [b i p]. cbn. by intros ->. Qed.

Lemma at_end_set_printedEnd b this :
  at_end (set_printedEnd b this) = at_end this.
Proof. done. Qed.

(** At the end of the batch a call changes nothing but the latch. *)
Lemma Update_at_end info ecm this :
  at_end this = true →
  Update info ecm this
  = (ecm,
     if paused info then this else set_printedEnd true this,
     if paused info || printedEnd this then []
     else [ignmsg FinishedPlaying]).
Proof.
  unfold at_end, Update. intros Hend.
  destruct (paused info); [done|].
  destruct (batch this !! iter this); [done|].
  destruct (printedEnd this) eqn:Hp; cbn; [|done].
  by rewrite set_printedEnd_id.
Qed.

Lemma Updates_at_end infos ecm this :
  at_end this = true →
  Updates infos ecm this
  = (ecm,
     if forallb paused infos then this else set_printedEnd true this,
     if forallb paused infos || printedEnd this then []
     else [ignmsg FinishedPlaying]).
Proof.
  revert this. induction infos as [|info infos IH]; intros this Hend;
    cbn [Updates forallb]; [done|].
  rewrite Update_at_end by done.
  destruct (paused info) eqn:Hp; cbn [andb orb].
  - rewrite IH by done. by rewrite app_nil_l.
  - rewrite IH by done. cbn [printedEnd set_printedEnd].
    rewrite orb_true_r, app_nil_r.
    replace (set_printedEnd true (set_printedEnd true this))
      with (set_printedEnd true this) by done.
    by destruct (forallb paused infos).
Qed.


(** C6. Paused calls, however many, leave the entities and the system as
    they are and write nothing. *)
Theorem Updates_paused infos ecm this :
  Forall (λ info, paused info = true) infos →
  Updates infos ecm this = (ecm, this, []).
Proof.
  induction 1 as [|info infos Hp _ IH]; [done|].
  cbn [Updates]. unfold Update. rewrite Hp. by rewrite IH.
Qed.

(** The latch is only set at the end of the batch. *)
Lemma Update_latch info ecm this :
  printedEnd this = true → at_end this = true →
  Update info ecm this = (ecm, this, []).
Proof.
  intros Hp Hend. rewrite Update_at_end by done.
  rewrite Hp, orb_true_r, set_printedEnd_id by done.
  by destruct (paused info).
Qed.

Lemma Update_keeps_latch_open info ecm this :
  printedEnd this = false → at_end this = false →
  printedEnd (snd (fst (Update info ecm this))) = false.
Proof.
  unfold at_end, Update. intros Hp Hend.
  destruct (paused info); [done|].
  destruct (batch this !! iter this) as [msg|]; [|done].
  destruct (_ <? _)%Z; [done|].
  by destruct (String.eqb _ _); [|destruct (String.eqb _ _)].
Qed.

(** Through any run of calls, a set latch means that the iterator is at the
    end of the batch; so the latch is open when the last message is taken. *)
Lemma Update_latch_invariant info ecm this :
  (printedEnd this = true → at_end this = true) →
  printedEnd (snd (fst (Update info ecm this))) = true →
  at_end (snd (fst (Update info ecm this))) = true.
Proof.
  intros Hinv. destruct (at_end this) eqn:Hend.
  - rewrite Update_at_end by done. cbn [fst snd].
    by destruct (paused info); rewrite ?at_end_set_printedEnd.
  - rewrite Update_keeps_latch_open; [done| |done].
    destruct (printedEnd this); [|done]. by specialize (Hinv eq_refl).
Qed.

Lemma Updates_latch_invariant infos ecm this :
  (printedEnd this = true → at_end this = true) →
  printedEnd (snd (fst (Updates infos ecm this))) = true →
  at_end (snd (fst (Updates infos ecm this))) = true.
Proof.
  revert ecm this. induction infos as [|info infos IH]; intros ecm this Hinv;
    cbn [Updates]; [done|].
  pose proof (Update_latch_invariant info ecm this Hinv) as Hstep.
  destruct (Update info ecm this) as [[ecm1 this1] out1]. cbn in Hstep.
  specialize (IH ecm1 this1 Hstep).
  by destruct (Updates infos ecm1 this1) as [[ecm2 this2] out2].
Qed.

(** Over a whole run the completion message is written as often as the
    latch goes from open to set, that is at most once. *)
Lemma Update_completions info ecm this :
  (printedEnd this = true → at_end this = true) →
  completions (snd (Update info ecm this)) + latch this
  = latch (snd (fst (Update info ecm this))).
Proof.
  intros Hinv. destruct (at_end this) eqn:Hend.
  - rewrite Update_at_end by done. cbn [fst snd]. unfold latch.
    destruct (paused info); [done|]. by destruct (printedEnd this).
  - assert (printedEnd this = false) as Hp.
    { destruct (printedEnd this); [|done]. by specialize (Hinv eq_refl). }
    unfold latch. rewrite Update_keeps_latch_open, Hp by done.
    unfold at_end in Hend. unfold Update.
    destruct (paused info); [done|].
    destruct (batch this !! iter this) as [msg|]; [|done].
    destruct (_ <? _)%Z; [done|].
    by destruct (String.eqb _ _); [|destruct (String.eqb _ _)].
Qed.

Lemma Updates_completions infos ecm this :
  (printedEnd this = true → at_end this = true) →
  completions (snd (Updates infos ecm this)) + latch this
  = latch (snd (fst (Updates infos ecm this))).
Proof.
  revert ecm this. induction infos as [|info infos IH]; intros ecm this Hinv;
    cbn [Updates]; [done|].
  pose proof (Update_latch_invariant info ecm this Hinv) as Hstep.
  pose proof (Update_completions info ecm this Hinv) as Hone.
  destruct (Update info ecm this) as [[ecm1 this1] out1]. cbn in Hstep, Hone.
  specialize (IH ecm1 this1 Hstep).
  destruct (Updates infos ecm1 this1) as [[ecm2 this2] out2].
  cbn [fst snd] in *. unfold completions in *.
  rewrite List.filter_app, length_app. lia.
Qed.

(** C9. The iterator is at the end of the batch and the completion message
    was not written yet.  The first call that is not paused writes it and
    sets the latch; after that, no call changes anything or writes anything.
    Over any run of calls the message is written once if one of them is not
    paused, and not at all otherwise. *)
Theorem completion_printed_once ecm this :
  at_end this = true →
  printedEnd this = false →
  (∀ info, paused info = false →
     Update info ecm this
     = (ecm, set_printedEnd true this, [ignmsg FinishedPlaying]))
  ∧ (∀ info ecm',
       Update info ecm' (set_printedEnd true this)
       = (ecm', set_printedEnd true this, []))
  ∧ (∀ infos,
       Updates infos ecm this
       = (ecm,
          if forallb paused infos then this else set_printedEnd true this,
          if forallb paused infos then [] else [ignmsg FinishedPlaying])).
Proof.
  intros Hend Hp. split; [|split].
  - intros info Hi. rewrite Update_at_end by done. by rewrite Hi, Hp.
  - intros info ecm'. by apply Update_latch.
  - intros infos. rewrite Updates_at_end by done.
    by rewrite Hp, orb_false_r.
Qed.
End Update_facts.

Lemma Updates_paused_witness :
  @Updates (recorded None)
    [paused_tick second; paused_tick (2 * second); paused_tick (3 * second)]
    playback_world (playing one_pose_log 0)
  = (playback_world, playing one_pose_log 0, []).
Proof.
  apply (@Updates_paused (recorded None)).
  repeat constructor.
Defined.

Lemma completion_printed_once_witness :
  (∀ info, paused info = false →
     @Update (recorded None) info playback_world (playing one_pose_log 1)
     = (playback_world, set_printedEnd true (playing one_pose_log 1),
        [ignmsg FinishedPlaying]))
  ∧ (∀ info ecm',
       @Update (recorded None) info ecm'
         (set_printedEnd true (playing one_pose_log 1))
       = (ecm', set_printedEnd true (playing one_pose_log 1), []))
  ∧ (∀ infos,
       @Updates (recorded None) infos playback_world (playing one_pose_log 1)
       = (playback_world,
          if forallb paused infos then playing one_pose_log 1
          else set_printedEnd true (playing one_pose_log 1),
          if forallb paused infos then [] else [ignmsg FinishedPlaying])).
Proof.
  apply (@completion_printed_once (recorded None) playback_world
           (playing one_pose_log 1)); reflexivity.
Defined.

(** Scenario S3: the pose recorded at 1.000 s waits at 0.500 s, is applied
    at 1.000 s, and the completion message is written once however long the
    run goes on. *)
Example playback_waits_on_clock :
  @Updates (recorded None)
    [tick (second / 2); tick second; tick (2 * second); paused_tick 0;
     tick (3 * second); tick (4 * second)]
    playback_world (playing one_pose_log 0)
  = (<[2%N := posed "rover" 1%N d_5]> playback_world,
     set_printedEnd true (playing one_pose_log 1),
     [ignmsg FinishedPlaying]).
Proof. by vm_compute. Qed.

(** An unknown message is skipped with a warning and the snapshot after it
    is applied by [SetState]. *)
Example playback_skips_unknown :
  @Updates (recorded None) [tick second; tick (2 * second)]
    playback_world (playing mixed_log 0)
  = ({[ 9%N := posed "probe" 1%N d_1 ]} ∪ playback_world,
     playing mixed_log 2,
     [ignwarn (UnsupportedMessageType "ignition.msgs.Clock")]).
Proof. by vm_compute. Qed.

(** ** Applying a [Pose_V] *)

Section ParsePoseV_facts.
Context `{Collaborators}.
Implicit Types (ecm : EntityComponentManager).
Implicit Types (l : list (Entity * components.t)).

Lemma foldl_insert_or_assign (poses : list msgs_pose.Pose)
    (idToPose : gmap Entity msgs_pose.Pose) (e : Entity) :
  foldl (λ idToPose pose, <[msgs_pose.id pose := pose]> idToPose)
        idToPose poses !! e
  = match recorded_pose poses e with
    | Some pose => Some pose
    | None => idToPose !! e
    end.
Proof.
  unfold recorded_pose. revert idToPose.
  induction poses as [|pose poses IH]; intros idToPose; [done|].
  cbn [foldl]. rewrite IH. rewrite filter_cons.
  destruct (decide (msgs_pose.id pose = e)) as [He|He].
  - rewrite last_cons. destruct (last (filter _ poses)); [done|].
    by rewrite <- He, lookup_insert_eq.
  - destruct (last (filter _ poses)); [done|].
    by rewrite lookup_insert_ne.
Qed.

Lemma idToPose_of_lookup (poses : list msgs_pose.Pose) (e : Entity) :
  idToPose_of poses !! e = recorded_pose poses e.
Proof.
  unfold idToPose_of. rewrite foldl_insert_or_assign, lookup_empty.
  by destruct (recorded_pose poses e).
Qed.

Lemma ParsePoseV_visitor_other idToPose e e' pose0 ecm :
  e ≠ e' →
  fst (ParsePoseV_visitor idToPose e' pose0 ecm) !! e = ecm !! e.
Proof.
  intros Hne. unfold ParsePoseV_visitor.
  destruct (idToPose !! e'); [|done]. cbn. by rewrite lookup_alter_ne.
Qed.

Lemma ParsePoseV_visitor_continues idToPose e' pose0 ecm :
  snd (ParsePoseV_visitor idToPose e' pose0 ecm) = true.
Proof. unfold ParsePoseV_visitor. by destruct (idToPose !! e'). Qed.

Lemma ParsePoseV_visitor_self poses e pose0 ecm c :
  ecm !! e = Some c → components.Pose c = Some pose0 →
  fst (ParsePoseV_visitor (idToPose_of poses) e pose0 ecm) !! e
  = Some (replayed poses e c).
Proof.
  intros He Hpose. unfold ParsePoseV_visitor, replayed.
  rewrite idToPose_of_lookup, Hpose.
  destruct (recorded_pose poses e) as [pose|]; cbn; [|done].
  by rewrite lookup_alter_eq, He.
Qed.

Lemma each_loop_pose_other idToPose l ecm e :
  e ∉ l.*1 →
  each_loop components.Pose (ParsePoseV_visitor idToPose) l ecm !! e
  = ecm !! e.
Proof.
  revert ecm. induction l as [|[e' c'] l IH]; intros ecm Hnin; [done|].
  rewrite fmap_cons in Hnin. apply not_elem_of_cons in Hnin as [Hne Hnin].
  cbn [each_loop]. destruct (components.Pose c') as [pose0|]; [|by apply IH].
  pose proof (ParsePoseV_visitor_continues idToPose e' pose0 ecm) as Hc.
  pose proof (ParsePoseV_visitor_other idToPose e e' pose0 ecm Hne) as Ho.
  destruct (ParsePoseV_visitor idToPose e' pose0 ecm) as [ecm' b].
  cbn in Hc, Ho. subst b. by rewrite IH.
Qed.

Lemma each_loop_pose_self poses l ecm e c :
  NoDup l.*1 → (e, c) ∈ l → ecm !! e = Some c →
  each_loop components.Pose (ParsePoseV_visitor (idToPose_of poses)) l ecm
    !! e
  = Some (replayed poses e c).
Proof.
  revert ecm. induction l as [|[e' c'] l IH]; intros ecm Hnd Hin He.
  { by apply elem_of_nil in Hin. }
  rewrite fmap_cons in Hnd. apply NoDup_cons in Hnd as [Hhd Hnd].
  apply elem_of_cons in Hin as [Heq|Hin].
  - inversion Heq; subst e' c'. cbn [each_loop].
    destruct (components.Pose c) as [pose0|] eqn:Hpose.
    + pose proof (ParsePoseV_visitor_continues (idToPose_of poses) e pose0
                    ecm) as Hc.
      pose proof (ParsePoseV_visitor_self poses e pose0 ecm c He Hpose)
        as Hs.
      destruct (ParsePoseV_visitor (idToPose_of poses) e pose0 ecm)
        as [ecm' b].
      cbn in Hc, Hs. subst b. by rewrite each_loop_pose_other.
    + rewrite each_loop_pose_other by done. unfold replayed.
      by rewrite Hpose.
  - assert (e ≠ e') as Hne.
    { intros ->. apply Hhd. apply list_elem_of_fmap. by exists (e', c). }
    cbn [each_loop].
    destruct (components.Pose c') as [pose0|]; [|by apply IH].
    pose proof (ParsePoseV_visitor_continues (idToPose_of poses) e' pose0 ecm)
      as Hc.
    pose proof (ParsePoseV_visitor_other (idToPose_of poses) e e' pose0 ecm
                  Hne) as Ho.
    destruct (ParsePoseV_visitor (idToPose_of poses) e' pose0 ecm)
      as [ecm' b].
    cbn in Hc, Ho. subst b. apply IH; [done..|]. by rewrite Ho.
Qed.

(** Every entity is what it was, replayed. *)
Lemma ParsePoseV_lookup msg ecm e :
  ParsePoseV msg ecm !! e
  = replayed (Pose_V_ParseFromString (transport_log.Data msg)) e
      <$> ecm !! e.
Proof.
  unfold ParsePoseV, Each. destruct (ecm !! e) as [c|] eqn:He; cbn.
  - apply each_loop_pose_self; [apply NoDup_fst_map_to_list| |done].
    by apply elem_of_map_to_list.
  - rewrite each_loop_pose_other; [done|].
    intros Hin. apply list_elem_of_fmap in Hin as [[e' c] [-> Hin]].
    apply elem_of_map_to_list in Hin. cbn in He. congruence.
Qed.

(** C10. Applying a [Pose_V] creates no entity and no component, and writes
    nothing: an entity that is not there is not there afterwards; an entity
    that is there keeps all its components but [Pose], and its [Pose], if it
    has one, becomes the last pose the message records for its id, if there
    is one.  Poses recorded for other ids have no effect. *)
Theorem ParsePoseV_frame msg ecm :
  let poses := Pose_V_ParseFromString (transport_log.Data msg) in
  let ecm' := ParsePoseV msg ecm in
  (∀ e, ecm !! e = None → ecm' !! e = None)
  ∧ (∀ e c, ecm !! e = Some c →
       ∃ c', ecm' !! e = Some c'
         ∧ components.Name c' = components.Name c
         ∧ components.ParentEntity c' = components.ParentEntity c
         ∧ components.World c' = components.World c
         ∧ components.WorldPose c' = components.WorldPose c
         ∧ components.WorldLinearVelocity c'
           = components.WorldLinearVelocity c
         ∧ components.Altimeter c' = components.Altimeter c
         ∧ components.Pose c'
           = match components.Pose c, recorded_pose poses e with
             | Some _, Some pose => Some (Convert pose)
             | old, _ => old
             end)
  ∧ (∀ info this,
       batch this !! iter this = Some msg →
       transport_log.MsgType msg = "ignition.msgs.Pose_V" →
       snd (Update info ecm this) = []).
Proof.
  intros poses ecm'. split; [|split].
  - intros e He. unfold ecm'. by rewrite ParsePoseV_lookup, He.
  - intros e c He. exists (replayed poses e c). split.
    { unfold ecm'. by rewrite ParsePoseV_lookup, He. }
    unfold replayed.
    destruct (components.Pose c) as [pose0|] eqn:Hpose;
      [destruct (recorded_pose poses e)|]; by rewrite ?Hpose.
  - intros info this Hmsg Htype. unfold Update. rewrite Hmsg, Htype.
    destruct (paused info); [done|]. by destruct (_ <? _)%Z.
Qed.
End ParsePoseV_facts.

(** The rover's [Pose_V]: entity 2 gets the last pose recorded for it; the
    poses for entity 7, which does not exist, and for entity 3, which has no
    [Pose], are dropped. *)
Example rover_pose_replayed :
  @ParsePoseV (recorded None)
    {| transport_log.TimeReceived := second;
       transport_log.MsgType := "ignition.msgs.Pose_V";
       transport_log.Data := "rover up" |} playback_world
  = {[ 1%N := world_root; 2%N := posed "rover" 1%N d_5;
       3%N := named "base" 2%N ]}.
Proof. by vm_compute. Qed.

Lemma ParsePoseV_frame_witness :
  let msg := {| transport_log.TimeReceived := second;
                transport_log.MsgType := "ignition.msgs.Pose_V";
                transport_log.Data := "rover up" |} in
  let poses := [pose_of 2%N d_1; pose_of 7%N d_1; pose_of 3%N d_1;
                pose_of 2%N d_5] in
  let ecm' := @ParsePoseV (recorded None) msg playback_world in
  (∀ e, playback_world !! e = None → ecm' !! e = None)
  ∧ (∀ e c, playback_world !! e = Some c →
       ∃ c', ecm' !! e = Some c'
         ∧ components.Name c' = components.Name c
         ∧ components.ParentEntity c' = components.ParentEntity c
         ∧ components.World c' = components.World c
         ∧ components.WorldPose c' = components.WorldPose c
         ∧ components.WorldLinearVelocity c'
           = components.WorldLinearVelocity c
         ∧ components.Altimeter c' = components.Altimeter c
         ∧ components.Pose c'
           = match components.Pose c, recorded_pose poses e with
             | Some _, Some pose => Some (@Convert (recorded None) pose)
             | old, _ => old
             end)
  ∧ (∀ info this,
       batch this !! iter this = Some msg →
       transport_log.MsgType msg = "ignition.msgs.Pose_V" →
       snd (@Update (recorded None) info playback_world this) = []).
Proof.
  exact (@ParsePoseV_frame (recorded None)
           {| transport_log.TimeReceived := second;
              transport_log.MsgType := "ignition.msgs.Pose_V";
              transport_log.Data := "rover up" |} playback_world).
Defined.

(** ** One message at a time *)

Section Update_one_message.
Context `{Collaborators}.
Implicit Types (ecm : EntityComponentManager) (this : LogPlaybackPrivate).

End Update_one_message.


(** A snapshot whose time has come is handed to [SetState], and a message
    of another type only moves the iterator. *)
Example Update_applies_snapshot :
  @Update (recorded None) (tick (2 * second)) playback_world
    (playing mixed_log 1)
  = (@SetState (recorded None)
       (@SerializedState_ParseFromString (recorded None) "probe")
       playback_world,
     playing mixed_log 2, [])
  ∧ @SetState (recorded None)
      (@SerializedState_ParseFromString (recorded None) "probe")
      playback_world !! 9%N = Some (posed "probe" 1%N d_1)
  ∧ @Update (recorded None) (tick second) playback_world
      (playing mixed_log 0)
    = (playback_world, playing mixed_log 1,
       [ignwarn (UnsupportedMessageType "ignition.msgs.Clock")]).
Proof. by vm_compute. Qed.

(** ** [Configure] *)

Section Configure_facts.
Context `{Collaborators}.
Implicit Types (ecm : EntityComponentManager) (this : LogPlaybackPrivate).

Lemma str_empty_false (s : string) : s ≠ "" → str_empty s = false.
Proof. intros Hs. unfold str_empty. by apply String.eqb_neq. Qed.

(** [Configure] on a log directory whose scene loads. *)
Lemma Configure_scene_loads w logPath ecm this sdfWorld :
  scene_loads logPath sdfWorld →
  let els := sdf_dom.Element sdfWorld in
  let dbPath := joinPaths logPath "state.tlog" in
  let messages := default [] (Log_Open dbPath) in
  Configure w logPath ecm this
  = (create_lights w (sdf_dom.Lights sdfWorld)
       (create_models w (sdf_dom.Models sdfWorld) ecm),
     {| batch := messages; iter := 0; printedEnd := printedEnd this |},
     ([ignmsg (LoadingLogFiles dbPath (joinPaths logPath "state.sdf"))]
        ++ removed_names els (plugins_to_remove els))
       ++ [LoadPlugins w (remove_plugins els (plugins_to_remove els))]
       ++ match Log_Open dbPath with
          | Some _ => []
          | None => [ignerr (FailedToOpenLog dbPath)]
          end
       ++ (if messages is [] then [ignerr (NoMessagesFound dbPath)] else [])).
Proof.
  intros (Hp & Hd & Hdb & Hsdf & Herr & Hw) els dbPath messages.
  unfold Configure. rewrite (str_empty_false _ Hp), Hd, Hdb, Hsdf, Herr.
  cbn [negb orb]. destruct (sdf_dom.Worlds _) as [|sdfWorld' ?]; [done|].
  injection Hw as ->. fold els dbPath. subst messages.
  destruct (Log_Open dbPath) as [[|msg messages]|]; cbn [default at_end];
    cbn; by rewrite <- ?app_assoc.
Qed.

(** C4. When the scene of the log directory loads, [Configure] emits the
    [LoadPlugins] event once, with the children of the world element from
    which exactly the unwanted plugin declarations are gone: the [<plugin>]
    elements whose [name] attribute contains [LogRecord] or [Physics].  The
    other children are all there, in their order. *)
Theorem Configure_filters_plugins w logPath ecm this sdfWorld :
  scene_loads logPath sdfWorld →
  let survivors :=
    List.filter (λ x, negb (removed x)) (sdf_dom.Element sdfWorld) in
  (∃ out1 out2,
      snd (Configure w logPath ecm this)
      = out1 ++ LoadPlugins w survivors :: out2
      ∧ List.filter is_LoadPlugins (out1 ++ out2) = [])
  ∧ (∀ x, removed x = true ↔ disallowed x)
  ∧ (∀ x, In x survivors ↔ In x (sdf_dom.Element sdfWorld) ∧ ¬ disallowed x).
Proof.
  intros Hs survivors. split; [|split].
  - rewrite (Configure_scene_loads _ _ _ _ _ Hs). cbn [snd].
    rewrite remove_plugins_filter. fold survivors.
    eexists _, _. split; [reflexivity|].
    rewrite !List.filter_app.
    assert (List.filter is_LoadPlugins
              (removed_names (sdf_dom.Element sdfWorld)
                 (plugins_to_remove (sdf_dom.Element sdfWorld))) = []) as ->.
    { unfold removed_names. induction (plugins_to_remove _) as [|i l IH];
        [done|]. cbn [omap list_omap].
      by destruct (_ ≫= _). }
    destruct (Log_Open _) as [[|? ?]|]; reflexivity.
  - apply removed_spec.
  - intros x. unfold survivors. rewrite List.filter_In, negb_true_iff.
    rewrite <- removed_spec. by destruct (removed x); intuition.
Qed.

Lemma errors_app (out1 out2 : list Effect) :
  errors (out1 ++ out2) = errors out1 + errors out2.
Proof. unfold errors. by rewrite List.filter_app, length_app. Qed.

Lemma errors_removed_names els pluginsRm :
  errors (removed_names els pluginsRm) = 0.
Proof.
  unfold errors, removed_names.
  induction pluginsRm as [|i l IH]; [done|]. cbn [omap list_omap].
  by destruct (_ ≫= _).
Qed.

(** After any call sequence that starts at the end of the batch, the
    entities are as they were and no error was written. *)
Lemma Updates_disabled infos ecm this :
  at_end this = true →
  ∃ this' out,
    Updates infos ecm this = (ecm, this', out)
    ∧ at_end this' = true ∧ errors out = 0.
Proof.
  intros Hend. rewrite Updates_at_end by done. eexists _, _.
  split; [reflexivity|]. split.
  - by destruct (forallb paused infos).
  - by destruct (forallb paused infos || printedEnd this).
Qed.

(** C5, as the code has it.  Whatever is wrong with the configuration,
    [Configure] on the fresh system writes at least one error, exactly one
    unless the log cannot be opened, and leaves the iterator at the end of
    the batch; no later run of [Update] calls changes the entities or writes
    an error. *)
Theorem Configure_error_disables w logPath ecm k :
  wrong logPath k →
  ∃ ecm' this' out,
    Configure w logPath ecm LogPlaybackPrivate_new = (ecm', this', out)
    ∧ 1 ≤ errors out
    ∧ (k ≠ LogOpenFailure → errors out = 1)
    ∧ at_end this' = true
    ∧ ∀ infos ecm1,
        ∃ this'' out',
          Updates infos ecm1 this' = (ecm1, this'', out')
          ∧ at_end this'' = true ∧ errors out' = 0.
Proof.
  intros Hk.
  assert (∀ this' : LogPlaybackPrivate, at_end this' = true →
          ∀ infos ecm1, ∃ this'' out',
            Updates infos ecm1 this' = (ecm1, this'', out')
            ∧ at_end this'' = true ∧ errors out' = 0) as Hdis.
  { intros this' Hend infos ecm1. by apply Updates_disabled. }
  destruct Hk as [Hp|Hp Hd|Hp Hd Hf|Hp Hd Hdb Hsdf Hl|sdfWorld Hs Ho
                 |sdfWorld Hs Ho].
  - eexists _, _, _. unfold Configure. rewrite Hp. cbn [str_empty String.eqb].
    split; [reflexivity|]. split; [cbn; lia|]. split; [done|].
    split; [done|]. by apply Hdis.
  - eexists _, _, _. unfold Configure.
    rewrite (str_empty_false _ Hp), Hd. cbn [negb].
    split; [reflexivity|]. split; [cbn; lia|]. split; [done|].
    split; [done|]. by apply Hdis.
  - eexists _, _, _. unfold Configure.
    rewrite (str_empty_false _ Hp), Hd. cbn [negb].
    assert (negb (exists_ (joinPaths logPath "state.tlog"))
            || negb (exists_ (joinPaths logPath "state.sdf")) = true) as ->.
    { destruct Hf as [-> | ->]; [done|]. by rewrite orb_true_r. }
    split; [reflexivity|]. split; [cbn; lia|]. split; [done|].
    split; [done|]. by apply Hdis.
  - eexists ecm, LogPlaybackPrivate_new, _. unfold Configure.
    rewrite (str_empty_false _ Hp), Hd, Hdb, Hsdf. cbn [negb orb].
    split.
    { destruct Hl as [Hl|Hl].
      - destruct (sdf_dom.LoadErrors _); [done|].
        by destruct (sdf_dom.Worlds _).
      - rewrite Hl. by destruct (sdf_dom.LoadErrors _). }
    split; [cbn; lia|]. split; [done|]. split; [done|]. by apply Hdis.
  - eexists _, _, _. rewrite (Configure_scene_loads _ _ _ _ _ Hs).
    cbv zeta. rewrite Ho. cbn [default].
    split; [reflexivity|].
    rewrite !errors_app, errors_removed_names.
    split; [cbn; lia|]. split; [done|]. split; [done|]. by apply Hdis.
  - eexists _, _, _. rewrite (Configure_scene_loads _ _ _ _ _ Hs).
    cbv zeta. rewrite Ho. cbn [default].
    split; [reflexivity|].
    rewrite !errors_app, errors_removed_names.
    split; [cbn; lia|]. split; [done|]. split; [done|]. by apply Hdis.
Qed.
End Configure_facts.

Lemma recorded_scene_loads log :
  @scene_loads (recorded log) "/log" recorded_scene.
Proof. repeat split; vm_compute; congruence. Qed.

(** Scenario S4: of [MyLogRecord], [BulletPhysics] and [KeyboardInput] only
    [KeyboardInput] is forwarded, with the children that are no plugins. *)
Lemma Configure_filters_plugins_witness :
  let survivors :=
    [ {| sdf.GetName := "gravity"; sdf.attributes := [] |};
      {| sdf.GetName := "model"; sdf.attributes := [("name", "rover")] |};
      plugin "KeyboardInput" ] in
  (∃ out1 out2,
      snd (@Configure (recorded (Some one_pose_log)) 1%N "/log"
             playback_world LogPlaybackPrivate_new)
      = out1 ++ LoadPlugins 1%N survivors :: out2
      ∧ List.filter is_LoadPlugins (out1 ++ out2) = [])
  ∧ (∀ x, removed x = true ↔ disallowed x)
  ∧ (∀ x, In x survivors ↔ In x recorded_world_elements ∧ ¬ disallowed x).
Proof.
  apply (@Configure_filters_plugins (recorded (Some one_pose_log)) 1%N "/log"
           playback_world LogPlaybackPrivate_new recorded_scene).
  repeat split; vm_compute; congruence.
Defined.

Example Configure_recorded_run :
  @Configure (recorded (Some one_pose_log)) 1%N "/log" playback_world
    LogPlaybackPrivate_new
  = (playback_world, playing one_pose_log 0,
     [ignmsg (LoadingLogFiles "/log/state.tlog" "/log/state.sdf");
      igndbg (RemovedPlugin "MyLogRecord");
      igndbg (RemovedPlugin "BulletPhysics");
      LoadPlugins 1%N
        [ {| sdf.GetName := "gravity"; sdf.attributes := [] |};
          {| sdf.GetName := "model"; sdf.attributes := [("name", "rover")] |};
          plugin "KeyboardInput" ]]).
Proof. by vm_compute. Qed.

Lemma Configure_error_disables_witness :
  ∃ ecm' this' out,
    @Configure (recorded (Some [])) 1%N "/log" playback_world
      LogPlaybackPrivate_new = (ecm', this', out)
    ∧ 1 ≤ errors out
    ∧ (EmptyLog ≠ LogOpenFailure → errors out = 1)
    ∧ at_end this' = true
    ∧ ∀ infos ecm1,
        ∃ this'' out',
          @Updates (recorded (Some [])) infos ecm1 this'
          = (ecm1, this'', out')
          ∧ at_end this'' = true ∧ errors out' = 0.
Proof.
  apply (@Configure_error_disables (recorded (Some [])) 1%N "/log"
           playback_world EmptyLog).
  apply (@wrong_empty (recorded (Some [])) "/log" recorded_scene).
  - repeat split; vm_compute; congruence.
  - reflexivity.
Defined.

(** A log that cannot be opened is reported twice: [Configure] does not
    return after the first error and finds the batch empty. *)
Lemma unopened_log_reported_twice :
  @wrong (recorded None) "/log" LogOpenFailure
  ∧ snd (@Configure (recorded None) 1%N "/log" playback_world
           LogPlaybackPrivate_new)
    = [ignmsg (LoadingLogFiles "/log/state.tlog" "/log/state.sdf");
       igndbg (RemovedPlugin "MyLogRecord");
       igndbg (RemovedPlugin "BulletPhysics");
       LoadPlugins 1%N
         [ {| sdf.GetName := "gravity"; sdf.attributes := [] |};
           {| sdf.GetName := "model"; sdf.attributes := [("name", "rover")] |};
           plugin "KeyboardInput" ];
       ignerr (FailedToOpenLog "/log/state.tlog");
       ignerr (NoMessagesFound "/log/state.tlog")]
  ∧ errors (snd (@Configure (recorded None) 1%N "/log" playback_world
                   LogPlaybackPrivate_new)) = 2.
Proof.
  split; [|by vm_compute].
  apply (@wrong_open (recorded None) "/log" recorded_scene);
    [apply recorded_scene_loads | reflexivity].
Qed.

(** ** The geometry component *)

(** Reading back what was written to an empty stream gives the geometry
    again as far as the two conversions and the codec do: the operators add
    nothing of their own. *)
Lemma Geometry_read_write `{GeometryCollaborators} (g : sdf_Geometry) :
  ParseFromIstream (SerializeToOstream (convert_to_msgs g))
  = convert_to_msgs g →
  convert_to_sdf (convert_to_msgs g) = g →
  Geometry_read (Geometry_write "" g) = g.
Proof.
  intros Hcodec Hconvert. unfold Geometry_read, Geometry_write.
  change ("" +:+ SerializeToOstream (convert_to_msgs g))
    with (SerializeToOstream (convert_to_msgs g)).
  by rewrite Hcodec, Hconvert.
Qed.

(** * Further properties *)

(** ** [UpdateAltimeters] and [PostUpdate] on the whole sensor map *)

Section UpdateAltimeters_more.
Implicit Types (m : gmap Entity AltimeterSensor) (out : list Effect).
Implicit Types (l : list (Entity * components.t)).

Lemma each_loop_update_skipped l m out e c :
  NoDup l.*1 → (e, c) ∈ l → altimeter_kinds c = None →
  fst (each_loop altimeter_kinds UpdateAltimeters_visitor l (m, out)) !! e
  = m !! e.
Proof.
  revert m out. induction l as [|[e' c'] l IH]; intros m out Hnd Hin Hk.
  { by apply elem_of_nil in Hin. }
  rewrite fmap_cons in Hnd. apply NoDup_cons in Hnd as [Hhd Hnd].
  apply elem_of_cons in Hin as [Heq|Hin].
  - inversion Heq; subst e' c'. cbn [each_loop]. rewrite Hk.
    by apply each_loop_update_other.
  - assert (e ≠ e') as Hne.
    { intros ->. apply Hhd. apply list_elem_of_fmap. by exists (e', c). }
    cbn [each_loop]. destruct (altimeter_kinds c') as [k|]; [|by apply IH].
    pose proof (UpdateAltimeters_visitor_continues e' k (m, out)) as Hc.
    pose proof (UpdateAltimeters_visitor_other e e' k m out Hne) as Ho.
    destruct (UpdateAltimeters_visitor e' k (m, out)) as [[m' out'] b].
    simpl in *. subst b. by rewrite (IH _ _ Hnd Hin Hk), Ho.
Qed.

(** The sensor map after [UpdateAltimeters], entity by entity. *)
Lemma UpdateAltimeters_lookup_all _ecm m e :
  fst (UpdateAltimeters _ecm m) !! e = sensor_update _ecm e <$> m !! e.
Proof.
  unfold sensor_update. destruct (_ecm !! e) as [c|] eqn:He; cbn.
  - destruct (altimeter_kinds c) as [[[a wp] v]|] eqn:Hk.
    + by apply (UpdateAltimeters_lookup _ecm m e c a wp v).
    + unfold UpdateAltimeters, Each.
      rewrite (each_loop_update_skipped _ _ _ e c);
        [by destruct (m !! e)|apply NoDup_fst_map_to_list| |done].
      by apply elem_of_map_to_list.
  - unfold UpdateAltimeters, Each. rewrite each_loop_update_other.
    + by destruct (m !! e).
    + intros Hin. apply list_elem_of_fmap in Hin as [[e' c] [-> Hin]].
      apply elem_of_map_to_list in Hin. cbn in He. congruence.
Qed.

Lemma sensor_update_fields _ecm e s :
  topic (sensor_update _ecm e s) = topic s
  ∧ verticalReference (sensor_update _ecm e s) = verticalReference s
  ∧ pub (sensor_update _ecm e s) = pub s.
Proof.
  unfold sensor_update. by destruct (_ ≫= _) as [[[a wp] v]|].
Qed.

(** X1. [UpdateAltimeters] neither adds nor drops a sensor and never touches
    a topic, a reference or a publisher; the sensor of an entity that lacks
    one of the three components keeps its old readings. *)
Theorem UpdateAltimeters_frame _ecm m e :
  (m !! e = None → fst (UpdateAltimeters _ecm m) !! e = None)
  ∧ (∀ s, m !! e = Some s →
       ∃ s', fst (UpdateAltimeters _ecm m) !! e = Some s'
         ∧ topic s' = topic s
         ∧ verticalReference s' = verticalReference s
         ∧ pub s' = pub s
         ∧ (_ecm !! e ≫= altimeter_kinds = None → s' = s)).
Proof.
  rewrite UpdateAltimeters_lookup_all. split.
  - by intros ->.
  - intros s ->. exists (sensor_update _ecm e s). split; [done|].
    destruct (sensor_update_fields _ecm e s) as (Ht & Hr & Hp).
    repeat split; try done. unfold sensor_update. by intros ->.
Qed.

Lemma each_loop_update_out l m out x :
  NoDup l.*1 →
  x ∈ snd (each_loop altimeter_kinds UpdateAltimeters_visitor l (m, out))
  ↔ x ∈ out
    ∨ ∃ e c k, x = ignerr (FailedToUpdateAltimeter e) ∧ (e, c) ∈ l
               ∧ altimeter_kinds c = Some k ∧ m !! e = None.
Proof.
  revert m out. induction l as [|[e' c'] l IH]; intros m out Hnd.
  { cbn. split; [by left|]. intros [?|(e & c & k & _ & Hin & _)]; [done|].
    by apply elem_of_nil in Hin. }
  rewrite fmap_cons in Hnd. apply NoDup_cons in Hnd as [Hhd Hnd].
  assert (∀ e c, (e, c) ∈ l → e ≠ e') as Hfresh.
  { intros e c Hin ->. apply Hhd. apply list_elem_of_fmap.
    by exists (e', c). }
  cbn [each_loop]. destruct (altimeter_kinds c') as [[[a wp] v]|] eqn:Hk'.
  - cbn [UpdateAltimeters_visitor]. destruct (m !! e') as [it|] eqn:He'.
    + rewrite IH by done. split.
      * intros [?|(e & c & k & -> & Hin & Hk & Hm)]; [by left|right].
        exists e, c, k. rewrite lookup_insert_ne in Hm by by eapply not_eq_sym, Hfresh.
        repeat split; try done. by right.
      * intros [?|(e & c & k & -> & Hin & Hk & Hm)]; [by left|right].
        apply elem_of_cons in Hin as [[= -> ->]|Hin]; [congruence|].
        exists e, c, k. rewrite lookup_insert_ne by by eapply not_eq_sym, Hfresh.
        done.
    + rewrite IH by done. rewrite elem_of_app, list_elem_of_singleton. split.
      * intros [[?| ->]|(e & c & k & -> & Hin & Hk & Hm)].
        -- by left.
        -- right. exists e', c', (a, wp, v). repeat split; try done. by left.
        -- right. exists e, c, k. repeat split; try done. by right.
      * intros [?|(e & c & k & -> & Hin & Hk & Hm)]; [by left; left|].
        apply elem_of_cons in Hin as [[= -> ->]|Hin]; [by left; right|].
        right. by exists e, c, k.
  - rewrite IH by done. split.
    + intros [?|(e & c & k & -> & Hin & Hk & Hm)]; [by left|right].
      exists e, c, k. repeat split; try done. by right.
    + intros [?|(e & c & k & -> & Hin & Hk & Hm)]; [by left|right].
      apply elem_of_cons in Hin as [[= -> ->]|Hin]; [congruence|].
      by exists e, c, k.
Qed.

Lemma UpdateAltimeters_out _ecm m x :
  x ∈ snd (UpdateAltimeters _ecm m)
  ↔ ∃ e c k, x = ignerr (FailedToUpdateAltimeter e) ∧ _ecm !! e = Some c
             ∧ altimeter_kinds c = Some k ∧ m !! e = None.
Proof.
  unfold UpdateAltimeters, Each.
  rewrite each_loop_update_out by apply NoDup_fst_map_to_list. split.
  - intros [Hin|(e & c & k & -> & Hin & Hk & Hm)];
      [by apply elem_of_nil in Hin|].
    exists e, c, k. by rewrite <- elem_of_map_to_list.
  - intros (e & c & k & -> & He & Hk & Hm). right.
    exists e, c, k. by rewrite elem_of_map_to_list.
Qed.

(** X2. [UpdateAltimeters] writes an error for exactly the entities that
    carry the three components and have no sensor in the map, and writes
    nothing else. *)
Theorem UpdateAltimeters_errors _ecm m x :
  x ∈ snd (UpdateAltimeters _ecm m)
  ↔ ∃ e c k, x = ignerr (FailedToUpdateAltimeter e) ∧ _ecm !! e = Some c
             ∧ altimeter_kinds c = Some k ∧ m !! e = None.
Proof. apply UpdateAltimeters_out. Qed.
End UpdateAltimeters_more.

Section PostUpdate_more.
Context `{Transport}.
Implicit Types (m : gmap Entity AltimeterSensor) (this : AltimeterPrivate).

Lemma PostUpdate_lookup _info _ecm this e :
  paused _info = false →
  entitySensorMap (fst (Altimeter_PostUpdate _info _ecm this)) !! e
  = (λ s, fst (AltimeterSensor_Publish (sensor_update _ecm e s)))
      <$> entitySensorMap this !! e.
Proof.
  intros Hp. unfold Altimeter_PostUpdate. rewrite Hp.
  pose proof (UpdateAltimeters_lookup_all _ecm (entitySensorMap this) e)
    as Hl.
  destruct (UpdateAltimeters _ecm (entitySensorMap this)) as [m out].
  cbn in *. rewrite lookup_fmap, Hl. by destruct (entitySensorMap this !! e).
Qed.

Lemma PostUpdate_initialized _info _ecm this :
  initialized (fst (Altimeter_PostUpdate _info _ecm this))
  = initialized this.
Proof.
  unfold Altimeter_PostUpdate. destruct (paused _info); [done|].
  by destruct (UpdateAltimeters _ _).
Qed.

Lemma Publish_update_twice _ecm e s :
  let s1 := fst (AltimeterSensor_Publish (sensor_update _ecm e s)) in
  fst (AltimeterSensor_Publish (sensor_update _ecm e s1)) = s1.
Proof.
  destruct s as [t pos vel ref p]. unfold sensor_update, updated.
  destruct (_ ≫= _) as [[[a wp] v]|]; unfold AltimeterSensor_Publish;
    cbn [set_reading topic pub verticalReference].
  all: destruct (str_empty t) eqn:Ht;
         [cbn [fst topic set_reading verticalReference pub]; by rewrite Ht|].
  all: destruct p;
         cbn [fst negb set_pub set_reading topic pub verticalReference
              verticalPosition verticalVelocity];
         rewrite Ht; [done|].
  all: by destruct (Node_Advertise t) eqn:Hadv;
         cbn [fst negb set_pub set_reading topic pub verticalReference
              verticalPosition verticalVelocity]; rewrite ?Hadv.
Qed.

Lemma AltimeterPrivate_eq this this' :
  initialized this = initialized this' →
  entitySensorMap this = entitySensorMap this' → this = this'.
Proof. destruct this, this'. cbn. by intros -> ->. Qed.

(** X3. In a world that stands still a second [PostUpdate] changes nothing
    in the sensors: after a tick that is not paused, a further tick on the
    same entity-component manager, paused or not, leaves every sensor with
    the readings it has. *)
Theorem PostUpdate_still_world _info1 _info2 _ecm this :
  paused _info1 = false →
  fst (Altimeter_PostUpdate _info2 _ecm
         (fst (Altimeter_PostUpdate _info1 _ecm this)))
  = fst (Altimeter_PostUpdate _info1 _ecm this).
Proof.
  intros Hp1. destruct (paused _info2) eqn:Hp2.
  { unfold Altimeter_PostUpdate at 1. by rewrite Hp2. }
  apply AltimeterPrivate_eq; [by rewrite !PostUpdate_initialized|].
  apply map_eq. intros e. rewrite !PostUpdate_lookup by done.
  destruct (entitySensorMap this !! e) as [s|]; [|done]. cbn.
  f_equal. apply Publish_update_twice.
Qed.
End PostUpdate_more.

Lemma PostUpdate_still_world_witness :
  fst (@Altimeter_PostUpdate accepting (tick 1) (rover_world d_0_1)
         (fst (@Altimeter_PostUpdate accepting (tick 0) (rover_world d_0_1)
                 (rover_sensors d_1))))
  = fst (@Altimeter_PostUpdate accepting (tick 0) (rover_world d_0_1)
           (rover_sensors d_1)).
Proof.
  apply (@PostUpdate_still_world accepting (tick 0) (tick 1)
           (rover_world d_0_1) (rover_sensors d_1)).
  reflexivity.
Defined.

Section Publish_more.
Context `{Transport}.
Implicit Types (m : gmap Entity AltimeterSensor) (this : AltimeterPrivate).

(** All that [AltimeterSensor::Publish] hands out. *)
Lemma Publish_out (s : AltimeterSensor) (x : Effect) :
  x ∈ snd (AltimeterSensor_Publish s)
  ↔ topic s ≠ ""
    ∧ (x = Publish (topic s) (reading s)
       ∨ pub s = false
         ∧ (x = Advertise (topic s)
            ∨ x = ignmsg (AltimeterPublishingOn (topic s)))).
Proof.
  unfold AltimeterSensor_Publish, str_empty.
  destruct (String.eqb_spec (topic s) "") as [Ht|Ht].
  { cbn. rewrite elem_of_nil. split; [done|]. by intros [? _]. }
  destruct (pub s); cbn.
  - rewrite list_elem_of_singleton. split; [by intros ->; split; [|left]|].
    by intros [_ [?|[? _]]].
  - rewrite !elem_of_cons, elem_of_nil. split.
    + intros [->|[->|[->|[]]]]; (split; [done|]); [right|right|left];
        try done; split; try done; [by left|by right].
    + intros [_ [->|[_ [->| ->]]]]; [right; right; by left|by left|].
      right. by left.
Qed.

(** What [AltimeterSensor::Publish] leaves in the sensor: only the
    publisher can change, and it is valid afterwards if it was valid before
    or the transport accepts the topic. *)
Lemma Publish_fst_fields (s : AltimeterSensor) :
  topic (fst (AltimeterSensor_Publish s)) = topic s
  ∧ reading (fst (AltimeterSensor_Publish s)) = reading s
  ∧ pub (fst (AltimeterSensor_Publish s))
    = if str_empty (topic s) then pub s
      else pub s || Node_Advertise (topic s).
Proof.
  unfold AltimeterSensor_Publish.
  destruct (str_empty (topic s)); [done|].
  by destruct (pub s) eqn:Hp.
Qed.

Lemma elem_of_concat {A} (x : A) (ls : list (list A)) :
  x ∈ concat ls ↔ ∃ l, l ∈ ls ∧ x ∈ l.
Proof.
  rewrite list_elem_of_In, in_concat. split; intros (l & Hl & Hx); exists l.
  - by rewrite !list_elem_of_In.
  - by rewrite <- !list_elem_of_In.
Qed.

Lemma PostUpdate_out _info _ecm this x :
  paused _info = false →
  x ∈ snd (Altimeter_PostUpdate _info _ecm this)
  ↔ x ∈ snd (UpdateAltimeters _ecm (entitySensorMap this))
    ∨ ∃ e s, entitySensorMap this !! e = Some s
             ∧ x ∈ snd (AltimeterSensor_Publish (sensor_update _ecm e s)).
Proof.
  intros Hp. unfold Altimeter_PostUpdate. rewrite Hp.
  pose proof (UpdateAltimeters_lookup_all _ecm (entitySensorMap this)) as Hl.
  destruct (UpdateAltimeters _ecm (entitySensorMap this)) as [m out].
  cbn [fst snd] in *. rewrite elem_of_app, elem_of_concat.
  split; (intros [?|Hx]; [by left|right]).
  - destruct Hx as (outs & Houts & Hx).
    apply list_elem_of_fmap in Houts as [[e s'] [-> Hin]].
    apply elem_of_map_to_list in Hin. rewrite Hl in Hin.
    destruct (entitySensorMap this !! e) as [s|] eqn:Hs; [|done].
    cbn in Hin. injection Hin as <-. by exists e, s.
  - destruct Hx as (e & s & Hs & Hx).
    exists (snd (AltimeterSensor_Publish (sensor_update _ecm e s))).
    split; [|done]. apply list_elem_of_fmap.
    exists (e, sensor_update _ecm e s). split; [done|].
    apply elem_of_map_to_list. by rewrite Hl, Hs.
Qed.

Lemma PostUpdate_Publish_iff _info _ecm this t msg :
  paused _info = false →
  Publish t msg ∈ snd (Altimeter_PostUpdate _info _ecm this)
  ↔ ∃ e s',
      entitySensorMap (fst (Altimeter_PostUpdate _info _ecm this)) !! e
        = Some s'
      ∧ topic s' = t ∧ t ≠ "" ∧ msg = reading s'.
Proof.
  intros Hp. rewrite PostUpdate_out by done. split.
  - intros [Herr|(e & s & Hs & Hx)].
    { apply UpdateAltimeters_out in Herr as (? & ? & ? & ? & _). done. }
    apply Publish_out in Hx as [Ht [[= -> ->]|[_ [?|?]]]]; [|done..].
    exists e, (fst (AltimeterSensor_Publish (sensor_update _ecm e s))).
    rewrite PostUpdate_lookup, Hs by done.
    destruct (Publish_fst_fields (sensor_update _ecm e s)) as (-> & -> & _).
    done.
  - intros (e & s' & Hs' & <- & Ht & ->). right.
    rewrite PostUpdate_lookup in Hs' by done.
    destruct (entitySensorMap this !! e) as [s|] eqn:Hs; [|done].
    injection Hs' as <-. exists e, s. split; [done|].
    destruct (Publish_fst_fields (sensor_update _ecm e s)) as (Ht' & Hr & _).
    rewrite Ht' in Ht. rewrite Ht', Hr. apply Publish_out. split; [done|].
    by left.
Qed.

(** X4. What a [PostUpdate] that is not paused publishes is exactly the
    reading each sensor has after the call, on the sensor's topic; a sensor
    whose topic is empty publishes nothing. *)
Theorem PostUpdate_publishes _info _ecm this t msg :
  paused _info = false →
  Publish t msg ∈ snd (Altimeter_PostUpdate _info _ecm this)
  ↔ ∃ e s',
      entitySensorMap (fst (Altimeter_PostUpdate _info _ecm this)) !! e
        = Some s'
      ∧ topic s' = t ∧ t ≠ "" ∧ msg = reading s'.
Proof. apply PostUpdate_Publish_iff. Qed.

(** A sensor through one [PostUpdate]: it stays in the map with its topic
    and its reference; a valid publisher stays valid, and the publisher of
    a topic the transport rejects stays as it is. *)
Lemma PostUpdate_sensor _info _ecm this e s :
  entitySensorMap this !! e = Some s →
  ∃ s',
    entitySensorMap (fst (Altimeter_PostUpdate _info _ecm this)) !! e
      = Some s'
    ∧ topic s' = topic s
    ∧ verticalReference s' = verticalReference s
    ∧ (pub s = true → pub s' = true)
    ∧ (Node_Advertise (topic s) = false → pub s' = pub s).
Proof.
  intros Hs. destruct (paused _info) eqn:Hp.
  { unfold Altimeter_PostUpdate. rewrite Hp. by exists s. }
  rewrite PostUpdate_lookup, Hs by done. eexists. split; [done|].
  destruct (Publish_fst_fields (sensor_update _ecm e s))
    as (Ht & Hr & Hpub).
  destruct (sensor_update_fields _ecm e s) as (Ht' & Href' & Hpub').
  rewrite Ht, Hpub, Ht', Hpub'.
  assert (verticalReference
            (fst (AltimeterSensor_Publish (sensor_update _ecm e s)))
          = verticalReference (sensor_update _ecm e s)) as ->.
  { change (msgs.vertical_reference
              (reading (fst (AltimeterSensor_Publish
                               (sensor_update _ecm e s))))
            = msgs.vertical_reference (reading (sensor_update _ecm e s))).
    by rewrite Hr. }
  split; [done|]. split; [done|].
  destruct (str_empty (topic s)); [done|].
  split; [by intros ->|]. intros ->. by rewrite orb_false_r.
Qed.

Lemma PostUpdate_no_sensor _info _ecm this e :
  entitySensorMap this !! e = None →
  entitySensorMap (fst (Altimeter_PostUpdate _info _ecm this)) !! e = None.
Proof.
  intros Hs. destruct (paused _info) eqn:Hp.
  { unfold Altimeter_PostUpdate. by rewrite Hp. }
  by rewrite PostUpdate_lookup, Hs.
Qed.

Lemma PostUpdates_eq _info _ecm ticks this :
  Altimeter_PostUpdates ((_info, _ecm) :: ticks) this
  = (fst (Altimeter_PostUpdates ticks
            (fst (Altimeter_PostUpdate _info _ecm this))),
     snd (Altimeter_PostUpdate _info _ecm this)
     ++ snd (Altimeter_PostUpdates ticks
               (fst (Altimeter_PostUpdate _info _ecm this)))).
Proof.
  cbn [Altimeter_PostUpdates].
  destruct (Altimeter_PostUpdate _info _ecm this) as [this1 out1].
  cbn [fst snd].
  by destruct (Altimeter_PostUpdates ticks this1) as [this2 out2].
Qed.

(** The same through a run of [PostUpdate] calls. *)
Lemma PostUpdates_sensor ticks this e s :
  entitySensorMap this !! e = Some s →
  ∃ s',
    entitySensorMap (fst (Altimeter_PostUpdates ticks this)) !! e = Some s'
    ∧ topic s' = topic s
    ∧ verticalReference s' = verticalReference s
    ∧ (pub s = true → pub s' = true)
    ∧ (Node_Advertise (topic s) = false → pub s' = pub s).
Proof.
  revert this s. induction ticks as [|[info ecm] ticks IH]; intros this s Hs.
  { by exists s. }
  rewrite PostUpdates_eq. cbn [fst].
  destruct (PostUpdate_sensor info ecm this e s Hs)
    as (s1 & Hs1 & Ht1 & Hr1 & Hp1 & Hn1).
  destruct (IH _ s1 Hs1) as (s2 & Hs2 & Ht2 & Hr2 & Hp2 & Hn2).
  exists s2. split; [done|]. rewrite Ht2, Hr2, Ht1, Hr1.
  split; [done|]. split; [done|]. split; [by auto|].
  intros Hn. rewrite Hn2, Hn1; [done|done|by rewrite Ht1].
Qed.

Lemma PostUpdates_no_sensor ticks this e :
  entitySensorMap this !! e = None →
  entitySensorMap (fst (Altimeter_PostUpdates ticks this)) !! e = None.
Proof.
  revert this. induction ticks as [|[info ecm] ticks IH]; intros this Hs;
    [done|].
  rewrite PostUpdates_eq. cbn [fst]. by apply IH, PostUpdate_no_sensor.
Qed.

Lemma PostUpdates_initialized ticks this :
  initialized (fst (Altimeter_PostUpdates ticks this)) = initialized this.
Proof.
  revert this. induction ticks as [|[info ecm] ticks IH]; intros this;
    [done|].
  rewrite PostUpdates_eq. cbn [fst]. by rewrite IH, PostUpdate_initialized.
Qed.

Lemma PostUpdate_advertised _info _ecm this :
  paused _info = false →
  advertised (entitySensorMap (fst (Altimeter_PostUpdate _info _ecm this))).
Proof.
  intros Hp e s'. rewrite PostUpdate_lookup by done.
  destruct (entitySensorMap this !! e) as [s|]; [|done]. intros [= <-].
  destruct (Publish_fst_fields (sensor_update _ecm e s)) as (-> & _ & ->).
  unfold str_empty. intros Hne.
  destruct (String.eqb_spec (topic (sensor_update _ecm e s)) "");
    [done|].
  destruct (Node_Advertise _); [left; apply orb_true_r|by right].
Qed.

Lemma PostUpdate_keeps_advertised _info _ecm this :
  advertised (entitySensorMap this) →
  advertised (entitySensorMap (fst (Altimeter_PostUpdate _info _ecm this))).
Proof.
  intros Hadv. destruct (paused _info) eqn:Hp.
  - unfold Altimeter_PostUpdate. by rewrite Hp.
  - by apply PostUpdate_advertised.
Qed.

(** Once every accepted topic has its publisher, a [PostUpdate] advertises
    rejected topics only. *)
Lemma PostUpdate_quiet _info _ecm this x :
  advertised (entitySensorMap this) →
  x ∈ snd (Altimeter_PostUpdate _info _ecm this) →
  is_Publish x = true ∨ is_ignerr x = true
  ∨ ∃ t, (x = Advertise t ∨ x = ignmsg (AltimeterPublishingOn t))
         ∧ Node_Advertise t = false.
Proof.
  intros Hadv. destruct (paused _info) eqn:Hp.
  { unfold Altimeter_PostUpdate. rewrite Hp. cbn. by rewrite elem_of_nil. }
  rewrite PostUpdate_out by done. intros [Herr|(e & s & Hs & Hx)].
  { apply UpdateAltimeters_out in Herr as (? & ? & ? & -> & _).
    right. by left. }
  destruct (sensor_update_fields _ecm e s) as (Ht & _ & Hpub).
  apply Publish_out in Hx as [Hne [->|[Hfalse Hx]]]; [by left|].
  right. right. exists (topic s). rewrite Ht in Hne, Hx. split; [done|].
  rewrite Hpub in Hfalse.
  destruct (Hadv e s Hs Hne) as [Htrue|Hrej]; [congruence|done].
Qed.

(** A sensor whose topic the transport rejects advertises it on every
    [PostUpdate] that is not paused. *)
Lemma PostUpdate_advertises _info _ecm this e s :
  paused _info = false →
  entitySensorMap this !! e = Some s → topic s ≠ "" → pub s = false →
  Advertise (topic s) ∈ snd (Altimeter_PostUpdate _info _ecm this)
  ∧ ignmsg (AltimeterPublishingOn (topic s))
    ∈ snd (Altimeter_PostUpdate _info _ecm this).
Proof.
  intros Hp Hs Hne Hpub.
  destruct (sensor_update_fields _ecm e s) as (Ht & _ & Hpub').
  split; (apply PostUpdate_out; [done|]; right; exists e, s;
          split; [done|]; apply Publish_out; rewrite Ht, Hpub';
          split; [done|]; right; split; [done|]); [by left|by right].
Qed.

(** X5. A sensor advertises its topic until the transport accepts it.  Once
    a [PostUpdate] that is not paused has run, the later [PostUpdate] calls,
    whatever the world looks like by then, hand out readings and errors,
    and advertise or announce only topics that the transport rejects; and a
    sensor with such a topic advertises and announces it again on every
    later [PostUpdate] that is not paused. *)
Theorem advertised_until_accepted _info _ecm this ticks :
  paused _info = false →
  let this1 := fst (Altimeter_PostUpdate _info _ecm this) in
  (∀ x, x ∈ snd (Altimeter_PostUpdates ticks this1) →
        is_Publish x = true ∨ is_ignerr x = true
        ∨ ∃ t, (x = Advertise t ∨ x = ignmsg (AltimeterPublishingOn t))
               ∧ Node_Advertise t = false)
  ∧ (∀ e s _info' _ecm',
       entitySensorMap this !! e = Some s → topic s ≠ "" →
       pub s = false → Node_Advertise (topic s) = false →
       paused _info' = false →
       Advertise (topic s)
       ∈ snd (Altimeter_PostUpdate _info' _ecm'
                (fst (Altimeter_PostUpdates ticks this1)))
       ∧ ignmsg (AltimeterPublishingOn (topic s))
         ∈ snd (Altimeter_PostUpdate _info' _ecm'
                  (fst (Altimeter_PostUpdates ticks this1)))).
Proof.
  intros Hp this1. split.
  - pose proof (PostUpdate_advertised _info _ecm this Hp) as Hadv.
    fold this1 in Hadv. clearbody this1. revert this1 Hadv.
    induction ticks as [|[info1 ecm1] ticks IH]; intros this1 Hadv x.
    { cbn. by rewrite elem_of_nil. }
    rewrite PostUpdates_eq. cbn [snd]. rewrite elem_of_app.
    intros [Hx|Hx].
    + by apply (PostUpdate_quiet info1 ecm1 this1).
    + apply (IH (fst (Altimeter_PostUpdate info1 ecm1 this1))); [|done].
      by apply PostUpdate_keeps_advertised.
  - intros e s _info' _ecm' Hs Hne Hpub Hrej Hp'.
    destruct (PostUpdates_sensor ((_info, _ecm) :: ticks) this e s Hs)
      as (s' & Hs' & Ht & _ & _ & Hkeep).
    rewrite PostUpdates_eq in Hs'. cbn [fst] in Hs'. fold this1 in Hs'.
    rewrite <- Ht.
    apply (PostUpdate_advertises _ _ _ e s'); [done|done|by rewrite Ht|].
    by rewrite Hkeep.
Qed.

(** X25. Paused ticks can be left out of a run of [PostUpdate] calls: the
    sensors and what is published are those of the ticks that are not
    paused. *)
Theorem PostUpdates_skip_paused
    (ticks : list (UpdateInfo * EntityComponentManager))
    (this : AltimeterPrivate) :
  Altimeter_PostUpdates ticks this
  = Altimeter_PostUpdates
      (filter (λ tick, paused (fst tick) = false) ticks) this.
Proof.
  revert this. induction ticks as [|[info ecm] ticks IH]; intros this;
    [done|].
  destruct (paused info) eqn:Hp.
  - rewrite filter_cons_False by by cbn; rewrite Hp.
    cbn [Altimeter_PostUpdates]. unfold Altimeter_PostUpdate at 1.
    rewrite Hp, IH. by destruct (Altimeter_PostUpdates _ this).
  - rewrite filter_cons_True by done. cbn [Altimeter_PostUpdates].
    destruct (Altimeter_PostUpdate info ecm this) as [this1 out1].
    by rewrite IH.
Qed.
End Publish_more.

Lemma PostUpdate_publishes_witness :
  Publish rover_topic
    {| msgs.vertical_position := dzero; msgs.vertical_velocity := dzero;
       msgs.vertical_reference := d_5 |}
  ∈ snd (@Altimeter_PostUpdate accepting (tick 0) (rover_world d_5)
           (rover_sensors d_5))
  ↔ ∃ e s',
      entitySensorMap
        (fst (@Altimeter_PostUpdate accepting (tick 0) (rover_world d_5)
                (rover_sensors d_5))) !! e = Some s'
      ∧ topic s' = rover_topic ∧ rover_topic ≠ ""
      ∧ {| msgs.vertical_position := dzero; msgs.vertical_velocity := dzero;
           msgs.vertical_reference := d_5 |} = reading s'.
Proof.
  apply (@PostUpdate_publishes accepting (tick 0) (rover_world d_5)
           (rover_sensors d_5)).
  reflexivity.
Defined.

Lemma advertised_until_accepted_witness :
  Advertise "/my altimeter"
  ∈ snd (@Altimeter_PostUpdate no_spaces (tick 4) (rover_world d_1)
           (fst (@Altimeter_PostUpdates no_spaces
                   [(tick 1, rover_world d_0_1);
                    (paused_tick 2, rover_world d_1);
                    (tick 3, rover_world d_5)]
                   (fst (@Altimeter_PostUpdate no_spaces (tick 0)
                           (rover_world d_5)
                           (sensor_on "/my altimeter" d_5))))))
  ∧ ignmsg (AltimeterPublishingOn "/my altimeter")
    ∈ snd (@Altimeter_PostUpdate no_spaces (tick 4) (rover_world d_1)
             (fst (@Altimeter_PostUpdates no_spaces
                     [(tick 1, rover_world d_0_1);
                      (paused_tick 2, rover_world d_1);
                      (tick 3, rover_world d_5)]
                     (fst (@Altimeter_PostUpdate no_spaces (tick 0)
                             (rover_world d_5)
                             (sensor_on "/my altimeter" d_5)))))).
Proof.
  apply (proj2 (@advertised_until_accepted no_spaces (tick 0)
                  (rover_world d_5) (sensor_on "/my altimeter" d_5)
                  [(tick 1, rover_world d_0_1);
                   (paused_tick 2, rover_world d_1);
                   (tick 3, rover_world d_5)] eq_refl)
           4%N (set_topic "/my altimeter"
                  (set_verticalReference d_5 AltimeterSensor_new))
           (tick 4) (rover_world d_1)).
  - reflexivity.
  - discriminate.
  - reflexivity.
  - reflexivity.
  - reflexivity.
Defined.

(** A topic the transport accepts is advertised on the first tick only; a
    topic it rejects is advertised on every tick. *)
Example accepted_and_rejected_topics :
  snd (@Altimeter_PostUpdates no_spaces
         [(tick 0, rover_world d_5); (tick 1, rover_world d_5)]
         (sensor_on "/height" d_5))
  = [Advertise "/height"; ignmsg (AltimeterPublishingOn "/height");
     Publish "/height"
       {| msgs.vertical_position := dzero; msgs.vertical_velocity := dzero;
          msgs.vertical_reference := d_5 |};
     Publish "/height"
       {| msgs.vertical_position := dzero; msgs.vertical_velocity := dzero;
          msgs.vertical_reference := d_5 |}]
  ∧ snd (@Altimeter_PostUpdates no_spaces
           [(tick 0, rover_world d_5); (tick 1, rover_world d_5)]
           (sensor_on "/my altimeter" d_5))
    = [Advertise "/my altimeter";
       ignmsg (AltimeterPublishingOn "/my altimeter");
       Publish "/my altimeter"
         {| msgs.vertical_position := dzero;
            msgs.vertical_velocity := dzero;
            msgs.vertical_reference := d_5 |};
       Advertise "/my altimeter";
       ignmsg (AltimeterPublishingOn "/my altimeter");
       Publish "/my altimeter"
         {| msgs.vertical_position := dzero;
            msgs.vertical_velocity := dzero;
            msgs.vertical_reference := d_5 |}].
Proof. by vm_compute. Qed.

(** ** [PreUpdate] and [CreateAltimeterEntities] *)

Section CreateAltimeterEntities_more.
Variable WorldPose : Entity → EntityComponentManager → math.Pose3d.
Variable fuel : nat.
Implicit Types (m : gmap Entity AltimeterSensor).
Implicit Types (l : list (Entity * components.t)).

Let visit := CreateAltimeterEntities_visitor WorldPose fuel.
Let ref (e : Entity) (ecm : EntityComponentManager) : double :=
  math.Z (math.Pos (WorldPose e ecm)).

(** One call of the visitor. *)
Lemma visitor_spec ecm e alt m :
  visit ecm e alt (Returns m)
  = match topic_for fuel ecm e alt with
    | Returns t =>
        (Returns match m !! e with
                 | Some _ => m
                 | None => <[e := created_sensor t (ref e ecm)]> m
                 end, true)
    | NullDereference => (NullDereference, false)
    | OutOfFuel => (OutOfFuel, false)
    end.
Proof.
  unfold visit, CreateAltimeterEntities_visitor, topic_for,
    AltimeterSensor_Load.
  destruct (sdf.topicElement alt) as [t|];
    cbn [set_verticalReference set_topic topic AltimeterSensor_new].
  - destruct (str_empty t) eqn:Ht; [|done].
    apply String.eqb_eq in Ht as ->.
    by destruct (DefaultTopic fuel e ecm).
  - cbn [str_empty String.eqb]. by destruct (DefaultTopic fuel e ecm).
Qed.

Lemma each_loop_create_spec ecm l m m' :
  NoDup l.*1 →
  each_loop components.Altimeter (visit ecm) l (Returns m) = Returns m' →
  ∀ e,
    m' !! e
    = match m !! e with
      | Some s => Some s
      | None =>
          match (list_to_map l : gmap Entity components.t) !! e
                ≫= components.Altimeter with
          | Some alt =>
              match topic_for fuel ecm e alt with
              | Returns t => Some (created_sensor t (ref e ecm))
              | _ => None
              end
          | None => None
          end
      end
    ∧ (∀ alt, (list_to_map l : gmap Entity components.t) !! e
                ≫= components.Altimeter = Some alt →
              ∃ t, topic_for fuel ecm e alt = Returns t).
Proof.
  revert m. induction l as [|[e' c'] l IH]; intros m Hnd Hl e;
    cbn [each_loop] in Hl.
  { injection Hl as <-. cbn. rewrite lookup_empty. cbn.
    split; [by destruct (m !! e)|done]. }
  rewrite fmap_cons in Hnd. apply NoDup_cons in Hnd as [Hhd Hnd].
  assert (list_to_map (M := gmap Entity components.t) l !! e' = None) as Hl'.
  { by apply not_elem_of_list_to_map_1. }
  cbn [list_to_map foldr]. cbn [uncurry].
  destruct (components.Altimeter c') as [alt'|] eqn:Halt'.
  - rewrite visitor_spec in Hl.
    destruct (topic_for fuel ecm e' alt') as [t| |] eqn:Ht;
      [|done..].
    specialize (IH _ Hnd Hl e) as [IHl IHt].
    destruct (decide (e = e')) as [->|Hne].
    + rewrite lookup_insert_eq. cbn. rewrite Halt', Ht.
      rewrite Hl' in IHl. cbn in IHl. split.
      * destruct (m !! e') eqn:Hm; [by rewrite Hm in IHl|].
        by rewrite lookup_insert_eq in IHl.
      * intros ? [= <-]. by exists t.
    + rewrite lookup_insert_ne by done. split; [|done].
      destruct (m !! e') eqn:Hm; [done|].
      by rewrite lookup_insert_ne in IHl.
  - specialize (IH _ Hnd Hl e) as [IHl IHt].
    destruct (decide (e = e')) as [->|Hne].
    + rewrite lookup_insert_eq. cbn. rewrite Halt'.
      rewrite Hl' in IHl. by cbn in IHl.
    + by rewrite lookup_insert_ne.
Qed.

Lemma PreUpdate_fresh_spec ecm this' :
  Altimeter_PreUpdate WorldPose fuel ecm AltimeterPrivate_new
    = Returns this' →
  initialized this' = true
  ∧ (∀ e, entitySensorMap this' !! e = sensor_for WorldPose fuel ecm e)
  ∧ topics_found fuel ecm.
Proof.
  unfold Altimeter_PreUpdate, AltimeterPrivate_new.
  cbn [initialized entitySensorMap negb].
  destruct (CreateAltimeterEntities _ _ _ _) as [m| |] eqn:Hcr; [|done..].
  intros [= <-]. cbn [initialized entitySensorMap]. split; [done|].
  unfold CreateAltimeterEntities, Each in Hcr.
  pose proof (each_loop_create_spec ecm (map_to_list ecm) ∅ m
                (NoDup_fst_map_to_list _) Hcr) as Hspec.
  rewrite list_to_map_to_list in Hspec. split.
  - intros e. destruct (Hspec e) as [-> _]. rewrite lookup_empty.
    unfold sensor_for, Component.
    by destruct (ecm !! e ≫= components.Altimeter).
  - intros e alt Halt. by apply (Hspec e).
Qed.

(** X6. When the first [PreUpdate] returns, the system is initialised and its
    map holds a sensor for exactly the altimeter entities.  Each sensor has
    the topic of its configuration, or the resolver's when that is absent or
    empty, the height of the world-pose helper as its reference, zero
    readings and no publisher yet; and the resolver has returned for every
    altimeter that needed it. *)
Theorem PreUpdate_sensors ecm this' :
  Altimeter_PreUpdate WorldPose fuel ecm AltimeterPrivate_new
    = Returns this' →
  initialized this' = true
  ∧ (∀ e, entitySensorMap this' !! e = sensor_for WorldPose fuel ecm e)
  ∧ topics_found fuel ecm.
Proof. apply PreUpdate_fresh_spec. Qed.

End CreateAltimeterEntities_more.

Lemma PreUpdate_sensors_witness :
  initialized
    {| initialized := true;
       entitySensorMap :=
         {[ 5%N := created_sensor
              "/model/robot/model/tool/link/arm/sensor/alt0/altimeter"
              d_5 ]} |} = true
  ∧ (∀ e,
       entitySensorMap
         {| initialized := true;
            entitySensorMap :=
              {[ 5%N := created_sensor
                   "/model/robot/model/tool/link/arm/sensor/alt0/altimeter"
                   d_5 ]} |} !! e
       = sensor_for (λ _ _, at_height d_5) 8 robot_world e)
  ∧ topics_found 8 robot_world.
Proof.
  apply (PreUpdate_sensors (λ _ _, at_height d_5) 8 robot_world).
  vm_compute. reflexivity.
Defined.

(** ** The resolver: what it returns and when it does not return *)

Lemma DefaultTopic_loop_returns fuel ecm p t0 t :
  DefaultTopic_loop fuel ecm p t0 = Returns t →
  ∃ names top, ModelChain ecm p names top ∧ t = models_prefix names +:+ t0.
Proof.
  revert p t0. induction fuel as [|fuel IH]; intros p t0;
    cbn [DefaultTopic_loop].
  - destruct p; [done|]. intros [= <-].
    exists [], NoParent. split; [constructor|done].
  - destruct p as [parent|].
    + destruct (Component components.World parent ecm) as [u|] eqn:Hw.
      { intros [= <-]. exists [], (AtWorld parent).
        split; [by constructor|done]. }
      destruct (Component components.Name parent ecm) as [name|] eqn:Hn;
        [|done].
      intros (names & top & Hch & ->)%IH.
      exists (name :: names), top. split; [by constructor|].
      cbn [models_prefix]. by rewrite !append_assoc.
    + intros [= <-]. exists [], NoParent. split; [constructor|done].
Qed.

Lemma append_nonempty (a b : string) : b ≠ "" → a +:+ b ≠ "".
Proof. by destruct a. Qed.

Lemma DefaultTopic_returns_inv fuel e ecm t :
  DefaultTopic fuel e ecm = Returns t →
  t ≠ ""
  ∧ ∃ sensorName link linkName names top,
      Component components.Name e ecm = Some sensorName
      ∧ Component components.ParentEntity e ecm = Some link
      ∧ Component components.Name link ecm = Some linkName
      ∧ ModelChain ecm (Component components.ParentEntity link ecm) names top
      ∧ t = default_topic names linkName sensorName.
Proof.
  unfold DefaultTopic.
  destruct (Component components.Name e ecm) as [sensorName|] eqn:Hn;
    [|done].
  destruct (Component components.ParentEntity e ecm) as [link|] eqn:Hp;
    [|done].
  destruct (Component components.Name link ecm) as [linkName|] eqn:Hl;
    [|done].
  intros (names & top & Hch & ->)%DefaultTopic_loop_returns. split.
  - by apply append_nonempty.
  - exists sensorName, link, linkName, names, top. repeat split; done.
Qed.

(** X8. Whatever the resolver returns is a topic of the documented shape:
    the sensor and its link have names, the entities above the link are named
    models up to the world or up to an entity without parent, and the topic
    is the models' names, outermost first, before the link's and the
    sensor's.  In particular it is never empty. *)
Theorem DefaultTopic_returns_shape fuel e ecm t :
  DefaultTopic fuel e ecm = Returns t →
  t ≠ ""
  ∧ ∃ sensorName link linkName names top,
      Component components.Name e ecm = Some sensorName
      ∧ Component components.ParentEntity e ecm = Some link
      ∧ Component components.Name link ecm = Some linkName
      ∧ ModelChain ecm (Component components.ParentEntity link ecm) names top
      ∧ t = default_topic names linkName sensorName.
Proof. apply DefaultTopic_returns_inv. Qed.

Lemma DefaultTopic_returns_shape_witness :
  "/model/robot/model/tool/link/arm/sensor/alt0/altimeter" ≠ ""
  ∧ ∃ sensorName link linkName names top,
      Component components.Name 5%N robot_world = Some sensorName
      ∧ Component components.ParentEntity 5%N robot_world = Some link
      ∧ Component components.Name link robot_world = Some linkName
      ∧ ModelChain robot_world
          (Component components.ParentEntity link robot_world) names top
      ∧ "/model/robot/model/tool/link/arm/sensor/alt0/altimeter"
        = default_topic names linkName sensorName.
Proof.
  apply (DefaultTopic_returns_shape 8 5%N robot_world). reflexivity.
Defined.

Lemma DefaultTopic_loop_unending ecm (P : Entity → Prop) :
  Unending ecm P →
  ∀ fuel e t, P e → DefaultTopic_loop fuel ecm (Some e) t = OutOfFuel.
Proof.
  intros Hun. induction fuel as [|fuel IH]; intros e t He; [done|].
  destruct (Hun e He) as (Hw & [name Hn] & e' & Hp & He').
  cbn [DefaultTopic_loop]. rewrite Hw, Hn, Hp. by apply IH.
Qed.

(** X9. The walk does not end on a parent chain that does not end: when the
    entities above the link are named models whose parents are such models
    again (a cycle of parents, say), the resolver returns for no amount of
    fuel; the loop of the source goes round and round, prepending names. *)
Theorem DefaultTopic_unending ecm (P : Entity → Prop) e link above :
  Unending ecm P →
  is_Some (Component components.Name e ecm) →
  Component components.ParentEntity e ecm = Some link →
  is_Some (Component components.Name link ecm) →
  Component components.ParentEntity link ecm = Some above →
  P above →
  ∀ fuel, DefaultTopic fuel e ecm = OutOfFuel.
Proof.
  intros Hun [sensorName Hn] Hp [linkName Hl] Ha HP fuel.
  unfold DefaultTopic. rewrite Hn, Hp, Hl, Ha.
  by apply (DefaultTopic_loop_unending ecm P).
Qed.

Lemma looping_world_unending :
  Unending looping_world (λ e, e = 2%N ∨ e = 6%N).
Proof.
  intros e [-> | ->].
  - split; [done|]. split; [by eexists|]. exists 6%N. split; [done|by right].
  - split; [done|]. split; [by eexists|]. exists 2%N. split; [done|by left].
Qed.

Lemma DefaultTopic_unending_witness :
  DefaultTopic 1000 4%N looping_world = OutOfFuel.
Proof.
  refine (DefaultTopic_unending looping_world (λ e, e = 2%N ∨ e = 6%N)
            4%N 3%N 2%N _ _ _ _ _ _ 1000).
  - apply looping_world_unending.
  - by eexists.
  - reflexivity.
  - by eexists.
  - reflexivity.
  - by left.
Defined.
(** ** From [PreUpdate] to [PostUpdate] *)

Lemma topic_for_nonempty fuel ecm e alt t :
  topic_for fuel ecm e alt = Returns t → t ≠ "".
Proof.
  unfold topic_for. destruct (sdf.topicElement alt) as [t'|].
  - destruct (str_empty t') eqn:Ht'.
    + by intros [? _]%DefaultTopic_returns_inv.
    + intros [= <-]. by apply String.eqb_neq in Ht'.
  - by intros [? _]%DefaultTopic_returns_inv.
Qed.

Section Lifecycle.
Context `{Transport}.
Implicit Types (this : AltimeterPrivate) (calls : list SystemCall).

(** Once the system is initialised, [PreUpdate] does nothing, so a run of
    calls comes down to its [PostUpdate] calls. *)
Lemma Altimeter_calls_initialized WorldPose fuel calls this :
  initialized this = true →
  Altimeter_calls WorldPose fuel calls this
  = Returns (Altimeter_PostUpdates (post_ticks calls) this).
Proof.
  revert this. induction calls as [|[ecm|info ecm] calls IH];
    intros this Hinit; [done| |].
  - cbn [Altimeter_calls]. unfold Altimeter_PreUpdate.
    rewrite Hinit. cbn [negb]. by rewrite IH.
  - change (post_ticks (PostUpdateCall info ecm :: calls))
      with ((info, ecm) :: post_ticks calls).
    cbn [Altimeter_calls Altimeter_PostUpdates].
    pose proof (PostUpdate_initialized info ecm this) as Hinit1.
    destruct (Altimeter_PostUpdate info ecm this) as [this1 out1].
    cbn [fst] in Hinit1. rewrite IH by congruence.
    by destruct (Altimeter_PostUpdates (post_ticks calls) this1).
Qed.

(** X10. Every altimeter the first [PreUpdate] has seen keeps publishing:
    whatever calls of [PreUpdate] and [PostUpdate] follow, they return, and
    a [PostUpdate] after them that is not paused publishes for the
    altimeter, on a topic that is not empty, a message that carries as the
    reference the height the world-pose helper gave at creation. *)
Theorem created_sensor_publishes
    (WorldPose : Entity → EntityComponentManager → math.Pose3d)
    (fuel : nat) (ecm : EntityComponentManager) (this1 : AltimeterPrivate)
    (e : Entity) (alt : sdf.AltimeterElement) (calls : list SystemCall)
    (_info : UpdateInfo) (ecm2 : EntityComponentManager) :
  Altimeter_PreUpdate WorldPose fuel ecm AltimeterPrivate_new
    = Returns this1 →
  Component components.Altimeter e ecm = Some alt →
  paused _info = false →
  ∃ this2 out t msg,
    Altimeter_calls WorldPose fuel calls this1 = Returns (this2, out)
    ∧ topic_for fuel ecm e alt = Returns t
    ∧ t ≠ ""
    ∧ Publish t msg ∈ snd (Altimeter_PostUpdate _info ecm2 this2)
    ∧ msgs.vertical_reference msg = math.Z (math.Pos (WorldPose e ecm)).
Proof.
  intros (Hinit & Hmap & Hfound)%PreUpdate_fresh_spec Halt Hp.
  destruct (Hfound e alt Halt) as [t Ht].
  pose proof (topic_for_nonempty _ _ _ _ _ Ht) as Hne.
  specialize (Hmap e). unfold sensor_for in Hmap.
  rewrite Halt in Hmap. cbn in Hmap. rewrite Ht in Hmap.
  set (s := created_sensor t (math.Z (math.Pos (WorldPose e ecm)))) in *.
  rewrite Altimeter_calls_initialized by done.
  destruct (PostUpdates_sensor (post_ticks calls) this1 e s Hmap)
    as (s2 & Hs2 & Ht2 & Hr2 & _).
  destruct (Altimeter_PostUpdates (post_ticks calls) this1)
    as [this2 out] eqn:Hrun. cbn [fst] in Hs2.
  set (s' := fst (AltimeterSensor_Publish (sensor_update ecm2 e s2))).
  destruct (Publish_fst_fields (sensor_update ecm2 e s2))
    as (Htopic & Hr & _).
  destruct (sensor_update_fields ecm2 e s2) as (Htopic' & Href & _).
  exists this2, out, t, (reading s'). split; [done|]. split; [done|].
  split; [done|]. split.
  - apply PostUpdate_Publish_iff; [done|]. exists e, s'.
    rewrite PostUpdate_lookup, Hs2 by done.
    repeat split; try done. unfold s'. by rewrite Htopic, Htopic', Ht2.
  - unfold s'. rewrite Hr. cbn [reading msgs.vertical_reference].
    by rewrite Href, Hr2.
Qed.

(** X11. Altimeters are created once.  After the first [PreUpdate],
    whatever calls of [PreUpdate] and [PostUpdate] follow and whatever the
    world has become, they return, an entity that was no altimeter at the
    first [PreUpdate] has no sensor, a further [PreUpdate] leaves the system
    as it is, and every [PostUpdate] that is not paused and finds the entity
    with the three components writes the error for it. *)
Theorem late_altimeter_has_no_sensor
    (WorldPose : Entity → EntityComponentManager → math.Pose3d)
    (fuel : nat) (ecm : EntityComponentManager) (this1 : AltimeterPrivate)
    (e : Entity) :
  Altimeter_PreUpdate WorldPose fuel ecm AltimeterPrivate_new
    = Returns this1 →
  Component components.Altimeter e ecm = None →
  ∀ WorldPose2 fuel2 calls,
    ∃ this2 out,
      Altimeter_calls WorldPose2 fuel2 calls this1 = Returns (this2, out)
      ∧ entitySensorMap this2 !! e = None
      ∧ (∀ WorldPose3 fuel3 ecm2,
           Altimeter_PreUpdate WorldPose3 fuel3 ecm2 this2 = Returns this2)
      ∧ (∀ _info ecm2 c k,
           paused _info = false → ecm2 !! e = Some c →
           altimeter_kinds c = Some k →
           ignerr (FailedToUpdateAltimeter e)
           ∈ snd (Altimeter_PostUpdate _info ecm2 this2)).
Proof.
  intros (Hinit & Hmap & _)%PreUpdate_fresh_spec Halt WorldPose2 fuel2 calls.
  rewrite Altimeter_calls_initialized by done.
  assert (entitySensorMap this1 !! e = None) as Hnone.
  { rewrite Hmap. unfold sensor_for. by rewrite Halt. }
  pose proof (PostUpdates_no_sensor (post_ticks calls) this1 e Hnone)
    as Hnone2.
  pose proof (PostUpdates_initialized (post_ticks calls) this1) as Hinit2.
  destruct (Altimeter_PostUpdates (post_ticks calls) this1)
    as [this2 out]. cbn [fst] in Hnone2, Hinit2.
  exists this2, out. split; [done|]. split; [done|]. split.
  - intros WorldPose3 fuel3 ecm2. unfold Altimeter_PreUpdate.
    by rewrite Hinit2, Hinit.
  - intros _info ecm2 c k Hp Hc Hk. apply PostUpdate_out; [done|]. left.
    apply UpdateAltimeters_out. by exists e, c, k.
Qed.
End Lifecycle.

Lemma created_sensor_publishes_witness :
  ∃ this2 out t msg,
    @Altimeter_calls accepting (λ _ _, at_height d_5) 8
      [PostUpdateCall (tick 0) robot_world;
       PreUpdateCall robot_world_later;
       PostUpdateCall (paused_tick 1) robot_world_later;
       PostUpdateCall (tick 2) robot_world_later]
      {| initialized := true;
         entitySensorMap :=
           {[ 5%N := created_sensor
                "/model/robot/model/tool/link/arm/sensor/alt0/altimeter"
                d_5 ]} |}
    = Returns (this2, out)
    ∧ topic_for 8 robot_world 5%N {| sdf.topicElement := None |} = Returns t
    ∧ t ≠ ""
    ∧ Publish t msg
      ∈ snd (@Altimeter_PostUpdate accepting (tick 3) robot_world_later
               this2)
    ∧ msgs.vertical_reference msg = d_5.
Proof.
  apply (@created_sensor_publishes accepting (λ _ _, at_height d_5) 8
           robot_world
           {| initialized := true;
              entitySensorMap :=
                {[ 5%N := created_sensor
                     "/model/robot/model/tool/link/arm/sensor/alt0/altimeter"
                     d_5 ]} |}
           5%N {| sdf.topicElement := None |}
           [PostUpdateCall (tick 0) robot_world;
            PreUpdateCall robot_world_later;
            PostUpdateCall (paused_tick 1) robot_world_later;
            PostUpdateCall (tick 2) robot_world_later]
           (tick 3) robot_world_later).
  - vm_compute. reflexivity.
  - reflexivity.
  - reflexivity.
Defined.

Lemma late_altimeter_has_no_sensor_witness :
  ∃ this2 out,
    @Altimeter_calls accepting (λ _ _, at_height d_1) 8
      [PostUpdateCall (tick 0) robot_world;
       PreUpdateCall robot_world_later;
       PostUpdateCall (tick 1) robot_world_later]
      {| initialized := true;
         entitySensorMap :=
           {[ 5%N := created_sensor
                "/model/robot/model/tool/link/arm/sensor/alt0/altimeter"
                d_5 ]} |}
    = Returns (this2, out)
    ∧ entitySensorMap this2 !! 9%N = None
    ∧ (∀ WorldPose3 fuel3 ecm2,
         Altimeter_PreUpdate WorldPose3 fuel3 ecm2 this2 = Returns this2)
    ∧ (∀ _info ecm2 c k,
         paused _info = false → ecm2 !! 9%N = Some c →
         altimeter_kinds c = Some k →
         ignerr (FailedToUpdateAltimeter 9%N)
         ∈ snd (@Altimeter_PostUpdate accepting _info ecm2 this2)).
Proof.
  apply (@late_altimeter_has_no_sensor accepting (λ _ _, at_height d_5) 8
           robot_world
           {| initialized := true;
              entitySensorMap :=
                {[ 5%N := created_sensor
                     "/model/robot/model/tool/link/arm/sensor/alt0/altimeter"
                     d_5 ]} |} 9%N).
  - vm_compute. reflexivity.
  - reflexivity.
Defined.

(** The second altimeter of the robot, added after the first [PreUpdate], is
    reported on every later tick, also after a further [PreUpdate], and the
    first one keeps publishing. *)
Example late_altimeter_reported :
  @Altimeter_calls accepting (λ _ _, at_height d_5) 8
    [PostUpdateCall (tick 1) robot_world_later;
     PreUpdateCall robot_world_later;
     PostUpdateCall (tick 2) robot_world_later]
    {| initialized := true;
       entitySensorMap := {[ 5%N := created_sensor "/alt0" d_5 ]} |}
  = Returns
      ({| initialized := true;
          entitySensorMap :=
            {[ 5%N := set_pub true (created_sensor "/alt0" d_5) ]} |},
       [ignerr (FailedToUpdateAltimeter 9%N);
        Advertise "/alt0"; ignmsg (AltimeterPublishingOn "/alt0");
        Publish "/alt0"
          {| msgs.vertical_position := dzero;
             msgs.vertical_velocity := dzero;
             msgs.vertical_reference := d_5 |};
        ignerr (FailedToUpdateAltimeter 9%N);
        Publish "/alt0"
          {| msgs.vertical_position := dzero;
             msgs.vertical_velocity := dzero;
             msgs.vertical_reference := d_5 |}]).
Proof. by vm_compute. Qed.

(** ** Poses played one after the other *)

Section ParsePoseV_more.
Context `{Collaborators}.
Implicit Types (ecm : EntityComponentManager).

Lemma replayed_replayed poses e c :
  replayed poses e (replayed poses e c) = replayed poses e c.
Proof.
  unfold replayed. destruct (components.Pose c) as [pose0|] eqn:Hpose.
  - destruct (recorded_pose poses e) as [pose|]; cbn; [done|].
    by rewrite Hpose.
  - by rewrite Hpose.
Qed.

Lemma ParsePoseV_again msg ecm :
  ParsePoseV msg (ParsePoseV msg ecm) = ParsePoseV msg ecm.
Proof.
  apply map_eq. intros e. rewrite !ParsePoseV_lookup.
  destruct (ecm !! e) as [c|]; [|done]. cbn. f_equal.
  apply replayed_replayed.
Qed.

(** X12. Applying a [Pose_V] a second time changes nothing. *)
Theorem ParsePoseV_idempotent msg ecm :
  ParsePoseV msg (ParsePoseV msg ecm) = ParsePoseV msg ecm.
Proof. apply ParsePoseV_again. Qed.

Lemma recorded_pose_app poses1 poses2 e :
  recorded_pose (poses1 ++ poses2) e
  = match recorded_pose poses2 e with
    | Some pose => Some pose
    | None => recorded_pose poses1 e
    end.
Proof.
  unfold recorded_pose. rewrite filter_app.
  destruct (filter _ poses2) as [|pose l] eqn:Hf using rev_ind.
  - by rewrite app_nil_r.
  - by rewrite app_assoc, !last_snoc.
Qed.

Lemma replayed_app poses1 poses2 e c :
  replayed poses2 e (replayed poses1 e c) = replayed (poses1 ++ poses2) e c.
Proof.
  unfold replayed. rewrite recorded_pose_app.
  destruct (components.Pose c) as [pose0|] eqn:Hpose.
  - destruct (recorded_pose poses1 e) as [pose1|]; cbn;
      destruct (recorded_pose poses2 e) as [pose2|]; by rewrite ?Hpose.
  - by rewrite Hpose.
Qed.

(** X13. Two [Pose_V] messages applied one after the other act like one
    message with the poses of the first followed by the poses of the second:
    for each entity the later recorded pose wins. *)
Theorem ParsePoseV_later_wins msg1 msg2 ecm e :
  ParsePoseV msg2 (ParsePoseV msg1 ecm) !! e
  = replayed (Pose_V_ParseFromString (transport_log.Data msg1)
                ++ Pose_V_ParseFromString (transport_log.Data msg2)) e
      <$> ecm !! e.
Proof.
  rewrite !ParsePoseV_lookup. destruct (ecm !! e) as [c|]; [|done]. cbn.
  f_equal. apply replayed_app.
Qed.

(** X14. A [Pose_V] that records no pose for any entity with a [Pose]
    component, an empty one for instance, leaves the entity-component
    manager as it is. *)
Theorem ParsePoseV_no_match msg ecm :
  (∀ e c, ecm !! e = Some c → is_Some (components.Pose c) →
     recorded_pose (Pose_V_ParseFromString (transport_log.Data msg)) e
     = None) →
  ParsePoseV msg ecm = ecm.
Proof.
  intros Hnone. apply map_eq. intros e. rewrite ParsePoseV_lookup.
  destruct (ecm !! e) as [c|] eqn:He; [|done]. cbn. f_equal.
  unfold replayed. destruct (components.Pose c) as [pose0|] eqn:Hpose;
    [|done].
  rewrite (Hnone e c He); [done|]. by rewrite Hpose.
Qed.
End ParsePoseV_more.

Lemma ParsePoseV_no_match_witness :
  @ParsePoseV (recorded None)
    {| transport_log.TimeReceived := second;
       transport_log.MsgType := "ignition.msgs.Pose_V";
       transport_log.Data := "" |} playback_world
  = playback_world.
Proof.
  apply (@ParsePoseV_no_match (recorded None)). intros e c _ _. reflexivity.
Defined.

(** ** Runs of [Update] *)

Section Updates_more.
Context `{Collaborators}.
Implicit Types (ecm : EntityComponentManager) (this : LogPlaybackPrivate).
Implicit Types (info : UpdateInfo) (infos : list UpdateInfo).

Lemma Update_plays info ecm this msg :
  paused info = false →
  batch this !! iter this = Some msg →
  (transport_log.TimeReceived msg ≤ simTime info)%Z →
  Update info ecm this
  = (fst (played msg ecm), set_iter (S (iter this)) this,
     snd (played msg ecm)).
Proof.
  intros Hp Hmsg Ht. unfold Update, played. rewrite Hp, Hmsg.
  apply Z.ltb_ge in Ht as ->.
  by destruct (String.eqb _ _); [|destruct (String.eqb _ _)].
Qed.

Lemma drop_cons_inv {A} (l : list A) i x k :
  drop i l = x :: k → l !! i = Some x ∧ drop (S i) l = k.
Proof.
  intros Hd. assert (l !! i = Some x) as Hx.
  { rewrite <- (Nat.add_0_r i), <- lookup_drop. by rewrite Hd. }
  split; [done|]. rewrite (drop_S _ _ _ Hx) in Hd. by injection Hd.
Qed.

(** X15. Messages are played in recorded order, one per call: when tick
    after tick the simulated time has reached the time of the next message,
    a run of calls that are not paused plays exactly as many messages as it
    has calls, applying them in order, and leaves the iterator that many
    steps further. *)
Theorem Updates_play_in_order infos msgs rest ecm this :
  Forall2 (λ info msg,
             paused info = false
             ∧ (transport_log.TimeReceived msg ≤ simTime info)%Z)
          infos msgs →
  drop (iter this) (batch this) = msgs ++ rest →
  Updates infos ecm this
  = (fst (play_all msgs ecm), set_iter (iter this + length msgs) this,
     snd (play_all msgs ecm)).
Proof.
  intros Hall. revert ecm this.
  induction Hall as [|info msg infos msgs [Hp Ht] _ IH]; intros ecm this Hd;
    cbn [Updates play_all length].
  { rewrite Nat.add_0_r. by destruct this. }
  apply drop_cons_inv in Hd as [Hmsg Hd].
  rewrite (Update_plays _ _ _ _ Hp Hmsg Ht).
  destruct (played msg ecm) as [ecm1 out1]. cbn [fst snd].
  rewrite (IH ecm1 (set_iter (S (iter this)) this)) by done.
  destruct (play_all msgs ecm1) as [ecm2 out2]. cbn [fst snd iter set_iter].
  do 2 f_equal. unfold set_iter. cbn. f_equal. lia.
Qed.

(** X16. While the simulated time is before the time of the message under
    the iterator nothing is played, however many calls are made: later
    messages wait behind it. *)
Theorem Updates_wait infos ecm this msg :
  batch this !! iter this = Some msg →
  Forall (λ info, (simTime info < transport_log.TimeReceived msg)%Z) infos →
  Updates infos ecm this = (ecm, this, []).
Proof.
  intros Hmsg. induction 1 as [|info infos Ht _ IH]; [done|].
  cbn [Updates]. unfold Update at 1. rewrite Hmsg.
  apply Z.ltb_lt in Ht as ->.
  destruct (paused info); by rewrite IH.
Qed.

(** X17. Paused calls can be left out of a run: the run does what its calls
    that are not paused do. *)
Theorem Updates_skip_paused infos ecm this :
  Updates infos ecm this
  = Updates (filter (λ info, paused info = false) infos) ecm this.
Proof.
  revert ecm this. induction infos as [|info infos IH]; intros ecm this;
    [done|].
  destruct (paused info) eqn:Hp.
  - rewrite filter_cons_False by by rewrite Hp.
    cbn [Updates]. unfold Update at 1. rewrite Hp. rewrite IH.
    by destruct (Updates _ ecm this) as [[? ?] ?].
  - rewrite filter_cons_True by done. cbn [Updates].
    destruct (Update info ecm this) as [[ecm1 this1] out1].
    by rewrite IH.
Qed.

Lemma Update_cursor info ecm this :
  let this' := snd (fst (Update info ecm this)) in
  batch this' = batch this
  ∧ iter this ≤ iter this'
  ∧ iter this' ≤ iter this + (if paused info then 0 else 1)
  ∧ (iter this ≤ length (batch this) → iter this' ≤ length (batch this)).
Proof.
  unfold Update. destruct (paused info); [cbn; split; [done|lia]|].
  destruct (batch this !! iter this) as [msg|] eqn:Hmsg.
  - apply lookup_lt_Some in Hmsg.
    destruct (_ <? _)%Z; [cbn; split; [done|lia]|].
    destruct (String.eqb _ _); [|destruct (String.eqb _ _)]; cbn;
      (split; [done|lia]).
  - destruct (printedEnd this); cbn; (split; [done|lia]).
Qed.

(** X18. The iterator only moves forward, by at most one step for each call
    that is not paused, and never past the end of the batch; the batch
    itself is never changed. *)
Theorem Updates_cursor infos ecm this :
  let this' := snd (fst (Updates infos ecm this)) in
  batch this' = batch this
  ∧ iter this ≤ iter this'
  ∧ iter this'
    ≤ iter this + length (filter (λ info, paused info = false) infos)
  ∧ (iter this ≤ length (batch this) → iter this' ≤ length (batch this)).
Proof.
  revert ecm this. induction infos as [|info infos IH]; intros ecm this;
    cbn [Updates]; [cbn; split; [done|lia]|].
  pose proof (Update_cursor info ecm this) as Hstep.
  destruct (Update info ecm this) as [[ecm1 this1] out1].
  specialize (IH ecm1 this1).
  destruct (Updates infos ecm1 this1) as [[ecm2 this2] out2].
  cbn [fst snd] in *. destruct Hstep as (Hb1 & Hlo1 & Hhi1 & Hend1).
  destruct IH as (Hb2 & Hlo2 & Hhi2 & Hend2). rewrite Hb1 in *.
  split; [done|]. split; [lia|]. split.
  - destruct (paused info) eqn:Hp.
    + rewrite filter_cons_False by by rewrite Hp. lia.
    + rewrite filter_cons_True by done. cbn [length]. lia.
  - intros Hle. apply Hend2. by apply Hend1.
Qed.
End Updates_more.

Lemma Updates_play_in_order_witness :
  @Updates (recorded None)
    [tick second; tick (2 * second); tick (3 * second)]
    playback_world (playing long_log 0)
  = (fst (@play_all (recorded None) long_log playback_world),
     set_iter (0 + length long_log) (playing long_log 0),
     snd (@play_all (recorded None) long_log playback_world)).
Proof.
  apply (@Updates_play_in_order (recorded None)
           [tick second; tick (2 * second); tick (3 * second)]
           long_log [] playback_world (playing long_log 0)).
  - repeat constructor; vm_compute; congruence.
  - reflexivity.
Defined.

Lemma Updates_wait_witness :
  @Updates (recorded None)
    [tick 0; tick (second / 2); paused_tick 7; tick (second - 1)]
    playback_world (playing long_log 0)
  = (playback_world, playing long_log 0, []).
Proof.
  apply (@Updates_wait (recorded None)
           [tick 0; tick (second / 2); paused_tick 7; tick (second - 1)]
           playback_world (playing long_log 0)
           {| transport_log.TimeReceived := second;
              transport_log.MsgType := "ignition.msgs.Pose_V";
              transport_log.Data := "rover up" |}).
  - reflexivity.
  - repeat first [apply List.Forall_nil
                 |apply List.Forall_cons; [vm_compute; reflexivity|]].
Defined.

(** The long log played: the rover is moved, the unknown message is warned
    about, the probe is there. *)
Example long_log_played :
  @play_all (recorded None) long_log playback_world
  = ({[ 9%N := posed "probe" 1%N d_1 ]}
       ∪ <[2%N := posed "rover" 1%N d_5]> playback_world,
     [ignwarn (UnsupportedMessageType "ignition.msgs.Clock")]).
Proof. by vm_compute. Qed.

Section Updates_effects.
Context `{Collaborators}.
Implicit Types (ecm : EntityComponentManager) (this : LogPlaybackPrivate).

(** X23. A run of [Update] calls that starts with the latch open writes the
    completion message at most once, and it has written it exactly when the
    latch is set at the end of the run. *)
Theorem completion_at_most_once infos ecm this :
  printedEnd this = false →
  completions (snd (Updates infos ecm this)) ≤ 1
  ∧ (completions (snd (Updates infos ecm this)) = 1
     ↔ printedEnd (snd (fst (Updates infos ecm this))) = true).
Proof.
  intros Hp.
  assert (printedEnd this = true → at_end this = true) as Hinv
    by by rewrite Hp.
  pose proof (Updates_completions infos ecm this Hinv) as Hc.
  unfold latch in Hc. rewrite Hp in Hc.
  destruct (printedEnd (snd (fst (Updates infos ecm this)))).
  - split; [lia|]. split; [done|]. intros _. lia.
  - split; [lia|]. split; [|done]. intros ?. lia.
Qed.

Lemma Update_effects info ecm this x :
  x ∈ snd (Update info ecm this) →
  x = ignmsg FinishedPlaying
  ∨ ∃ msg, msg ∈ batch this
           ∧ x = ignwarn (UnsupportedMessageType (transport_log.MsgType msg)).
Proof.
  unfold Update. destruct (paused info); [by rewrite elem_of_nil|].
  destruct (batch this !! iter this) as [msg|] eqn:Hmsg.
  - destruct (_ <? _)%Z; [by rewrite elem_of_nil|].
    destruct (String.eqb _ _); [by rewrite elem_of_nil|].
    destruct (String.eqb _ _); [by rewrite elem_of_nil|].
    cbn. rewrite list_elem_of_singleton. intros ->. right. exists msg.
    split; [|done]. by eapply list_elem_of_lookup_2.
  - destruct (printedEnd this); cbn; [by rewrite elem_of_nil|].
    rewrite list_elem_of_singleton. by left.
Qed.

(** X24. [Update] never writes an error and never publishes: all a run of
    calls writes is the completion message and a warning for a message of
    the batch whose type it does not know. *)
Theorem Updates_effects infos ecm this x :
  x ∈ snd (Updates infos ecm this) →
  x = ignmsg FinishedPlaying
  ∨ ∃ msg, msg ∈ batch this
           ∧ x = ignwarn (UnsupportedMessageType (transport_log.MsgType msg)).
Proof.
  revert ecm this. induction infos as [|info infos IH]; intros ecm this;
    cbn [Updates]; [by rewrite elem_of_nil|].
  pose proof (Update_effects info ecm this x) as Hone.
  pose proof (Update_cursor info ecm this) as [Hb _].
  destruct (Update info ecm this) as [[ecm1 this1] out1].
  specialize (IH ecm1 this1).
  destruct (Updates infos ecm1 this1) as [[ecm2 this2] out2].
  cbn [fst snd] in *. rewrite elem_of_app. intros [Hx|Hx]; [by apply Hone|].
  destruct (IH Hx) as [?|(msg & Hmsg & ?)]; [by left|right].
  exists msg. by rewrite <- Hb.
Qed.
End Updates_effects.

Lemma completion_at_most_once_witness :
  completions
    (snd (@Updates (recorded None)
            [tick second; tick second; paused_tick 0; tick second]
            playback_world (playing one_pose_log 0))) ≤ 1
  ∧ (completions
       (snd (@Updates (recorded None)
               [tick second; tick second; paused_tick 0; tick second]
               playback_world (playing one_pose_log 0))) = 1
     ↔ printedEnd
         (snd (fst (@Updates (recorded None)
                      [tick second; tick second; paused_tick 0; tick second]
                      playback_world (playing one_pose_log 0)))) = true).
Proof.
  apply (@completion_at_most_once (recorded None)
           [tick second; tick second; paused_tick 0; tick second]
           playback_world (playing one_pose_log 0)).
  reflexivity.
Defined.

Lemma Updates_effects_witness :
  ignwarn (UnsupportedMessageType "ignition.msgs.Clock")
  = ignmsg FinishedPlaying
  ∨ ∃ msg, msg ∈ batch (playing long_log 0)
           ∧ ignwarn (UnsupportedMessageType "ignition.msgs.Clock")
             = ignwarn (UnsupportedMessageType (transport_log.MsgType msg)).
Proof.
  apply (@Updates_effects (recorded None)
           [tick second; tick (2 * second); tick (3 * second)]
           playback_world (playing long_log 0)
           (ignwarn (UnsupportedMessageType "ignition.msgs.Clock"))).
  vm_compute. apply list_elem_of_here.
Defined.

(** ** More on [Configure] *)

Lemma marks_from_survivors (l : list sdf.Element) (i : nat) :
  marks_from (List.filter (λ x, negb (removed x)) l) i = [].
Proof.
  revert i. induction l as [|x l IH]; intros i; [done|]. cbn [List.filter].
  destruct (removed x) eqn:Hx; cbn [negb]; [apply IH|].
  cbn [marks_from]. rewrite Hx. apply IH.
Qed.

Lemma filter_survivors_twice (l : list sdf.Element) :
  List.filter (λ x, negb (removed x))
    (List.filter (λ x, negb (removed x)) l)
  = List.filter (λ x, negb (removed x)) l.
Proof.
  induction l as [|x l IH]; [done|]. cbn [List.filter].
  destruct (removed x) eqn:Hx; cbn [negb]; [done|].
  cbn [List.filter]. rewrite Hx. cbn [negb]. by f_equal.
Qed.

(** X19. Filtering the plugins is idempotent: in what is left of the world
    element the marking loop finds nothing to remove, and removing again
    gives the same children. *)
Theorem remove_plugins_idempotent (els : list sdf.Element) :
  let els' := remove_plugins els (plugins_to_remove els) in
  plugins_to_remove els' = []
  ∧ remove_plugins els' (plugins_to_remove els') = els'.
Proof.
  cbv zeta. rewrite !remove_plugins_filter, plugins_to_remove_marks.
  split; [apply marks_from_survivors|apply filter_survivors_twice].
Qed.

Lemma removed_has_report (x : sdf.Element) :
  removed x = true → is_Some (removal_report x).
Proof.
  unfold removed, removal_report, flagged. intros [_ Hf]%andb_true_iff.
  by destruct (GetAttribute "name" x).
Qed.

Lemma removed_names_marks (pre suf : list sdf.Element) :
  removed_names (pre ++ suf) (marks_from suf (length pre))
  = omap removal_report (List.filter removed suf).
Proof.
  revert pre. induction suf as [|x suf IH]; intros pre; [done|].
  assert ((pre ++ x :: suf) = (pre ++ [x]) ++ suf) as Hsplit
    by by rewrite <- app_assoc.
  assert (S (length pre) = length (pre ++ [x])) as Hlen
    by (rewrite length_app; simpl; lia).
  cbn [marks_from List.filter]. destruct (removed x) eqn:Hx.
  - unfold removed_names. cbn [omap list_omap].
    rewrite list_lookup_middle by done. cbn [mbind option_bind].
    fold (removal_report x). fold (removed_names (pre ++ x :: suf)).
    destruct (removed_has_report x Hx) as [r ->].
    f_equal. by rewrite <- (IH (pre ++ [x])), <- Hsplit, <- Hlen.
  - rewrite Hsplit, Hlen. apply IH.
Qed.

Lemma length_filter_split (l : list sdf.Element) :
  length (List.filter (λ x, negb (removed x)) l)
  + length (omap removal_report (List.filter removed l))
  = length l.
Proof.
  induction l as [|x l IH]; [done|]. cbn [List.filter].
  destruct (removed x) eqn:Hx; cbn [negb length omap list_omap].
  - destruct (removed_has_report x Hx) as [r ->]. cbn [length]. lia.
  - lia.
Qed.

(** X20. Every child of the world element is either forwarded or reported as
    removed, never both and never neither: the removal reports are the names
    of the unwanted plugins, in document order, and their number and the
    number of children that are left add up to the number of children. *)
Theorem removed_or_forwarded (els : list sdf.Element) :
  removed_names els (plugins_to_remove els)
  = omap removal_report (List.filter removed els)
  ∧ length (remove_plugins els (plugins_to_remove els))
    + length (removed_names els (plugins_to_remove els))
    = length els.
Proof.
  assert (removed_names els (plugins_to_remove els)
          = omap removal_report (List.filter removed els)) as Hn.
  { rewrite plugins_to_remove_marks.
    apply (removed_names_marks [] els). }
  split; [done|].
  rewrite Hn, remove_plugins_filter. apply length_filter_split.
Qed.

Section Configure_more.
Context `{Collaborators}.
Implicit Types (ecm : EntityComponentManager) (this : LogPlaybackPrivate).

(** When the scene does not load, [Configure] stops at its first error. *)
Lemma Configure_scene_fails w logPath ecm this :
  (¬ ∃ sdfWorld, scene_loads logPath sdfWorld) →
  ∃ out,
    Configure w logPath ecm this = (ecm, this, out)
    ∧ errors out = 1 ∧ List.filter is_LoadPlugins out = [].
Proof.
  intros Hno. unfold Configure, str_empty.
  destruct (String.eqb_spec logPath "") as [Hp|Hp]; [by eexists|].
  destruct (isDirectory logPath) eqn:Hd; [|by eexists]. cbn [negb].
  destruct (exists_ (joinPaths logPath "state.tlog")) eqn:Hdb;
    [|by eexists].
  destruct (exists_ (joinPaths logPath "state.sdf")) eqn:Hsdf;
    [|by eexists]. cbn [negb orb].
  destruct (sdf_dom.LoadErrors _) as [|n] eqn:Herr; [|by eexists].
  destruct (sdf_dom.Worlds _) as [|sdfWorld worlds] eqn:Hw; [by eexists|].
  destruct Hno. exists sdfWorld. repeat split; try done. by rewrite Hw.
Qed.

Lemma scene_loads_or_not (logPath : string) :
  (∃ sdfWorld, scene_loads logPath sdfWorld)
  ∨ ¬ ∃ sdfWorld, scene_loads logPath sdfWorld.
Proof.
  unfold scene_loads.
  destruct (decide (logPath = "")) as [Hp|Hp];
    [right; by intros (? & ? & _)|].
  destruct (isDirectory logPath);
    [|right; by intros (? & _ & ? & _)].
  destruct (exists_ (joinPaths logPath "state.tlog"));
    [|right; by intros (? & _ & _ & ? & _)].
  destruct (exists_ (joinPaths logPath "state.sdf"));
    [|right; by intros (? & _ & _ & _ & ? & _)].
  destruct (sdf_dom.LoadErrors _) as [|n];
    [|right; by intros (? & _ & _ & _ & _ & ? & _)].
  destruct (sdf_dom.Worlds _) as [|sdfWorld worlds];
    [right; by intros (? & _ & _ & _ & _ & _ & ?)|].
  left. by exists sdfWorld.
Qed.

Lemma scene_loads_unique logPath sdfWorld sdfWorld' :
  scene_loads logPath sdfWorld → scene_loads logPath sdfWorld' →
  sdfWorld = sdfWorld'.
Proof.
  intros (_ & _ & _ & _ & _ & Hw) (_ & _ & _ & _ & _ & Hw'). congruence.
Qed.

Lemma Configure_playable w logPath ecm :
  let result := Configure w logPath ecm LogPlaybackPrivate_new in
  (errors (snd result) = 0 ↔ playable logPath)
  ∧ (at_end (snd (fst result)) = false ↔ playable logPath).
Proof.
  cbv zeta. destruct (scene_loads_or_not logPath) as [[sdfWorld Hs]|Hno].
  - rewrite (Configure_scene_loads _ _ _ _ _ Hs). cbn [fst snd].
    rewrite !errors_app, errors_removed_names.
    destruct (Log_Open _) as [[|msg msgs]|] eqn:Ho; cbn.
    + split; (split; [done|]); intros (? & ? & ? & _ & ?); congruence.
    + split; (split; [|done]); intros _; by exists sdfWorld, msg, msgs.
    + split; (split; [done|]); intros (? & ? & ? & _ & ?); congruence.
  - destruct (Configure_scene_fails w logPath ecm LogPlaybackPrivate_new Hno)
      as (out & -> & Herr & _). cbn [fst snd]. rewrite Herr.
    split; (split; [done|]); intros (sdfWorld & ? & ? & Hs & _);
      destruct Hno; by exists sdfWorld.
Qed.

(** X21. [Configure] on the fresh system writes no error exactly when the
    configuration is in order (the scene loads, the log opens and is not
    empty), and exactly then playback is armed: the iterator stands on a
    message. *)
Theorem Configure_arms_playback w logPath ecm :
  let result := Configure w logPath ecm LogPlaybackPrivate_new in
  (errors (snd result) = 0 ↔ playable logPath)
  ∧ (at_end (snd (fst result)) = false ↔ playable logPath).
Proof. apply Configure_playable. Qed.

(** The two loops of [Configure] create the models, then the lights, each
    made a child of the world right after it was created. *)
Lemma create_models_built w models ecm :
  built w (inl <$> models) ecm (create_models w models ecm).
Proof.
  revert ecm. induction models as [|model models IH]; intros ecm.
  { apply built_nil. }
  unfold create_models. cbn [foldl fmap list_fmap].
  destruct (CreateEntities_model model ecm) as [modelEntity ecm1] eqn:Hc.
  eapply built_model; [done|]. apply IH.
Qed.

Lemma create_lights_built w lights ecm :
  built w (inr <$> lights) ecm (create_lights w lights ecm).
Proof.
  revert ecm. induction lights as [|light lights IH]; intros ecm.
  { apply built_nil. }
  unfold create_lights. cbn [foldl fmap list_fmap].
  destruct (CreateEntities_light light ecm) as [lightEntity ecm1] eqn:Hc.
  eapply built_light; [done|]. apply IH.
Qed.

Lemma built_app w things1 things2 ecm ecm1 ecm2 :
  built w things1 ecm ecm1 → built w things2 ecm1 ecm2 →
  built w (things1 ++ things2) ecm ecm2.
Proof.
  induction 1 as [|model things ecm e ecm1 ecm' Hc _ IH
                  |light things ecm e ecm1 ecm' Hc _ IH]; intros Hb;
    [done| |].
  - eapply built_model; [done|]. by apply IH.
  - eapply built_light; [done|]. by apply IH.
Qed.

(** X22. The world is built before the log is looked at.  When the scene
    does not load, [Configure] leaves the entities and the system as they
    are and emits no [LoadPlugins].  When it loads, the entities
    [Configure] returns are those the entity creator makes of the models of
    the scene, in order, and then of its lights, in order, each made a
    child of the world entity; and [LoadPlugins] is emitted with the
    children of the world element that are left, whether or not the log can
    then be opened and has messages. *)
Theorem Configure_builds_before_log w logPath ecm this :
  ((¬ ∃ sdfWorld, scene_loads logPath sdfWorld) →
     fst (Configure w logPath ecm this) = (ecm, this)
     ∧ List.filter is_LoadPlugins (snd (Configure w logPath ecm this)) = [])
  ∧ (∀ sdfWorld, scene_loads logPath sdfWorld →
       built w
         ((inl <$> sdf_dom.Models sdfWorld)
            ++ (inr <$> sdf_dom.Lights sdfWorld))
         ecm (fst (fst (Configure w logPath ecm this)))
       ∧ LoadPlugins w
           (List.filter (λ x, negb (removed x)) (sdf_dom.Element sdfWorld))
         ∈ snd (Configure w logPath ecm this)).
Proof.
  split.
  - intros Hno.
    by destruct (Configure_scene_fails w logPath ecm this Hno)
      as (out & -> & _ & Hlp).
  - intros sdfWorld Hs. rewrite (Configure_scene_loads _ _ _ _ _ Hs).
    cbn [fst snd]. split.
    + eapply built_app; [apply create_models_built|].
      apply create_lights_built.
    + rewrite remove_plugins_filter, !elem_of_app.
      right. left. apply list_elem_of_here.
Qed.
End Configure_more.

Lemma staged_scene_loads : @scene_loads staged "/log" staged_scene.
Proof. repeat split; done. Qed.

Lemma Configure_builds_before_log_witness :
  @built staged 1%N [inl "rover"; inr "sun"] playback_world
    (fst (fst (@Configure staged 1%N "/log" playback_world
                 LogPlaybackPrivate_new)))
  ∧ LoadPlugins 1%N
      (List.filter (λ x, negb (removed x)) recorded_world_elements)
    ∈ snd (@Configure staged 1%N "/log" playback_world
             LogPlaybackPrivate_new).
Proof.
  apply (proj2 (@Configure_builds_before_log staged 1%N "/log"
                  playback_world LogPlaybackPrivate_new) staged_scene).
  apply staged_scene_loads.
Defined.

(** On the staged directory the rover becomes entity 4 and the sun entity
    5, both children of the world, although the log cannot be opened. *)
Example Configure_staged :
  @Configure staged 1%N "/log" playback_world LogPlaybackPrivate_new
  = (<[5%N := named "sun" 1%N]>
       (<[4%N := named "rover" 1%N]> playback_world),
     LogPlaybackPrivate_new,
     [ignmsg (LoadingLogFiles "/log/state.tlog" "/log/state.sdf");
      igndbg (RemovedPlugin "MyLogRecord");
      igndbg (RemovedPlugin "BulletPhysics");
      LoadPlugins 1%N
        [ {| sdf.GetName := "gravity"; sdf.attributes := [] |};
          {| sdf.GetName := "model";
             sdf.attributes := [("name", "rover")] |};
          plugin "KeyboardInput" ];
      ignerr (FailedToOpenLog "/log/state.tlog");
      ignerr (NoMessagesFound "/log/state.tlog")]).
Proof. by vm_compute. Qed.
